(** * rmdir-cli: a verification model of the command-line front end

    The development embeds the brutal-mode version of the CLI script
    (the second script of [src/unnamed/part_000], lines 273-745): argument
    parsing, directory inspection, size computation, process scanning and
    killing, the confirmation prompt, the per-target promise chain and the
    [Promise.all] aggregation that picks the process exit code. *)

From Stdlib Require Import List String Ascii ZArith NArith Bool Arith Lia.
From Stdlib Require Import Permutation DecimalString Finite.
Import ListNotations.
Local Open Scope string_scope.
#[local] Set Warnings "-register-all,-implicit-create-rewrite-hint-db".

(** ** Argument parser *)

Module Args.

(** The [options] object literal of [parseArgs]. *)
Record options : Type := mkOptions {
  force : bool;
  yes : bool;
  brutal : bool;
  help : bool;
  version : bool;
  directories : list string
}.

Definition initial : options := mkOptions false false false false false [].

(** [parseArgs] either returns the options or leaves the process through
    [process.exit(1)] at the first unknown option. *)
Inductive parsed : Type :=
| Parsed (o : options)
| UnknownOption (arg : string).

Definition set_help (o : options) : options :=
  mkOptions (force o) (yes o) (brutal o) true (version o) (directories o).
Definition set_version (o : options) : options :=
  mkOptions (force o) (yes o) (brutal o) (help o) true (directories o).
Definition set_force (o : options) : options :=
  mkOptions true (yes o) (brutal o) (help o) (version o) (directories o).
Definition set_brutal (o : options) : options :=
  mkOptions (force o) (yes o) true (help o) (version o) (directories o).
Definition set_yes (o : options) : options :=
  mkOptions (force o) true (brutal o) (help o) (version o) (directories o).
Definition push_directory (arg : string) (o : options) : options :=
  mkOptions (force o) (yes o) (brutal o) (help o) (version o)
            (directories o ++ [arg]).

(** The body of the [for] loop, one token. *)
Definition step (o : options) (arg : string) : parsed :=
  if (arg =? "--help") || (arg =? "-h") then Parsed (set_help o)
  else if (arg =? "--version") || (arg =? "-v") then Parsed (set_version o)
  else if (arg =? "--force") || (arg =? "-f") then Parsed (set_force o)
  else if (arg =? "--brutal") || (arg =? "-b") then Parsed (set_brutal o)
  else if (arg =? "--yes") || (arg =? "-y") then Parsed (set_yes o)
  else if String.prefix "-" arg then UnknownOption arg
  else Parsed (push_directory arg o).

Fixpoint loop (o : options) (args : list string) : parsed :=
  match args with
  | [] => Parsed o
  | arg :: rest =>
      match step o arg with
      | Parsed o' => loop o' rest
      | UnknownOption a => UnknownOption a
      end
  end.

Definition parseArgs (args : list string) : parsed := loop initial args.

(** The tokens the parser recognises as flags. *)
Definition is_flag (arg : string) : bool :=
  (arg =? "--help") || (arg =? "-h") || (arg =? "--version") || (arg =? "-v")
  || (arg =? "--force") || (arg =? "-f") || (arg =? "--brutal") || (arg =? "-b")
  || (arg =? "--yes") || (arg =? "-y").

End Args.

(** ** Directory inspector *)

Module Inspector.

(** What the [fs] module shows of one path.  [statSync] either throws (with
    an error code and message) or answers [isDirectory()] and [size];
    [readdirSync] on a directory either throws or lists the entries. *)
Inductive node : Type :=
| File (size : N)
| Dir (listing : option (list (string * node)))
| NoStat (code message : string).

(** The file system: target paths and the trees below them.  A path that is
    not listed does not exist ([statSync] throws [ENOENT]). *)
Definition filesystem : Type := list (string * node).

Fixpoint lookup (p : string) (fs : filesystem) : option node :=
  match fs with
  | [] => None
  | (q, n) :: rest => if (q =? p) then Some n else lookup p rest
  end.

Definition stat (p : string) (fs : filesystem) : node :=
  match lookup p fs with
  | Some n => n
  | None => NoStat "ENOENT" ("ENOENT: no such file or directory, stat '" ++ p ++ "'")
  end.

Fixpoint remove (p : string) (fs : filesystem) : filesystem :=
  match fs with
  | [] => []
  | (q, n) :: rest => if (q =? p) then remove p rest else (q, n) :: remove p rest
  end.

(** [checkDirectory]: the boolean it returns and the line it prints on
    [console.error]. *)
Definition checkDirectory (dirpath : string) (fs : filesystem)
  : bool * list string :=
  match stat dirpath fs with
  | Dir _ => (true, [])
  | File _ => (false, ["Error: " ++ dirpath ++ " is not a directory"])
  | NoStat code message =>
      if (code =? "ENOENT") then
        (false, ["Error: Directory '" ++ dirpath ++ "' does not exist"])
      else if (code =? "EACCES") then
        (false, ["Error: Permission denied accessing '" ++ dirpath ++ "'"])
      else
        (false, ["Error: Unable to access '" ++ dirpath ++ "': " ++ message])
  end.

(** [fs.readdirSync]: the entries, or an exception. *)
Definition readdir (n : node) : option (list (string * node)) :=
  match n with
  | Dir listing => listing
  | File _ => None
  | NoStat _ _ => None
  end.

(** [isDirectoryEmpty]: [files.length === 0], and [false] from the [catch]. *)
Definition isDirectoryEmpty (dirpath : string) (fs : filesystem) : bool :=
  match readdir (stat dirpath fs) with
  | Some files => Nat.eqb (List.length files) 0
  | None => false
  end.

(** The two counters of [getDirectorySize], and the number of exceptions
    its [catch] has logged. *)
Record report : Type := mkReport {
  size : N;
  files : N;
  caught : nat
}.

Definition count_file (sz : N) (r : report) : report :=
  mkReport (size r + sz) (files r + 1) (caught r).
Definition count_error (r : report) : report :=
  mkReport (size r) (files r) (S (caught r)).

(** [walkDir(currentPath)] for the directory [n].  The [forEach] runs inside
    the [try]: a [statSync] that throws on an entry leaves the loop, and the
    [catch] of this call of [walkDir] swallows it; the entries after it are
    not visited. *)
Fixpoint walkDir (n : node) (r : report) {struct n} : report :=
  match n with
  | Dir (Some entries) =>
      (fix forEach (es : list (string * node)) (r : report) : report :=
         match es with
         | [] => r
         | (_, child) :: rest =>
             match child with
             | NoStat _ _ => count_error r
             | Dir _ => forEach rest (walkDir child r)
             | File sz => forEach rest (count_file sz r)
             end
         end) entries r
  | Dir None => count_error r
  | File _ => count_error r
  | NoStat _ _ => count_error r
  end.

Definition getDirectorySize (dirpath : string) (fs : filesystem) : report :=
  walkDir (stat dirpath fs) (mkReport 0 0 0).

End Inspector.

(** ** The string operations of the script

    Command output is a JavaScript string; its code units are modelled by
    the characters of [string], and JavaScript numbers by exact integers
    ([None] stands for [NaN]). *)

Module Js.

Definition code (c : ascii) : nat := nat_of_ascii c.

(** The class [\s] of regular expressions, which is also the white space
    [parseInt] and [trim] strip (code units below 256). *)
Definition is_space (c : ascii) : bool :=
  let n := code c in
  (n =? 9)%nat || (n =? 10)%nat || (n =? 11)%nat || (n =? 12)%nat
  || (n =? 13)%nat || (n =? 32)%nat || (n =? 160)%nat.

Definition is_digit (c : ascii) : bool :=
  let n := code c in (48 <=? n)%nat && (n <=? 57)%nat.

(** The value of a digit in the given radix (10 or 16). *)
Definition digit_value (radix : Z) (c : ascii) : option Z :=
  let n := Z.of_nat (code c) in
  let v := if (48 <=? n)%Z && (n <=? 57)%Z then Some (n - 48)%Z
           else if (97 <=? n)%Z && (n <=? 122)%Z then Some (n - 87)%Z
           else if (65 <=? n)%Z && (n <=? 90)%Z then Some (n - 55)%Z
           else None in
  match v with
  | Some d => if (d <? radix)%Z then Some d else None
  | None => None
  end.

(** [s.split(sep)] for a separator of one character. *)
Fixpoint split (sep : ascii) (s : string) : list string :=
  match s with
  | EmptyString => [EmptyString]
  | String c rest =>
      if Ascii.eqb c sep then EmptyString :: split sep rest
      else match split sep rest with
           | piece :: pieces => String c piece :: pieces
           | [] => [String c EmptyString]
           end
  end.

(** [s.split(/\s+/)]: [sep] tells that the previous character belonged to
    a separator. *)
Fixpoint split_spaces_from (sep : bool) (s : string) : list string :=
  match s with
  | EmptyString => [EmptyString]
  | String c rest =>
      if is_space c then
        if sep then split_spaces_from true rest
        else EmptyString :: split_spaces_from true rest
      else match split_spaces_from false rest with
           | piece :: pieces => String c piece :: pieces
           | [] => [String c EmptyString]
           end
  end.

Definition split_spaces (s : string) : list string := split_spaces_from false s.

(** [hay.includes(needle)]. *)
Fixpoint includes (needle hay : string) : bool :=
  String.prefix needle hay ||
  match hay with
  | EmptyString => false
  | String _ rest => includes needle rest
  end.

Fixpoint skip_spaces (s : string) : string :=
  match s with
  | EmptyString => EmptyString
  | String c rest => if is_space c then skip_spaces rest else s
  end.

(** [s.trim()] as a condition: true when something is left. *)
Definition trim_nonempty (s : string) : bool :=
  match skip_spaces s with
  | EmptyString => false
  | String _ _ => true
  end.

(** [s.replace(/c/g, "")]. *)
Fixpoint remove_all (c : ascii) (s : string) : string :=
  match s with
  | EmptyString => EmptyString
  | String d rest =>
      if Ascii.eqb d c then remove_all c rest else String d (remove_all c rest)
  end.

(** The longest prefix of digits of the radix, read as a number. *)
Fixpoint digits_from (radix : Z) (acc : option Z) (s : string) : option Z :=
  match s with
  | EmptyString => acc
  | String c rest =>
      match digit_value radix c with
      | Some d =>
          digits_from radix
            (Some (match acc with Some a => a * radix + d | None => d end)%Z)
            rest
      | None => acc
      end
  end.

(** [parseInt(s)] with no radix: white space, a sign, [0x] or [0X] for
    radix 16, then the digits; [NaN] when there is none. *)
Definition parseInt (s : string) : option Z :=
  let s := skip_spaces s in
  let '(negative, s) :=
    match s with
    | String "-" rest => (true, rest)
    | String "+" rest => (false, rest)
    | _ => (false, s)
    end in
  let '(radix, s) :=
    match s with
    | String "0" (String "x" rest) => (16%Z, rest)
    | String "0" (String "X" rest) => (16%Z, rest)
    | _ => (10%Z, s)
    end in
  match digits_from radix None s with
  | Some v => Some (if negative then (- v)%Z else v)
  | None => None
  end.

Fixpoint take_digits (s : string) : string :=
  match s with
  | EmptyString => EmptyString
  | String c rest => if is_digit c then String c (take_digits rest) else EmptyString
  end.

Fixpoint drop (n : nat) (s : string) : string :=
  match n, s with
  | O, _ => s
  | S m, String _ rest => drop m rest
  | S _, EmptyString => EmptyString
  end.

(** The regular expression [/pid:\s*(\d+)/] tried at the start of [s]. *)
Definition match_pid_here (s : string) : option string :=
  if String.prefix "pid:" s then
    match take_digits (skip_spaces (drop 4 s)) with
    | EmptyString => None
    | digits => Some digits
    end
  else None.

(** [line.match(/pid:\s*(\d+)/)]: the first group of the leftmost match. *)
Fixpoint match_pid (s : string) : option string :=
  match match_pid_here s with
  | Some digits => Some digits
  | None =>
      match s with
      | EmptyString => None
      | String _ rest => match_pid rest
      end
  end.

(** [c.toLowerCase()] on the letters [A]-[Z]; no other character has [y],
    [e] or [s] as its lower case. *)
Definition lower_char (c : ascii) : ascii :=
  let n := code c in
  if (65 <=? n)%nat && (n <=? 90)%nat then ascii_of_nat (n + 32) else c.

Fixpoint toLowerCase (s : string) : string :=
  match s with
  | EmptyString => EmptyString
  | String c rest => String (lower_char c) (toLowerCase rest)
  end.

End Js.

(** ** Process scanner and terminator *)

Module Scanner.

Inductive platform : Type := Win32 | Posix.

(** The command lines the script hands to [child_process.execSync]. *)
Inductive command : Type :=
| HandleExe (dirpath : string)
| Tasklist (dirpath : string)
| Lsof (dirpath : string)
| Taskkill (pid : option Z)
| Kill9 (pid : option Z).

(** [execSync] returns the standard output or throws (non-zero exit status,
    timeout, command not found). *)
Inductive exec_result : Type :=
| Stdout (out : string)
| ExecError (message : string).

(** The operating system as the script sees it.  The answer of a command is
    taken as a function of its command line. *)
Record system : Type := mkSystem {
  os_platform : platform;
  execSync : command -> exec_result
}.

(** [{pid, name}]; the pid is what [parseInt] gave, [None] for [NaN]. *)
Record process : Type := mkProcess {
  pid : option Z;
  name : string
}.

Definition newline : ascii := "010"%char.
Definition comma : ascii := ","%char.
Definition quote : ascii := "034"%char.

Definition nth_string (n : nat) (l : list string) : string := nth n l "".

(** The [forEach] over the lines of [handle.exe]. *)
Definition handle_line (line : string) : list process :=
  if Js.includes "pid:" line then
    match Js.match_pid line with
    | Some digits => [mkProcess (Js.parseInt digits) "Unknown"]
    | None => []
    end
  else [].

(** The [forEach] over the lines of [tasklist]. *)
Definition tasklist_line (line : string) : list process :=
  let parts := Js.split comma line in
  if (2 <=? List.length parts)%nat then
    [mkProcess (Js.parseInt (Js.remove_all quote (nth_string 1 parts)))
               (Js.remove_all quote (nth_string 0 parts))]
  else [].

(** The [forEach] over the lines of [lsof]. *)
Definition lsof_line (line : string) : list process :=
  let parts := Js.split_spaces line in
  if (2 <=? List.length parts)%nat then
    match Js.parseInt (nth_string 1 parts) with
    | Some n => [mkProcess (Some n) (nth_string 0 parts)]
    | None => []
    end
  else [].

(** The [processes] array before duplicates are removed. *)
Definition collect (sys : system) (dirpath : string) : list process :=
  match os_platform sys with
  | Win32 =>
      match execSync sys (HandleExe dirpath) with
      | Stdout result =>
          if negb (Js.includes "handle.exe not found" result) then
            flat_map handle_line (Js.split newline result)
          else []
      | ExecError _ =>
          match execSync sys (Tasklist dirpath) with
          | Stdout tasklistResult =>
              if Js.trim_nonempty tasklistResult then
                flat_map tasklist_line (Js.split newline tasklistResult)
              else []
          | ExecError _ => []
          end
      end
  | Posix =>
      match execSync sys (Lsof dirpath) with
      | Stdout lsofResult =>
          if Js.trim_nonempty lsofResult then
            flat_map lsof_line (Js.split newline lsofResult)
          else []
      | ExecError _ => []
      end
  end.

Definition pid_eqb (a b : option Z) : bool :=
  match a, b with
  | Some x, Some y => (x =? y)%Z
  | None, None => true
  | _, _ => false
  end.

(** [seenPids.has(pid)]; a [Set] finds [NaN] equal to [NaN]. *)
Definition has (seenPids : list (option Z)) (p : option Z) : bool :=
  existsb (pid_eqb p) seenPids.

(** The loop that removes duplicates. *)
Fixpoint unique (seenPids : list (option Z)) (processes : list process)
  : list process :=
  match processes with
  | [] => []
  | proc :: rest =>
      if has seenPids (pid proc) then unique seenPids rest
      else proc :: unique (pid proc :: seenPids) rest
  end.

(** [getProcessesUsingDirectory]: the value its promise resolves with (it is
    never rejected). *)
Definition getProcessesUsingDirectory (sys : system) (dirpath : string)
  : list process :=
  unique [] (collect sys dirpath).

(** The command [killProcesses] runs for one process. *)
Definition kill_command (sys : system) (proc : process) : command :=
  match os_platform sys with
  | Win32 => Taskkill (pid proc)
  | Posix => Kill9 (pid proc)
  end.

(** How the promise of [killProcesses] settles: [resolve(killed)], or
    [reject({killed, failed})]. *)
Inductive kill_outcome : Type :=
| KillResolved (killed : list process)
| KillRejected (killed : list process) (failed : list (process * string)).

(** The [forEach] of [killProcesses], pushing on the two arrays. *)
Fixpoint kill_each (sys : system) (processes : list process)
    (killed : list process) (failed : list (process * string))
  : list process * list (process * string) :=
  match processes with
  | [] => (killed, failed)
  | proc :: rest =>
      match execSync sys (kill_command sys proc) with
      | Stdout _ => kill_each sys rest (killed ++ [proc]) failed
      | ExecError message => kill_each sys rest killed (failed ++ [(proc, message)])
      end
  end.

Definition killProcesses (sys : system) (processes : list process)
  : kill_outcome :=
  let '(killed, failed) := kill_each sys processes [] [] in
  if (0 <? List.length failed)%nat then KillRejected killed failed
  else KillResolved killed.

End Scanner.

(** ** Printing numbers *)

Module Show.

Definition of_N (n : N) : string := NilEmpty.string_of_uint (N.to_uint n).
Definition of_nat (n : nat) : string := of_N (N.of_nat n).

(** A number inside a string concatenation. *)
Definition of_number (n : option Z) : string :=
  match n with
  | None => "NaN"
  | Some z => if (z <? 0)%Z then "-" ++ of_N (Z.to_N (- z)) else of_N (Z.to_N z)
  end.

Definition two_digits (n : N) : string :=
  if (n <? 10)%N then "0" ++ of_N n else of_N n.

(** [(size / (1024 * 1024)).toFixed(2)]: the quotient by a power of two is
    exact, and [toFixed] takes the nearest hundredth, the larger one on a
    tie. *)
Definition megabytes (size : N) : string :=
  let hundredths := ((200 * size + 1048576) / 2097152)%N in
  of_N (hundredths / 100) ++ "." ++ two_digits (hundredths mod 100).

End Show.

(** ** Promises and the job queue

    The script chains promises; the order in which their callbacks run, and
    whether they run before [process.exit], is decided by the job queue.
    Every promise of the script has a name: its place in the source and,
    for the promises created per target, the index of the target. *)

Module Promise.

Inductive slot : Type :=
| Target     (* new Promise(...) returned by rmdirWithConfirmation *)
| Confirm    (* confirmDeletion(dirpath, options) *)
| Confirmed  (* .then(function (confirmed) {...}) *)
| Deleted    (* .then(function () {...}) *)
| Guarded    (* .catch(function (err) { reject(err); }) *)
| Scan       (* getProcessesUsingDirectory(dirpath) *)
| Scanned    (* .then(function (processes) {...}) *)
| ScanSafe   (* .catch(function (procErr) {...}) *)
| Kill       (* killProcesses(processes) *)
| Killed     (* .then(function (killed) {...}) *)
| KillSafe   (* .catch(function (killResult) {...}) *)
| Plain.     (* Promise.resolve(true) *)

Inductive name : Type :=
| Of (i : nat) (s : slot)
| All        (* Promise.all(promises) *)
| Results    (* .then(function (results) {...}) *)
| Failure.   (* .catch(function (err) {...}) *)

Definition slot_eqb (a b : slot) : bool :=
  match a, b with
  | Target, Target | Confirm, Confirm | Confirmed, Confirmed
  | Deleted, Deleted | Guarded, Guarded | Scan, Scan | Scanned, Scanned
  | ScanSafe, ScanSafe | Kill, Kill | Killed, Killed | KillSafe, KillSafe
  | Plain, Plain => true
  | _, _ => false
  end.

Definition name_eqb (a b : name) : bool :=
  match a, b with
  | Of i s, Of j t => Nat.eqb i j && slot_eqb s t
  | All, All | Results, Results | Failure, Failure => true
  | _, _ => false
  end.

(** The values that travel through the promises. *)
Inductive value : Type :=
| VUndefined
| VBool (b : bool)
| VError (message : string)
| VProcesses (processes : list Scanner.process)
| VKillResult (killed : list Scanner.process)
              (failed : list (Scanner.process * string))
| VArray (items : list value)
| VPromise (p : name).

(** The functions of the script that are handed to [then] and [catch], and
    the resolving functions the run time hands to [then]. *)
Inductive callback : Type :=
| OnConfirmed (i : nat)     (* function (confirmed) *)
| OnDelete (i : nat)        (* function () after the confirmation *)
| OnChainError (i : nat)    (* function (err) { reject(err); } *)
| OnProcesses (i : nat)     (* function (processes) *)
| OnScanError (i : nat)     (* function (procErr) *)
| OnKilled (i : nat)        (* function (killed) *)
| OnKillFailed (i : nat)    (* function (killResult) *)
| ResolveElement (i : nat)  (* Promise.all, element i *)
| RejectAll                 (* Promise.all, reject *)
| OnResults                 (* function (results) *)
| OnFailure                 (* function (err) of the last catch *)
| ResolveWith (p : name)
| RejectWith (p : name).

Record reaction : Type := mkReaction {
  on_fulfilled : option callback;
  on_rejected : option callback;
  derived : option name
}.

Inductive pstate : Type :=
| Pending (reactions : list reaction)
| Fulfilled (v : value)
| Rejected (v : value).

Inductive job : Type :=
| Reaction (handler : option callback) (target : option name)
           (rejected : bool) (argument : value)
| Thenable (p : name) (thenable : name).

(** What the run writes and calls, in order. *)
Inductive event : Type :=
| Stdout (line : string)
| Stderr (line : string)
| CheckDirectory (dirpath : string)
| IsDirectoryEmpty (dirpath : string)
| GetDirectorySize (dirpath : string)
| Question (dirpath : string) (prompt : string)
| Exec (c : Scanner.command)
| Rmdir (dirpath : string)
| Exit (status : nat).

End Promise.

(** ** The script: per-target chain, aggregation, event loop *)

Module Cli.

Import Promise.
Export Args.

(** What the run depends on besides its arguments.  [rmdir_error] gives the
    message of the exception [rmdir] throws for a path, if it throws;
    [answer i] is the line typed in reply to the prompt of target [i]. *)
Record environment : Type := mkEnvironment {
  sys : Scanner.system;
  rmdir_error : string -> option string;
  answer : nat -> string
}.

Record state : Type := mkState {
  fs : Inspector.filesystem;
  promises : name -> pstate;
  queue : list job;           (* the promise jobs, oldest first *)
  questions : list nat;       (* targets waiting on rl.question *)
  values : list (option value); (* the values array of Promise.all *)
  remaining : nat;            (* its count of missing elements *)
  trace : list event;
  exited : option nat
}.

Definition set_fs (x : Inspector.filesystem) (st : state) : state :=
  mkState x (promises st) (queue st) (questions st) (values st)
          (remaining st) (trace st) (exited st).
Definition set_promises (x : name -> pstate) (st : state) : state :=
  mkState (fs st) x (queue st) (questions st) (values st)
          (remaining st) (trace st) (exited st).
Definition set_queue (x : list job) (st : state) : state :=
  mkState (fs st) (promises st) x (questions st) (values st)
          (remaining st) (trace st) (exited st).
Definition set_questions (x : list nat) (st : state) : state :=
  mkState (fs st) (promises st) (queue st) x (values st)
          (remaining st) (trace st) (exited st).
Definition set_values (x : list (option value)) (st : state) : state :=
  mkState (fs st) (promises st) (queue st) (questions st) x
          (remaining st) (trace st) (exited st).
Definition set_remaining (x : nat) (st : state) : state :=
  mkState (fs st) (promises st) (queue st) (questions st) (values st)
          x (trace st) (exited st).
Definition set_trace (x : list event) (st : state) : state :=
  mkState (fs st) (promises st) (queue st) (questions st) (values st)
          (remaining st) x (exited st).
Definition set_exited (x : option nat) (st : state) : state :=
  mkState (fs st) (promises st) (queue st) (questions st) (values st)
          (remaining st) (trace st) x.

Definition emit (es : list event) (st : state) : state :=
  set_trace (trace st ++ es) st.
Definition enqueue (js : list job) (st : state) : state :=
  set_queue (queue st ++ js) st.
Definition store (p : name) (c : pstate) (st : state) : state :=
  set_promises (fun q => if name_eqb q p then c else promises st q) st.

(** [process.exit(status)]. *)
Definition exit (status : nat) (st : state) : state :=
  set_exited (Some status) (emit [Exit status] st).

(** The jobs a settled promise queues for its reactions. *)
Definition job_of (is_rejected : bool) (v : value) (r : reaction) : job :=
  Reaction (if is_rejected then on_rejected r else on_fulfilled r)
           (derived r) is_rejected v.

(** A promise is settled once; settling queues a job per reaction. *)
Definition fulfill (p : name) (v : value) (st : state) : state :=
  match promises st p with
  | Pending reactions =>
      enqueue (map (job_of false v) reactions) (store p (Fulfilled v) st)
  | _ => st
  end.

Definition reject (p : name) (v : value) (st : state) : state :=
  match promises st p with
  | Pending reactions =>
      enqueue (map (job_of true v) reactions) (store p (Rejected v) st)
  | _ => st
  end.

(** The resolving function of a promise: a promise given as the value is
    followed, through a job of its own. *)
Definition resolve (p : name) (v : value) (st : state) : state :=
  match promises st p with
  | Pending _ =>
      match v with
      | VPromise q => enqueue [Thenable p q] st
      | _ => fulfill p v st
      end
  | _ => st
  end.

(** [p.then(onFulfilled, onRejected)] and [p.catch(onRejected)]. *)
Definition register (p : name) (r : reaction) (st : state) : state :=
  match promises st p with
  | Pending reactions => store p (Pending (reactions ++ [r])) st
  | Fulfilled v => enqueue [job_of false v r] st
  | Rejected v => enqueue [job_of true v r] st
  end.

Definition then_ (p : name) (f : callback) (d : name) : state -> state :=
  register p (mkReaction (Some f) None (Some d)).
Definition catch_ (p : name) (f : callback) (d : name) : state -> state :=
  register p (mkReaction None (Some f) (Some d)).

(** [showUsage]. *)
Definition showUsage : list event :=
  map Stdout
    [ "Usage: rmdir [options] <dir> [dir2 ...]";
      "";
      "Options:";
      "  -h, --help     output usage information";
      "  -v, --version  output the version number";
      "  -f, --force    enable recursive deletion of non-empty directories";
      "  -b, --brutal   kill running processes in directory before deletion";
      "  -y, --yes      skip confirmation prompts (non-interactive mode)";
      "";
      "Examples:";
      "  rmdir mydir                    # Delete empty directory";
      "  rmdir --force mydir           # Delete non-empty directory with confirmation";
      "  rmdir --brutal mydir          # Kill processes and delete directory with confirmation";
      "  rmdir --force --yes mydir     # Delete non-empty directory without confirmation";
      "  rmdir --force dir1 dir2 dir3  # Delete multiple directories" ].

(** [showVersion]; the version string comes from [package.json]. *)
Definition showVersion (version : string) : list event :=
  [Stdout ("rmdir-cli version: " ++ version)].

(** *** Confirmation *)

Definition question_text (o : options) : string :=
  if brutal o then
    "Are you sure you want to delete this directory and kill running processes? [y/N]: "
  else "Are you sure you want to delete this directory? [y/N]: ".

(** The executor of the promise of [confirmDeletion], up to [rl.question]. *)
Definition prompt (dirpath : string) (o : options) (fs : Inspector.filesystem)
  : list event :=
  let sizeInfo := Inspector.getDirectorySize dirpath fs in
  [GetDirectorySize dirpath]
  ++ repeat (Stdout "Error:") (Inspector.caught sizeInfo)
  ++ [Stdout ("About to delete: " ++ dirpath);
      Stdout ("Directory contains: " ++ Show.of_N (Inspector.files sizeInfo)
              ++ " files, " ++ Show.megabytes (Inspector.size sizeInfo) ++ " MB")]
  ++ (if brutal o then
        [Stdout "Brutal mode enabled: Running processes will be killed"]
      else [])
  ++ [Stdout ""; Question dirpath (question_text o)].

(** [answer.toLowerCase() === "y" || answer.toLowerCase() === "yes"]. *)
Definition affirmative (line : string) : bool :=
  (Js.toLowerCase line =? "y") || (Js.toLowerCase line =? "yes").

(** The callback of [rl.question]: the value the promise resolves with and
    what it prints. *)
Definition answered (line : string) : bool * list event :=
  let confirmed := affirmative line in
  (confirmed, if confirmed then [] else [Stdout "Operation cancelled."]).

(** [confirmDeletion] as a whole, given the line that will be typed: what is
    computed and shown, and the value of the promise. *)
Definition confirmDeletion (dirpath : string) (o : options)
    (fs : Inspector.filesystem) (line : string) : list event * bool :=
  if yes o then ([], true)
  else ((prompt dirpath o fs ++ snd (answered line))%list, fst (answered line)).

(** The same inside the run: the promise [Confirm] of target [i] is either
    already fulfilled, or waits for the line. *)
Definition start_confirmDeletion (i : nat) (dirpath : string) (o : options)
    (st : state) : state :=
  if yes o then store (Of i Confirm) (Fulfilled (VBool true)) st
  else set_questions (questions st ++ [i]) (emit (prompt dirpath o (fs st)) st).

Definition on_answer (env : environment) (i : nat) (st : state) : state :=
  let '(confirmed, shown) := answered (answer env i) in
  resolve (Of i Confirm) (VBool confirmed) (emit shown st).

(** *** The callbacks *)

(** What a call of a callback gives back. *)
Inductive completion : Type :=
| Return (v : value)
| Throw (v : value).

(** [Boolean(v)], and [!v] negated. *)
Definition truthy (v : value) : bool :=
  match v with
  | VUndefined => false
  | VBool b => b
  | _ => true
  end.

(** [err.message]. *)
Definition message_of (v : value) : string :=
  match v with
  | VError message => message
  | _ => "undefined"
  end.

Definition dir_of (o : options) (i : nat) : string := nth i (directories o) "".

(** The commands [getProcessesUsingDirectory] runs, in order. *)
Definition scan_commands (s : Scanner.system) (dirpath : string)
  : list Scanner.command :=
  match Scanner.os_platform s with
  | Scanner.Win32 =>
      match Scanner.execSync s (Scanner.HandleExe dirpath) with
      | Scanner.Stdout _ => [Scanner.HandleExe dirpath]
      | Scanner.ExecError _ => [Scanner.HandleExe dirpath; Scanner.Tasklist dirpath]
      end
  | Scanner.Posix => [Scanner.Lsof dirpath]
  end.

(** [rmdir(dirpath)] inside its [try]: the file system afterwards, or the
    message of the exception.

    Modelled from the spec: [rmdir] is the function exported by [../index],
    which is not part of the sources at hand.  It deletes the directory and
    every descendant unconditionally, and a failure surfaces as an error
    carrying the underlying message. *)
Definition rmdir (env : environment) (dirpath : string)
    (files : Inspector.filesystem) : Inspector.filesystem + string :=
  match rmdir_error env dirpath with
  | None => inl (Inspector.remove dirpath files)
  | Some message => inr message
  end.

(** The [try { rmdir(dirpath); ... resolve(true); } catch (err) { ...
    reject(err); }] block, which ends both branches of the executor. *)
Definition delete_directory (env : environment) (i : nat) (dirpath : string)
    (st : state) : state :=
  let st := emit [Rmdir dirpath] st in
  match rmdir env dirpath (fs st) with
  | inl files =>
      resolve (Of i Target) (VBool true)
        (emit [Stdout ("Successfully deleted: " ++ dirpath)] (set_fs files st))
  | inr message =>
      reject (Of i Target) (VError message)
        (emit [Stderr ("Error deleting directory '" ++ dirpath ++ "': " ++ message)] st)
  end.

Definition type_error : completion := Throw (VError "TypeError").

Definition set_nth {A : Type} (i : nat) (x : A) (l : list A) : list A :=
  firstn i l ++ match skipn i l with [] => [] | _ :: rest => x :: rest end.

Definition present (l : list (option value)) : list value :=
  map (fun x => match x with Some v => v | None => VUndefined end) l.

Definition call (env : environment) (o : options) (f : callback) (v : value)
    (st : state) : completion * state :=
  match f with
  | OnConfirmed i =>
      let dirpath := dir_of o i in
      if negb (truthy v) then
        (Return VUndefined, resolve (Of i Target) (VBool false) st)
      else if brutal o then
        let st := emit [Stdout "Checking for running processes in directory..."] st in
        let st := emit (map Exec (scan_commands (sys env) dirpath)) st in
        let st := store (Of i Scan)
                    (Fulfilled (VProcesses
                       (Scanner.getProcessesUsingDirectory (sys env) dirpath))) st in
        let st := then_ (Of i Scan) (OnProcesses i) (Of i Scanned) st in
        let st := catch_ (Of i Scanned) (OnScanError i) (Of i ScanSafe) st in
        (Return (VPromise (Of i ScanSafe)), st)
      else
        (Return (VPromise (Of i Plain)),
         store (Of i Plain) (Fulfilled (VBool true)) st)
  | OnProcesses i =>
      match v with
      | VProcesses processes =>
          if (0 <? List.length processes)%nat then
            let st := emit
              ([Stdout ("Found " ++ Show.of_nat (List.length processes)
                        ++ " running process(es):")]
               ++ map (fun proc => Stdout ("  PID " ++ Show.of_number (Scanner.pid proc)
                                           ++ ": " ++ Scanner.name proc)) processes
               ++ [Stdout "Attempting to kill processes..."]
               ++ map (fun proc => Exec (Scanner.kill_command (sys env) proc)) processes)%list
              st in
            let st := store (Of i Kill)
                        (match Scanner.killProcesses (sys env) processes with
                         | Scanner.KillResolved killed => Fulfilled (VProcesses killed)
                         | Scanner.KillRejected killed failed =>
                             Rejected (VKillResult killed failed)
                         end) st in
            let st := then_ (Of i Kill) (OnKilled i) (Of i Killed) st in
            let st := catch_ (Of i Killed) (OnKillFailed i) (Of i KillSafe) st in
            (Return (VPromise (Of i KillSafe)), st)
          else
            (Return (VBool true),
             emit [Stdout "No running processes found in directory"] st)
      | _ => (type_error, st)
      end
  | OnScanError i =>
      (Return (VBool true),
       emit [Stdout ("Warning: Could not check for running processes: "
                     ++ message_of v)] st)
  | OnKilled i =>
      match v with
      | VProcesses killed =>
          (Return (VBool true),
           emit [Stdout ("Successfully killed " ++ Show.of_nat (List.length killed)
                         ++ " process(es)")] st)
      | _ => (type_error, st)
      end
  | OnKillFailed i =>
      match v with
      | VKillResult killed failed =>
          (Return (VBool true),
           emit
             ([Stdout "Warning: Could not kill all processes"]
              ++ (if (0 <? List.length killed)%nat then
                    [Stdout ("  Successfully killed: "
                             ++ Show.of_nat (List.length killed) ++ " process(es)")]
                  else [])
              ++ (if (0 <? List.length failed)%nat then
                    Stdout ("  Failed to kill: " ++ Show.of_nat (List.length failed)
                            ++ " process(es)")
                    :: map (fun f => Stdout ("    PID "
                                             ++ Show.of_number (Scanner.pid (fst f))
                                             ++ ": " ++ snd f)) failed
                  else []))%list
             st)
      | _ => (type_error, emit [Stdout "Warning: Could not kill all processes"] st)
      end
  | OnDelete i =>
      let dirpath := dir_of o i in
      (Return VUndefined,
       delete_directory env i dirpath
         (emit [Stdout ("Deleting directory: " ++ dirpath)] st))
  | OnChainError i => (Return VUndefined, reject (Of i Target) v st)
  | ResolveElement i =>
      match nth i (values st) None with
      | Some _ => (Return VUndefined, st)
      | None =>
          let st := set_remaining (pred (remaining st))
                      (set_values (set_nth i (Some v) (values st)) st) in
          (Return VUndefined,
           if Nat.eqb (remaining st) 0 then
             resolve All (VArray (present (values st))) st
           else st)
      end
  | RejectAll => (Return VUndefined, reject All v st)
  | OnResults =>
      match v with
      | VArray results =>
          let successCount := List.length (filter truthy results) in
          let totalCount := List.length results in
          if Nat.eqb successCount totalCount then
            (Return VUndefined,
             exit 0 (emit [Stdout (String Scanner.newline
                                     "All directories deleted successfully.")] st))
          else
            (Return VUndefined,
             exit 1 (emit [Stdout (String Scanner.newline
                                     (Show.of_nat successCount ++ " out of "
                                      ++ Show.of_nat totalCount
                                      ++ " directories deleted successfully."))] st))
      | _ => (type_error, st)
      end
  | OnFailure =>
      (Return VUndefined,
       exit 1 (emit [Stderr ("Operation failed: " ++ message_of v)] st))
  | ResolveWith p => (Return VUndefined, resolve p v st)
  | RejectWith p => (Return VUndefined, reject p v st)
  end.

(** *** The chain of one target *)

(** The executor of the promise [rmdirWithConfirmation] returns; it runs
    while the promise is created. *)
Definition rmdirWithConfirmation (env : environment) (o : options) (i : nat)
    (dirpath : string) (st : state) : state :=
  let st := emit [CheckDirectory dirpath] st in
  let '(ok, errors) := Inspector.checkDirectory dirpath (fs st) in
  let st := emit (map Stderr errors) st in
  if negb ok then reject (Of i Target) (VError "Directory check failed") st
  else
    let st := emit [IsDirectoryEmpty dirpath] st in
    let isEmpty := Inspector.isDirectoryEmpty dirpath (fs st) in
    let st := match Inspector.readdir (Inspector.stat dirpath (fs st)) with
              | Some _ => st
              | None => emit [Stdout "Error:"] st
              end in
    if negb isEmpty && negb (force o) && negb (brutal o) then
      reject (Of i Target) (VError "Directory not empty")
        (emit [Stderr ("Error: Directory '" ++ dirpath ++ "' is not empty.");
               Stderr "Use --force or --brutal to delete non-empty directories."] st)
    else if negb isEmpty then
      let st := start_confirmDeletion i dirpath o st in
      let st := then_ (Of i Confirm) (OnConfirmed i) (Of i Confirmed) st in
      let st := then_ (Of i Confirmed) (OnDelete i) (Of i Deleted) st in
      catch_ (Of i Deleted) (OnChainError i) (Of i Guarded) st
    else delete_directory env i dirpath st.

(** [options.directories.map(function (dirpath) {...})]: the executors run
    one after the other, from index [i] on. *)
Fixpoint map_targets (env : environment) (o : options) (i : nat)
    (dirs : list string) (st : state) : state :=
  match dirs with
  | [] => st
  | dirpath :: rest =>
      map_targets env o (S i) rest (rmdirWithConfirmation env o i dirpath st)
  end.

(** [Promise.all(promises)]: a [then] on every promise, in order. *)
Fixpoint watch_targets (i : nat) (count : nat) (st : state) : state :=
  match count with
  | O => st
  | S rest =>
      watch_targets (S i) rest
        (register (Of i Target)
           (mkReaction (Some (ResolveElement i)) (Some RejectAll) None) st)
  end.

Definition promise_all (count : nat) (st : state) : state :=
  let st := set_remaining count (set_values (repeat None count) st) in
  let st := watch_targets 0 count st in
  if Nat.eqb count 0 then resolve All (VArray []) st else st.

(** *** The event loop *)

(** One promise job. *)
Definition run_job (env : environment) (o : options) (j : job) (st : state)
  : state :=
  match j with
  | Thenable p thenable =>
      register thenable
        (mkReaction (Some (ResolveWith p)) (Some (RejectWith p)) None) st
  | Reaction None target is_rejected v =>
      match target with
      | Some p => if is_rejected then reject p v st else fulfill p v st
      | None => st
      end
  | Reaction (Some f) target _ v =>
      let '(result, st) := call env o f v st in
      match exited st, target with
      | None, Some p =>
          match result with
          | Return r => resolve p r st
          | Throw e => reject p e st
          end
      | _, _ => st
      end
  end.

(** One turn: the oldest job; with no job left, the next line of input. *)
Definition turn (env : environment) (o : options) (st : state) : option state :=
  match exited st with
  | Some _ => None
  | None =>
      match queue st with
      | j :: rest => Some (run_job env o j (set_queue rest st))
      | [] =>
          match questions st with
          | i :: rest => Some (on_answer env i (set_questions rest st))
          | [] => None
          end
      end
  end.

Fixpoint run (env : environment) (o : options) (fuel : nat) (st : state)
  : state :=
  match fuel with
  | O => st
  | S fuel' =>
      match turn env o st with
      | Some st' => run env o fuel' st'
      | None => st
      end
  end.

(** *** Main execution *)

Definition initial_state (files : Inspector.filesystem) : state :=
  mkState files (fun _ => Pending []) [] [] [] 0 [] None.

(** The last branch of the main execution: the promises of all targets,
    [Promise.all] and its two callbacks, up to the end of the synchronous
    part. *)
Definition process_targets (env : environment) (o : options)
    (files : Inspector.filesystem) : state :=
  let st := map_targets env o 0 (directories o) (initial_state files) in
  let st := promise_all (List.length (directories o)) st in
  let st := then_ All OnResults Results st in
  catch_ Results OnFailure Failure st.

(** The script up to the end of its synchronous part. *)
Definition start (env : environment) (version : string) (args : list string)
    (files : Inspector.filesystem) : options * state :=
  let st := initial_state files in
  match parseArgs args with
  | UnknownOption arg =>
      (Args.initial,
       exit 1 (emit (Stderr ("Unknown option: " ++ arg) :: showUsage) st))
  | Parsed o =>
      if help o then (o, exit 0 (emit showUsage st))
      else if Args.version o then (o, exit 0 (emit (showVersion version) st))
      else if Nat.eqb (List.length (directories o)) 0 then
        (o, exit 1 (emit (Stderr "Error: No directory specified" :: showUsage) st))
      else (o, process_targets env o files)
  end.

(** The whole run, for a number of turns of the event loop. *)
Definition main (env : environment) (version : string) (fuel : nat)
    (args : list string) (files : Inspector.filesystem) : state :=
  let '(o, st) := start env version args files in
  run env o fuel st.

End Cli.

(** * Vocabulary of the properties *)

Module ArgsSpec.

Import Args.


(** What a flag token does to the options. *)
Definition apply_flag (f : string) (o : options) : options :=
  match step o f with
  | Parsed o' => o'
  | UnknownOption _ => o
  end.

End ArgsSpec.

Module ConfirmSpec.

Import Promise.

Definition is_question (e : event) : bool :=
  match e with
  | Question _ _ => true
  | _ => false
  end.

(** The answers that count as consent. *)
Definition consents : list string :=
  ["y"; "Y"; "yes"; "yeS"; "yEs"; "yES"; "Yes"; "YeS"; "YEs"; "YES"].

End ConfirmSpec.

Module InspectorSpec.

Import Inspector.
Local Open Scope list_scope.

(** Induction on a tree, with the hypothesis for every listed entry. *)
Section NodeInduction.
Variable P : node -> Prop.
Hypothesis on_file : forall sz, P (File sz).
Hypothesis on_nostat : forall code message, P (NoStat code message).
Hypothesis on_unreadable : P (Dir None).
Hypothesis on_dir :
    forall entries, Forall (fun e => P (snd e)) entries -> P (Dir (Some entries)).

Fixpoint node_induction (n : node) : P n :=
    match n with
    | File sz => on_file sz
    | NoStat code message => on_nostat code message
    | Dir None => on_unreadable
    | Dir (Some entries) =>
        on_dir entries
          ((fix each (es : list (string * node)) : Forall (fun e => P (snd e)) es :=
              match es with
              | [] => Forall_nil _
              | e :: rest =>
                  Forall_cons e
                    (match e return P (snd e) with (_, child) => node_induction child end)
                    (each rest)
              end) entries)
    end.
End NodeInduction.

Definition total (sizes : list N) : N := fold_right N.add 0%N sizes.

(** The sizes of the entries the walk of [n] counts, in the order in which
    it counts them: the walk of a directory stops at the first entry whose
    [statSync] throws. *)
Fixpoint counted (n : node) : list N :=
  match n with
  | Dir (Some entries) =>
      (fix each (es : list (string * node)) : list N :=
         match es with
         | [] => []
         | (_, child) :: rest =>
             match child with
             | NoStat _ _ => []
             | Dir _ => counted child ++ each rest
             | File sz => sz :: each rest
             end
         end) entries
  | _ => []
  end.

(** The sizes of all files below [n] that are not below a directory whose
    listing cannot be read: what the walk is said to accumulate. *)
Fixpoint regular_files (n : node) : list N :=
  match n with
  | Dir (Some entries) =>
      (fix each (es : list (string * node)) : list N :=
         match es with
         | [] => []
         | (_, child) :: rest =>
             match child with
             | NoStat _ _ => each rest
             | Dir _ => regular_files child ++ each rest
             | File sz => sz :: each rest
             end
         end) entries
  | _ => []
  end.

(** No entry below [n] has a [statSync] that throws. *)
Fixpoint stat_succeeds (n : node) : bool :=
  match n with
  | Dir (Some entries) =>
      (fix each (es : list (string * node)) : bool :=
         match es with
         | [] => true
         | (_, child) :: rest =>
             match child with
             | NoStat _ _ => false
             | Dir _ => stat_succeeds child && each rest
             | File _ => each rest
             end
         end) entries
  | _ => true
  end.

End InspectorSpec.

Module ScannerSpec.

Import Scanner.

(** A field of the CSV output of [tasklist], between its quotes. *)
Definition quoted (s : string) : string := String quote (s ++ String quote "").

(** A line of [tasklist /V /FO CSV] for a process whose image name has a
    comma in it. *)
Definition comma_line : string :=
  quoted "my,app.exe" ++ "," ++ quoted "4312" ++ "," ++ quoted "Console".

(** A Windows system on which [handle.exe] runs out of time and [tasklist]
    prints that line. *)
Definition comma_system : system :=
  mkSystem Win32
    (fun c =>
       match c with
       | Tasklist _ => Stdout comma_line
       | _ => ExecError "spawnSync cmd.exe ETIMEDOUT"
       end).

(** Whether the kill command of a process succeeds. *)
Definition kill_succeeds (s : system) (proc : process) : bool :=
  match execSync s (kill_command s proc) with
  | Stdout _ => true
  | ExecError _ => false
  end.

(** The two arrays the promise of [killProcesses] carries; a promise that
    resolves carries no [failed] array. *)
Definition killed_of (k : kill_outcome) : list process :=
  match k with
  | KillResolved killed => killed
  | KillRejected killed _ => killed
  end.

Definition failed_of (k : kill_outcome) : list process :=
  match k with
  | KillResolved _ => []
  | KillRejected _ failed => map fst failed
  end.

Definition is_rejected (k : kill_outcome) : bool :=
  match k with
  | KillResolved _ => false
  | KillRejected _ _ => true
  end.

(** A POSIX system on which no process can be killed. *)
Definition stubborn_system : system :=
  mkSystem Posix (fun _ => ExecError "Command failed: kill -9").

End ScannerSpec.

Module TraceSpec.

Import Promise.

(** The calls that inspect a target: [checkDirectory] and
    [isDirectoryEmpty]. *)
Definition is_inspection (e : event) : bool :=
  match e with
  | CheckDirectory _ => true
  | IsDirectoryEmpty _ => true
  | _ => false
  end.

Definition is_check (e : event) : bool :=
  match e with
  | CheckDirectory _ => true
  | _ => false
  end.

(** The calls of [rmdir]. *)
Definition is_rmdir (e : event) : bool :=
  match e with
  | Rmdir _ => true
  | _ => false
  end.

(** The two lines [function (results)] can print: they start with a line
    feed, which no other line of the script does. *)
(** What a callback can write or call. *)
Definition is_late (e : event) : bool :=
  match e with
  | Stdout _ | Stderr _ | Exec _ | Rmdir _ | Exit _ => true
  | _ => false
  end.

Definition is_summary (e : event) : bool :=
  match e with
  | Stdout (String c _) => Ascii.eqb c Scanner.newline
  | _ => false
  end.

End TraceSpec.


(** ** The promises of the script and who settles whom *)

Module Graph.

Import Promise Cli.

(** The reaction a thenable job registers: the resolving functions of [p]. *)
Definition adopt (p : name) : reaction :=
  mkReaction (Some (ResolveWith p)) (Some (RejectWith p)) None.

(** The reaction [Promise.all] registers on the promise of target [i]. *)
Definition watch (i : nat) : reaction :=
  mkReaction (Some (ResolveElement i)) (Some RejectAll) None.

Definition on_then (f : callback) (d : name) : reaction :=
  mkReaction (Some f) None (Some d).
Definition on_catch (f : callback) (d : name) : reaction :=
  mkReaction None (Some f) (Some d).

(** The one reaction the script ever registers on each promise. *)
Definition reaction_for (p : name) : option reaction :=
  match p with
  | Of i Target => Some (watch i)
  | Of i Confirm => Some (on_then (OnConfirmed i) (Of i Confirmed))
  | Of i Confirmed => Some (on_then (OnDelete i) (Of i Deleted))
  | Of i Deleted => Some (on_catch (OnChainError i) (Of i Guarded))
  | Of i Guarded => None
  | Of i Scan => Some (on_then (OnProcesses i) (Of i Scanned))
  | Of i Scanned => Some (on_catch (OnScanError i) (Of i ScanSafe))
  | Of i ScanSafe => Some (adopt (Of i Confirmed))
  | Of i Kill => Some (on_then (OnKilled i) (Of i Killed))
  | Of i Killed => Some (on_catch (OnKillFailed i) (Of i KillSafe))
  | Of i KillSafe => Some (adopt (Of i Scanned))
  | Of i Plain => Some (adopt (Of i Confirmed))
  | All => Some (on_then OnResults Results)
  | Results => Some (on_catch OnFailure Failure)
  | Failure => None
  end.

(** The promises of a run with [n] targets. *)
Definition in_range (n : nat) (p : name) : Prop :=
  match p with
  | Of i _ => i < n
  | _ => True
  end.

Definition not_promise (v : value) : Prop :=
  match v with
  | VPromise _ => False
  | _ => True
  end.

Definition valid_reaction (n : nat) (p : name) (r : reaction) : Prop :=
  in_range n p /\ reaction_for p = Some r.

(** A job of the queue comes from one of these reactions. *)
Definition valid_job (n : nat) (j : job) : Prop :=
  match j with
  | Thenable d q => valid_reaction n q (adopt d)
  | Reaction h t rej v =>
      not_promise v
      /\ exists p r, valid_reaction n p r /\ Reaction h t rej v = job_of rej v r
  end.

(** The shape of a state of the run: jobs and reactions are those of the
    script, and no promise is settled with a promise. *)
Record shaped (n : nat) (st : state) : Prop := mkShaped {
  jobs_valid : Forall (valid_job n) (queue st);
  reactions_valid :
    forall p rs, promises st p = Pending rs -> Forall (valid_reaction n p) rs;
  settled_plain :
    forall p v,
      promises st p = Fulfilled v \/ promises st p = Rejected v -> not_promise v
}.

End Graph.

Module Handlers.

Import Promise Cli Graph.

(** The promise a callback's result goes to. *)
Definition target_of (f : callback) : option name :=
  match f with
  | OnConfirmed i => Some (Of i Confirmed)
  | OnDelete i => Some (Of i Deleted)
  | OnChainError i => Some (Of i Guarded)
  | OnProcesses i => Some (Of i Scanned)
  | OnScanError i => Some (Of i ScanSafe)
  | OnKilled i => Some (Of i Killed)
  | OnKillFailed i => Some (Of i KillSafe)
  | ResolveElement _ => None
  | RejectAll => None
  | OnResults => Some Results
  | OnFailure => Some Failure
  | ResolveWith _ => None
  | RejectWith _ => None
  end.

(** The promises that follow another one. *)
Definition follows (p : name) : Prop :=
  exists i, p = Of i Confirmed \/ p = Of i Scanned.

Definition callback_in_range (n : nat) (f : callback) : Prop :=
  match f with
  | OnConfirmed i | OnDelete i | OnChainError i | OnProcesses i
  | OnScanError i | OnKilled i | OnKillFailed i | ResolveElement i => i < n
  | ResolveWith p | RejectWith p => in_range n p /\ follows p
  | RejectAll | OnResults | OnFailure => True
  end.

(** The targets of the jobs that only pass a settlement on. *)
Definition passes_to (rej : bool) (p : name) : Prop :=
  if rej then
    (exists i, p = Of i Confirmed \/ p = Of i Deleted \/ p = Of i Scanned
               \/ p = Of i Killed) \/ p = Results
  else
    (exists i, p = Of i Guarded \/ p = Of i ScanSafe \/ p = Of i KillSafe)
    \/ p = Failure.

End Handlers.

(** ** What the aggregation knows of the targets *)

Module Tally.

Import Promise Cli Graph.

(** The number of elements [Promise.all] still waits for. *)
Definition holes (l : list (option value)) : nat :=
  List.length (filter (fun x => match x with None => true | Some _ => false end) l).

(** Target [i] reached [Succeeded]: its promise is fulfilled with [true]. *)
Definition succeeded (st : state) (i : nat) : Prop :=
  promises st (Of i Target) = Fulfilled (VBool true).

(** Some target was rejected with [e]. *)
Definition rejected_some (n : nat) (st : state) (e : value) : Prop :=
  exists i, i < n /\ promises st (Of i Target) = Rejected e.

(** What a job of the aggregation carries is what the promise it comes
    from was settled with. *)
Definition job_tie (n : nat) (st : state) (j : job) : Prop :=
  match j with
  | Reaction (Some (ResolveElement i)) _ _ v =>
      promises st (Of i Target) = Fulfilled v
  | Reaction (Some RejectAll) _ _ e => rejected_some n st e
  | Reaction (Some OnResults) _ _ v => promises st All = Fulfilled v
  | Reaction (Some OnFailure) _ _ e => rejected_some n st e
  | Reaction None (Some Results) _ e => rejected_some n st e
  | _ => True
  end.

(** The exit status against the targets: [0] when all succeeded, [1] when
    one was declined or rejected. *)
Definition verdict (n : nat) (st : state) (c : nat) : Prop :=
  (c = 0 /\ forall i, i < n -> succeeded st i)
  \/ (c = 1 /\ exists i, i < n
              /\ (promises st (Of i Target) = Fulfilled (VBool false)
                  \/ exists e, promises st (Of i Target) = Rejected e)).

Record tied (n : nat) (st : state) : Prop := mkTied {
  values_length : List.length (values st) = n;
  remaining_holes : remaining st = holes (values st);
  target_boolean :
    forall i v, promises st (Of i Target) = Fulfilled v -> exists b, v = VBool b;
  jobs_tied : Forall (job_tie n st) (queue st);
  values_tied :
    forall i v, nth i (values st) None = Some v ->
                promises st (Of i Target) = Fulfilled v;
  all_fulfilled :
    forall v, promises st All = Fulfilled v ->
              v = VArray (present (values st)) /\ holes (values st) = 0;
  all_rejected :
    forall e, promises st All = Rejected e -> rejected_some n st e;
  results_rejected :
    forall e, promises st Results = Rejected e -> rejected_some n st e;
  exit_verdict : forall c, exited st = Some c -> verdict n st c
}.

(** The promises the aggregation reads. *)
Definition major (p : name) : bool :=
  match p with
  | Of _ Target | All | Results => true
  | _ => false
  end.

(** The first step of [Promise.all]: a fresh values array and its count. *)
Definition preset (n : nat) (st : state) : state :=
  set_remaining n (set_values (repeat None n) st).

End Tally.

(** ** A bound on the number of turns *)

Module Fuel.

Import Promise Cli Graph.

(** What a callback can add to the queue and to the reactions. *)
Definition callback_cost (f : callback) : nat :=
  match f with
  | OnConfirmed _ => 8
  | OnProcesses _ => 4
  | _ => 0
  end.

Definition handler_weight (h : option callback) : nat :=
  match h with
  | None => 1
  | Some f => 1 + callback_cost f
  end.

Definition job_weight (j : job) : nat :=
  match j with
  | Thenable _ _ => 2
  | Reaction h _ _ _ => handler_weight h
  end.

Definition reaction_weight (r : reaction) : nat :=
  Nat.max (handler_weight (on_fulfilled r)) (handler_weight (on_rejected r)).

Definition pending_weight (c : pstate) : nat :=
  match c with
  | Pending rs => list_sum (map reaction_weight rs)
  | _ => 0
  end.

Definition slots : list slot :=
  [Target; Confirm; Confirmed; Deleted; Guarded; Scan; Scanned; ScanSafe;
   Kill; Killed; KillSafe; Plain].

(** The promises of a run with [n] targets. *)
Definition names (n : nat) : list name :=
  flat_map (fun i => map (Of i) slots) (seq 0 n) ++ [All; Results; Failure].

(** The turns a state can still take are bounded by the weight of its jobs,
    of the reactions that wait in pending promises, and of the questions. *)
Definition potential (n : nat) (st : state) : nat :=
  list_sum (map job_weight (queue st))
  + list_sum (map (fun p => pending_weight (promises st p)) (names n))
  + List.length (questions st).

End Fuel.

(** * Vocabulary of the further properties *)

From Stdlib Require Import Btauto.

(** ** The meaning of the command line *)

Module ArgsMeaning.

Import Args.

(** One of the spellings of a flag is among the arguments. *)
Definition has_any (spellings : list string) (args : list string) : bool :=
  existsb (fun a => existsb (String.eqb a) spellings) args.

(** An argument that starts with a dash and is no flag. *)
Definition is_unknown (a : string) : bool := negb (is_flag a) && String.prefix "-" a.

(** The options of a command line without unknown option. *)
Definition parsed_options (args : list string) : options :=
  mkOptions (has_any ["--force"; "-f"] args) (has_any ["--yes"; "-y"] args)
            (has_any ["--brutal"; "-b"] args) (has_any ["--help"; "-h"] args)
            (has_any ["--version"; "-v"] args)
            (filter (fun a => negb (is_flag a)) args).

(** The same on top of options that were read before. *)
Definition merge (o : options) (args : list string) : options :=
  mkOptions (force o || has_any ["--force"; "-f"] args)
            (yes o || has_any ["--yes"; "-y"] args)
            (brutal o || has_any ["--brutal"; "-b"] args)
            (help o || has_any ["--help"; "-h"] args)
            (version o || has_any ["--version"; "-v"] args)
            (directories o ++ filter (fun a => negb (is_flag a)) args)%list.

End ArgsMeaning.

(** ** Process ids *)

Module PidSpec.

Import Scanner.

(** A string of decimal digits. *)
Definition all_digits (s : string) : bool :=
  forallb Js.is_digit (list_ascii_of_string s).

(** The process id is a number, not [NaN]. *)
Definition numbered (p : process) : Prop := exists z, pid p = Some z.

(** A POSIX system on which [lsof] prints the same process twice. *)
Definition lsof_system : system :=
  mkSystem Posix
    (fun c =>
       match c with
       | Lsof _ =>
           Stdout ("node 4312 root cwd DIR" ++ String newline "node 4312 root txt REG")
       | _ => ExecError "Command failed"
       end).

End PidSpec.

(** ** The executor of a target and the run as a whole *)

Module ExecutorSpec.

Import Promise Cli TraceSpec.

(** [st'] is [st] with a longer trace. *)
Definition logged (st st' : state) : Prop :=
  fs st' = fs st /\ promises st' = promises st /\ queue st' = queue st
  /\ questions st' = questions st /\ values st' = values st
  /\ remaining st' = remaining st /\ exited st' = exited st.

(** The three ways the executor of [rmdirWithConfirmation] ends. *)
Inductive executor_end (env : environment) (o : options) (i : nat)
    (dirpath : string) (st : state) : state -> Prop :=
| EndRejected (st' : state) (message : string) :
    logged st st' ->
    executor_end env o i dirpath st (reject (Of i Target) (VError message) st')
| EndDeleted (st' : state) :
    logged st st' ->
    executor_end env o i dirpath st (delete_directory env i dirpath st')
| EndChained (st' : state) :
    logged st st' ->
    executor_end env o i dirpath st
      (catch_ (Of i Deleted) (OnChainError i) (Of i Guarded)
         (then_ (Of i Confirmed) (OnDelete i) (Of i Deleted)
            (then_ (Of i Confirm) (OnConfirmed i) (Of i Confirmed)
               (start_confirmDeletion i dirpath o st')))).

(** An event that is no call of [checkDirectory]. *)
Definition quiet (e : event) : Prop := is_check e = false.

(** The line that follows the call of [rmdir]. *)
Definition removal_line (env : environment) (dirpath : string) : event :=
  match rmdir_error env dirpath with
  | None => Stdout ("Successfully deleted: " ++ dirpath)
  | Some message =>
      Stderr ("Error deleting directory '" ++ dirpath ++ "': " ++ message)
  end.

(** The two lines that refuse a directory with entries. *)
Definition refusal (dirpath : string) : list event :=
  [Stderr ("Error: Directory '" ++ dirpath ++ "' is not empty.");
   Stderr "Use --force or --brutal to delete non-empty directories."].

(** The settled state of the promise of target [i] after [rmdir]. *)
Definition removal_state (env : environment) (dirpath : string) : pstate :=
  match rmdir_error env dirpath with
  | None => Fulfilled (VBool true)
  | Some message => Rejected (VError message)
  end.

(** The file system after [rmdir]. *)
Definition removal_fs (env : environment) (dirpath : string)
    (files : Inspector.filesystem) : Inspector.filesystem :=
  match rmdir_error env dirpath with
  | None => Inspector.remove dirpath files
  | Some _ => files
  end.

(** What an executor that settles its promise at once leaves behind: the
    events, the file system and the state of the promise of target [i];
    nothing is queued or asked, and no other promise is touched. *)
Definition ends_with (i : nat) (st st' : state) (events : list event)
    (files : Inspector.filesystem) (outcome : pstate) : Prop :=
  trace st' = (trace st ++ events)%list
  /\ fs st' = files
  /\ questions st' = questions st
  /\ (forall p, p <> Of i Target -> promises st' p = promises st p)
  /\ (promises st (Of i Target) = Pending nil ->
      queue st' = queue st /\ promises st' (Of i Target) = outcome).

(** What [isDirectoryEmpty] prints for a listing. *)
Definition listing_error (listing : option (list (string * Inspector.node)))
  : list event :=
  match listing with
  | Some _ => nil
  | None => [Stdout "Error:"]
  end.

(** A line on one of the two streams. *)
Definition is_print (e : event) : bool :=
  match e with
  | Stdout _ | Stderr _ => true
  | _ => false
  end.

(** The exit status of a command line that does not reach the targets. *)
Definition early_status (args : list string) : option nat :=
  match find ArgsMeaning.is_unknown args with
  | Some _ => Some 1
  | None =>
      if ArgsMeaning.has_any ["--help"; "-h"] args then Some 0
      else if ArgsMeaning.has_any ["--version"; "-v"] args then Some 0
      else if existsb (fun a => negb (is_flag a)) args then None
      else Some 1
  end.

(** A machine without processes to scan, on which [rmdir] succeeds and every
    question is answered with [line]. *)
Definition plain_environment (line : string) : environment :=
  mkEnvironment (Scanner.mkSystem Scanner.Posix (fun _ => Scanner.ExecError "Command failed"))
    (fun _ => None) (fun _ => line).

End ExecutorSpec.

(** ** What keeps a run going *)

Module Liveness.

Import Promise Cli Graph.

(** The order in which the promises of a target are settled: a promise
    waits only for promises of a lower rank. *)
Definition rank (p : name) : nat :=
  match p with
  | Of _ Confirm | Of _ Scan | Of _ Kill | Of _ Plain => 0
  | Of _ Killed => 1
  | Of _ KillSafe => 2
  | Of _ Scanned => 3
  | Of _ ScanSafe => 4
  | Of _ Confirmed => 5
  | Of _ Deleted => 6
  | Of _ Guarded => 7
  | Of _ Target => 8
  | All => 9
  | Results => 10
  | Failure => 11
  end.

(** The promises behind the promise of a target. *)
Definition minor (p : name) : Prop := rank p <= 7.

(** The promise a job settles, or makes follow another one. *)
Definition job_dest (j : job) : option name :=
  match j with
  | Thenable d _ => Some d
  | Reaction (Some (ResolveWith d)) _ _ _ => Some d
  | Reaction (Some (RejectWith d)) _ _ _ => Some d
  | Reaction _ t _ _ => t
  end.

Definition handler (j : job) : option callback :=
  match j with
  | Reaction h _ _ _ => h
  | Thenable _ _ => None
  end.

Definition is_thenable (j : job) : bool :=
  match j with
  | Thenable _ _ => true
  | Reaction _ _ _ _ => false
  end.

(** The jobs of a reaction settle [p]. *)
Definition leads (r : reaction) (p : name) : Prop :=
  forall rej v, job_dest (job_of rej v r) = Some p.

(** The promises that are settled when they are created. *)
Definition born_settled (p : name) : Prop :=
  match p with
  | Of _ Scan | Of _ Kill | Of _ Plain => True
  | _ => False
  end.

Definition pending (st : state) (p : name) : Prop :=
  exists rs, promises st p = Pending rs.

Definition has_reaction (st : state) (p : name) (r : reaction) : Prop :=
  exists rs, promises st p = Pending rs /\ In r rs.

(** Something will settle [p]: a job, a pending promise of lower rank with a
    reaction for it, or the answer to a question. *)
Definition sourced (vq : list job) (st : state) (p : name) : Prop :=
  (exists j, In j vq /\ job_dest j = Some p)
  \/ (exists q r, rank q < rank p /\ has_reaction st q r /\ leads r p)
  \/ (exists i, p = Of i Confirm /\ In i (questions st)).

(** Something waits for [p]: a reaction, or a job that will register one. *)
Definition awaited (vq : list job) (st : state) (p : name) : Prop :=
  (exists r, has_reaction st p r) \/ (exists d, In (Thenable d p) vq).

(** The promise of target [i] will be rejected if the chain behind it
    fails. *)
Definition chain_alive (vq : list job) (st : state) (i : nat) : Prop :=
  (exists j, In j vq /\ handler j = Some (OnChainError i))
  \/ has_reaction st (Of i Deleted) (on_catch (OnChainError i) (Of i Guarded)).

(** The element [i] of [Promise.all] will be filled, or the whole
    rejected. *)
Definition watched (vq : list job) (st : state) (i : nat) : Prop :=
  has_reaction st (Of i Target) (watch i)
  \/ (exists j, In j vq
                /\ (handler j = Some (ResolveElement i) \/ handler j = Some RejectAll)).

(** One of the two callbacks of the main execution will run. *)
Definition exit_coming (vq : list job) (st : state) : Prop :=
  (exists j, In j vq /\ handler j = Some OnFailure)
  \/ (has_reaction st Results (on_catch OnFailure Failure)
      /\ (has_reaction st All (on_then OnResults Results)
          \/ exists j, In j vq /\ job_dest j = Some Results)).

(** The invariant of a run that has not exited, over the jobs [vq] that are
    queued or running: every promise that is waited for has something that
    will settle it.  The last three clauses hold from [Promise.all] on
    ([g] is [true]), the second for the [k] targets whose executor ran. *)
Record live (g : bool) (k : nat) (vq : list job) (st : state) : Prop := mkLive {
  minor_sourced :
    forall p, minor p -> pending st p -> awaited vq st p -> sourced vq st p;
  target_alive :
    forall i, i < k -> pending st (Of i Target) -> chain_alive vq st i;
  thenables_born :
    forall d q, In (Thenable d q) vq -> born_settled q -> ~ pending st q;
  born_bare :
    forall q r, born_settled q -> ~ has_reaction st q r;
  holes_watched :
    g = true -> pending st All ->
    forall i, i < List.length (values st) -> nth i (values st) None = None ->
              watched vq st i;
  all_waits : g = true -> pending st All -> remaining st <> 0;
  exit_awaits : g = true -> exited st = None -> exit_coming vq st
}.

(** The promises of the targets from [k] on are untouched. *)
Definition fresh_from (k : nat) (st : state) : Prop :=
  forall i s, k <= i -> promises st (Of i s) = Pending [].

(** What holds all along a run. *)
Definition running (n : nat) (st : state) : Prop :=
  shaped n st /\ Tally.tied n st
  /\ (exited st = None -> live true n (queue st) st).

End Liveness.

(** ** Targets that are turned down *)

Module Outcome.

Import Promise Cli.

(** The executor of [rmdirWithConfirmation] rejects the path: the check
    fails, or the directory is not empty and neither [--force] nor
    [--brutal] is given. *)
Definition refused (o : options) (d : string) (files : Inspector.filesystem)
  : Prop :=
  fst (Inspector.checkDirectory d files) = false
  \/ (force o = false /\ brutal o = false
      /\ Inspector.isDirectoryEmpty d files = false).





End Outcome.

(** * The one-directory script *)

Module Simple.

Import Promise.

(** [bin/rmdir-cli.js]: the script reads [process.argv[2]] and nothing else.
    Without an argument, and with an empty one, neither branch does
    anything.  The call of [rmdir] is recorded; what it does is that of
    [Cli.rmdir]. *)
Definition main (version : string) (args : list string) : list event :=
  match args with
  | nil => nil
  | a :: _ =>
      if (a =? "--help") || (a =? "-h") then
        [Stdout "Usage: rmdir <dir>";
         Stdout "rmdir <dir> - Recursively removes a directory.";
         Exit 0]
      else if (a =? "--version") || (a =? "-v") then [Stdout version; Exit 0]
      else if (a =? "") then nil
      else [Rmdir a]
  end.

(** The four spellings the script knows. *)
Definition is_flag (a : string) : bool :=
  (a =? "--help") || (a =? "-h") || (a =? "--version") || (a =? "-v").

End Simple.
(** * Properties *)

Local Open Scope list_scope.

(** ** Argument parser *)

Module ArgsFacts.

Import Args ArgsSpec.


Lemma is_flag_cases (f : string) :
  is_flag f = true ->
  In f ["--help"; "-h"; "--version"; "-v"; "--force"; "-f"; "--brutal"; "-b";
        "--yes"; "-y"].
Proof.
  unfold is_flag. intros H.
  repeat (apply orb_true_iff in H; destruct H as [H | H]);
    apply String.eqb_eq in H; subst f; simpl; tauto.
Qed.

Lemma step_flag (f : string) (o : options) :
  is_flag f = true -> step o f = Parsed (apply_flag f o).
Proof.
  intros H. apply is_flag_cases in H. simpl in H.
  repeat (destruct H as [H | H]; [subst f; reflexivity | ]). contradiction.
Qed.





Lemma apply_flag_directories (f : string) (o : options) :
  is_flag f = true -> directories (apply_flag f o) = directories o.
Proof.
  intros H. apply is_flag_cases in H. simpl in H.
  repeat (destruct H as [H | H]; [subst f; reflexivity | ]). contradiction.
Qed.



End ArgsFacts.



(** ** Confirmation gate *)

Module ConfirmFacts.

Import Promise Cli ConfirmSpec.

Lemma lower_char_y (c : ascii) :
  Js.lower_char c = "y"%char -> c = "y"%char \/ c = "Y"%char.
Proof.
  destruct c as [[] [] [] [] [] [] [] []]; vm_compute; intros E;
    try discriminate E; auto.
Qed.

Lemma lower_char_e (c : ascii) :
  Js.lower_char c = "e"%char -> c = "e"%char \/ c = "E"%char.
Proof.
  destruct c as [[] [] [] [] [] [] [] []]; vm_compute; intros E;
    try discriminate E; auto.
Qed.

Lemma lower_char_s (c : ascii) :
  Js.lower_char c = "s"%char -> c = "s"%char \/ c = "S"%char.
Proof.
  destruct c as [[] [] [] [] [] [] [] []]; vm_compute; intros E;
    try discriminate E; auto.
Qed.

Lemma affirmative_consents (line : string) :
  affirmative line = true <-> In line consents.
Proof.
  split.
  - unfold affirmative. intros H. apply orb_true_iff in H.
    destruct H as [H | H]; apply String.eqb_eq in H.
    + destruct line as [| c [| d rest]]; simpl in H; try discriminate H.
      injection H as H. destruct (lower_char_y c H); subst c; simpl; auto.
    + destruct line as [| c [| d [| e [| g rest]]]]; simpl in H;
        try discriminate H.
      injection H as Hc Hd He.
      destruct (lower_char_y c Hc), (lower_char_e d Hd), (lower_char_s e He);
        subst c d e; simpl; tauto.
  - intros H. simpl in H.
    repeat (destruct H as [H | H]; [subst line; reflexivity | ]). contradiction.
Qed.

Lemma prompt_questions (dirpath : string) (o : options) (files : Inspector.filesystem) :
  filter is_question (prompt dirpath o files) = [Question dirpath (question_text o)].
Proof.
  unfold prompt. rewrite !filter_app. simpl.
  assert (R : forall n, filter is_question (repeat (Stdout "Error:") n) = []).
  { induction n; simpl; auto. }
  rewrite R. destruct (brutal o); reflexivity.
Qed.

Lemma prompt_not_cancelled (dirpath : string) (o : options) (files : Inspector.filesystem) :
  ~ In (Stdout "Operation cancelled.") (prompt dirpath o files).
Proof.
  unfold prompt. rewrite !in_app_iff. simpl.
  intros [H | [H | [H | [H | H]]]].
  - destruct H as [H | []]; discriminate H.
  - apply repeat_spec in H. discriminate H.
  - destruct H as [H | [H | []]]; discriminate H.
  - destruct (brutal o); simpl in H; [destruct H as [H | []]; discriminate H | exact H].
  - destruct H as [H | [H | []]]; discriminate H.
Qed.

Lemma prompt_brutal (dirpath : string) (o : options) (files : Inspector.filesystem) :
  In (Stdout "Brutal mode enabled: Running processes will be killed")
     (prompt dirpath o files) <-> brutal o = true.
Proof.
  unfold prompt. rewrite !in_app_iff. simpl. split.
  - intros [H | [H | [H | [H | H]]]].
    + destruct H as [H | []]; discriminate H.
    + apply repeat_spec in H. discriminate H.
    + destruct H as [H | [H | []]]; discriminate H.
    + destruct (brutal o); [reflexivity | destruct H].
    + destruct H as [H | [H | []]]; discriminate H.
  - intros ->. right. right. right. left. simpl. auto.
Qed.

End ConfirmFacts.

(** Claim C7.  With [yes] set, [confirmDeletion] computes and shows nothing
    and gives [true].  Otherwise it asks exactly one question, gives [true]
    exactly for the answers that are [y] or [yes] up to the case of their
    letters (so not for the empty line), prints the cancellation line
    exactly when the answer is anything else, and announces the killing of
    processes exactly when [brutal] is set. *)
Theorem confirmDeletion_contract (dirpath : string) (o : Args.options)
    (files : Inspector.filesystem) (line : string) :
  let '(shown, confirmed) := Cli.confirmDeletion dirpath o files line in
  if Args.yes o then shown = [] /\ confirmed = true
  else
    filter ConfirmSpec.is_question shown
    = [Promise.Question dirpath (Cli.question_text o)]
    /\ (confirmed = true <-> In line ConfirmSpec.consents)
    /\ (In (Promise.Stdout "Operation cancelled.") shown <-> confirmed = false)
    /\ (In (Promise.Stdout "Brutal mode enabled: Running processes will be killed")
           shown <-> Args.brutal o = true)
    /\ Cli.affirmative "" = false.
Proof.
  unfold Cli.confirmDeletion. destruct (Args.yes o); [split; reflexivity | ].
  unfold Cli.answered. cbn [fst snd].
  split; [ | split; [ | split; [ | split]]].
  - rewrite filter_app, ConfirmFacts.prompt_questions.
    destruct (Cli.affirmative line); reflexivity.
  - destruct (Cli.affirmative line) eqn:A; simpl.
    + split; [intros _; now apply ConfirmFacts.affirmative_consents | reflexivity].
    + split; [discriminate | ].
      intros H. apply ConfirmFacts.affirmative_consents in H. congruence.
  - rewrite in_app_iff. destruct (Cli.affirmative line); simpl.
    + split; [ | discriminate].
      intros [H | []]. now apply ConfirmFacts.prompt_not_cancelled in H.
    + split; [reflexivity | auto].
  - rewrite in_app_iff, <- ConfirmFacts.prompt_brutal.
    split; [ | intros H; left; exact H].
    intros [H | H]; [exact H | ].
    destruct (Cli.affirmative line); simpl in H; [destruct H | ].
    destruct H as [H | []]; discriminate H.
  - reflexivity.
Qed.

(** ** Directory inspector *)

Module InspectorFacts.

Import Inspector InspectorSpec.


Lemma total_app (a b : list N) : total (a ++ b) = (total a + total b)%N.
Proof. induction a as [| x a IH]; simpl; [reflexivity | rewrite IH; lia]. Qed.

Lemma walkDir_counted (n : node) :
  forall r,
    size (walkDir n r) = (size r + total (counted n))%N
    /\ files (walkDir n r) = (files r + N.of_nat (List.length (counted n)))%N.
Proof.
  induction n using node_induction; intros r; simpl;
    try (split; lia).
  revert r. induction H as [| [nm child] rest Hc Hrest IH]; intros r; simpl.
  - split; lia.
  - simpl in Hc. destruct child as [sz | listing | code message].
    + destruct (IH (count_file sz r)) as [A B]. rewrite A, B. simpl. split; lia.
    + destruct (IH (walkDir (Dir listing) r)) as [A B].
      destruct (Hc r) as [C D].
      rewrite A, B, C, D, total_app, length_app. split; lia.
    + simpl. split; lia.
Qed.

Lemma counted_regular (n : node) :
  stat_succeeds n = true -> counted n = regular_files n.
Proof.
  induction n using node_induction; simpl; try reflexivity.
  induction H as [| [nm child] rest Hc Hrest IH]; simpl; intros S; [reflexivity | ].
  simpl in Hc. destruct child as [sz | listing | code message].
  - now rewrite (IH S).
  - apply andb_true_iff in S. destruct S as [S1 S2].
    now rewrite (Hc S1), (IH S2).
  - discriminate S.
Qed.

End InspectorFacts.

(** Claim C9, as stated, fails: an entry whose [statSync] throws ends the
    walk of the directory that lists it, so the file listed after it is not
    counted, although no listing was unreadable. *)
Lemma getDirectorySize_skips_siblings :
  let tree := Inspector.Dir (Some [("gone", Inspector.NoStat "ENOENT" "no such file");
                                   ("kept", Inspector.File 10)]) in
  let files := [("d", tree)] in
  InspectorSpec.regular_files tree = [10%N]
  /\ Inspector.size (Inspector.getDirectorySize "d" files) = 0%N
  /\ Inspector.files (Inspector.getDirectorySize "d" files) = 0%N.
Proof. vm_compute. auto. Qed.

(** Claim C9, amended.  [getDirectorySize] always returns a report: the sum
    of the sizes and the number of the entries its walk counts, where the
    walk of a directory goes through the listing in order, counts every
    entry that is not a directory, descends into every directory, takes
    nothing from a directory whose listing cannot be read, and stops at the
    first entry whose [statSync] throws.  When no [statSync] throws, the
    entries counted are all files not below an unreadable directory.
    [isDirectoryEmpty] is true exactly when the listing can be read and has
    no entry. *)
Theorem getDirectorySize_counts (dirpath : string) (files : Inspector.filesystem) :
  let n := Inspector.stat dirpath files in
  let r := Inspector.getDirectorySize dirpath files in
  Inspector.size r = InspectorSpec.total (InspectorSpec.counted n)
  /\ Inspector.files r = N.of_nat (List.length (InspectorSpec.counted n))
  /\ (InspectorSpec.stat_succeeds n = true ->
      InspectorSpec.counted n = InspectorSpec.regular_files n)
  /\ InspectorSpec.counted (Inspector.Dir None) = []
  /\ (Inspector.isDirectoryEmpty dirpath files = true
      <-> Inspector.readdir n = Some []).
Proof.
  cbv zeta. unfold Inspector.getDirectorySize.
  destruct (InspectorFacts.walkDir_counted (Inspector.stat dirpath files)
              (Inspector.mkReport 0 0 0)) as [A B].
  rewrite A, B. simpl.
  split; [reflexivity | split; [reflexivity | split; [ | split; [reflexivity | ]]]].
  - apply InspectorFacts.counted_regular.
  - unfold Inspector.isDirectoryEmpty.
    destruct (Inspector.readdir (Inspector.stat dirpath files)) as [[| e es] | ];
      simpl; split; intros H; try reflexivity; discriminate H.
Qed.

Lemma getDirectorySize_counts_witness :
  let files := [("d", Inspector.Dir (Some [("a", Inspector.File 7);
                                           ("s", Inspector.Dir None);
                                           ("t", Inspector.Dir (Some [("b", Inspector.File 5)]))]))] in
  Inspector.size (Inspector.getDirectorySize "d" files) = 12%N
  /\ Inspector.files (Inspector.getDirectorySize "d" files) = 2%N
  /\ InspectorSpec.regular_files (Inspector.stat "d" files) = [7%N; 5%N].
Proof.
  cbv zeta.
  destruct (getDirectorySize_counts "d"
              [("d", Inspector.Dir (Some [("a", Inspector.File 7);
                                          ("s", Inspector.Dir None);
                                          ("t", Inspector.Dir (Some [("b", Inspector.File 5)]))]))])
    as [A [B [C _]]].
  rewrite A, B. split; [reflexivity | split; [reflexivity | ]].
  rewrite <- C; reflexivity.
Defined.

(** ** Process scanner and terminator *)

Module ScannerFacts.

Import Scanner.

Lemma pid_eqb_eq (a b : option Z) : pid_eqb a b = true <-> a = b.
Proof.
  destruct a as [x | ], b as [y | ]; simpl; split; intros H;
    try discriminate H; try reflexivity.
  - apply Z.eqb_eq in H. now subst.
  - injection H as ->. apply Z.eqb_refl.
Qed.

Lemma has_In (seen : list (option Z)) (p : option Z) :
  has seen p = true <-> In p seen.
Proof.
  unfold has. rewrite existsb_exists. split.
  - intros [x [I E]]. apply pid_eqb_eq in E. now subst.
  - intros I. exists p. split; [exact I | now apply pid_eqb_eq].
Qed.

(** The loop over [seenPids] keeps the first process of every pid that was
    not seen before. *)
Lemma unique_spec (processes : list process) :
  forall seen,
    NoDup (map pid (unique seen processes))
    /\ (forall p, In p (unique seen processes) ->
          In p processes /\ ~ In (pid p) seen)
    /\ (forall p, In p processes ->
          In (pid p) seen \/ In (pid p) (map pid (unique seen processes))).
Proof.
  induction processes as [| proc rest IH]; intros seen; simpl.
  - split; [constructor | split; [intros p [] | intros p []]].
  - destruct (has seen (pid proc)) eqn:S.
    + destruct (IH seen) as [A [B C]]. apply has_In in S.
      split; [exact A | split].
      * intros p I. destruct (B p I). auto.
      * intros p [-> | I]; [auto | apply C, I].
    + destruct (IH (pid proc :: seen)) as [A [B C]].
      assert (N : ~ In (pid proc) seen).
      { intros I. apply has_In in I. congruence. }
      split; [ | split].
      * simpl. constructor; [ | exact A].
        intros I. apply in_map_iff in I. destruct I as [q [E I]].
        destruct (B q I) as [_ Q]. apply Q. left. now rewrite E.
      * intros p [<- | I]; [auto | ].
        destruct (B p I) as [I1 I2]. split; [auto | ].
        intros I3. apply I2. now right.
      * intros p [-> | I]; [right; simpl; now left | ].
        destruct (C p I) as [[E | I1] | I1]; simpl; auto.
Qed.

(** The scan has one handle per pid, each taken from the parsed lines, and
    every pid of a parsed line is there. *)
Lemma getProcessesUsingDirectory_set (s : system) (dirpath : string) :
  NoDup (map pid (getProcessesUsingDirectory s dirpath))
  /\ (forall p, In p (getProcessesUsingDirectory s dirpath) -> In p (collect s dirpath))
  /\ (forall p, In p (collect s dirpath) ->
        In (pid p) (map pid (getProcessesUsingDirectory s dirpath))).
Proof.
  unfold getProcessesUsingDirectory.
  destruct (unique_spec (collect s dirpath) []) as [A [B C]].
  split; [exact A | split].
  - intros p I. now destruct (B p I).
  - intros p I. destruct (C p I) as [[] | H]. exact H.
Qed.

(** When every command fails, the scan is empty. *)
Lemma getProcessesUsingDirectory_failure (s : system) (dirpath : string) :
  (forall c, exists message, execSync s c = ExecError message) ->
  getProcessesUsingDirectory s dirpath = [].
Proof.
  intros F. unfold getProcessesUsingDirectory, collect.
  destruct (os_platform s).
  - destruct (F (HandleExe dirpath)) as [m1 ->].
    destruct (F (Tasklist dirpath)) as [m2 ->]. reflexivity.
  - destruct (F (Lsof dirpath)) as [m ->]. reflexivity.
Qed.

End ScannerFacts.

(** Claim C8, at the input where the code departs from it.  On the
    [tasklist] path a line whose second field is not a number is kept, as a
    handle with the pid [NaN]; the [lsof] and [handle.exe] paths drop the
    lines they cannot parse. *)
Theorem tasklist_keeps_unparsed_line :
  Scanner.getProcessesUsingDirectory ScannerSpec.comma_system "C:\work"
  = [Scanner.mkProcess None "my"]
  /\ Scanner.lsof_line "COMMAND   PID USER   FD" = []
  /\ Scanner.handle_line "explorer.exe pid: none" = [].
Proof. vm_compute. auto. Qed.

Module KillFacts.

Import Scanner ScannerSpec.

Lemma kill_each_split (s : system) (processes : list process) :
  forall killed failed,
    fst (kill_each s processes killed failed)
    = killed ++ filter (kill_succeeds s) processes
    /\ map fst (snd (kill_each s processes killed failed))
       = map fst failed ++ filter (fun p => negb (kill_succeeds s p)) processes.
Proof.
  induction processes as [| proc rest IH]; intros killed failed; simpl.
  - now rewrite !app_nil_r.
  - assert (K : kill_succeeds s proc
               = match execSync s (kill_command s proc) with
                 | Stdout _ => true
                 | ExecError _ => false
                 end) by reflexivity.
    destruct (execSync s (kill_command s proc)) as [out | message];
      rewrite K; simpl.
    + destruct (IH (killed ++ [proc]) failed) as [A B].
      rewrite A, B, <- app_assoc. auto.
    + destruct (IH killed (failed ++ [(proc, message)])) as [A B].
      rewrite A, B, map_app, <- app_assoc. auto.
Qed.

Lemma filter_partition {A : Type} (f : A -> bool) (l : list A) :
  Permutation l (filter f l ++ filter (fun x => negb (f x)) l).
Proof.
  induction l as [| x l IH]; simpl; [constructor | ].
  destruct (f x); simpl.
  - now constructor.
  - now apply Permutation_cons_app.
Qed.

Lemma killProcesses_split (s : system) (processes : list process) :
  killed_of (killProcesses s processes) = filter (kill_succeeds s) processes
  /\ failed_of (killProcesses s processes)
     = filter (fun p => negb (kill_succeeds s p)) processes
  /\ is_rejected (killProcesses s processes)
     = negb (forallb (kill_succeeds s) processes).
Proof.
  unfold killProcesses.
  destruct (kill_each_split s processes [] []) as [A B]. simpl in A, B.
  destruct (kill_each s processes [] []) as [killed failed]. simpl in A, B.
  assert (F : forallb (kill_succeeds s) processes = true
              <-> filter (fun p => negb (kill_succeeds s p)) processes = []).
  { clear. induction processes as [| p l IH]; simpl; [tauto | ].
    destruct (kill_succeeds s p); simpl; [exact IH | ].
    split; intros H; discriminate H. }
  destruct failed as [| f failed]; simpl in *.
  - split; [exact A | split; [exact B | ]].
    symmetry in B. apply F in B. now rewrite B.
  - split; [exact A | split; [exact B | ]].
    destruct (forallb (kill_succeeds s) processes); [ | reflexivity].
    destruct F as [F _]. rewrite (F eq_refl) in B. discriminate B.
Qed.

End KillFacts.

(** ** The event loop: what each primitive leaves alone *)

Module LoopFacts.

Import Promise Cli.

Lemma fs_emit : forall es st, fs (emit es st) = fs st.
Proof. reflexivity. Qed.

Lemma fs_enqueue : forall js st, fs (enqueue js st) = fs st.
Proof. reflexivity. Qed.

Lemma fs_store : forall p c st, fs (store p c st) = fs st.
Proof. reflexivity. Qed.

Lemma fs_exit : forall c st, fs (exit c st) = fs st.
Proof. reflexivity. Qed.

Lemma fs_fulfill : forall p v st, fs (fulfill p v st) = fs st.
Proof. intros; unfold fulfill; repeat match goal with |- context [match ?x with _ => _ end] => destruct x end; reflexivity. Qed.

Lemma fs_reject : forall p v st, fs (reject p v st) = fs st.
Proof. intros; unfold reject; repeat match goal with |- context [match ?x with _ => _ end] => destruct x end; reflexivity. Qed.

Lemma fs_resolve : forall p v st, fs (resolve p v st) = fs st.
Proof. intros; unfold resolve, fulfill; repeat match goal with |- context [match ?x with _ => _ end] => destruct x end; reflexivity. Qed.

Lemma fs_register : forall p r st, fs (register p r st) = fs st.
Proof. intros; unfold register; repeat match goal with |- context [match ?x with _ => _ end] => destruct x end; reflexivity. Qed.

Lemma fs_then_ : forall p f d st, fs (then_ p f d st) = fs st.
Proof. intros; unfold then_; apply fs_register. Qed.

Lemma fs_catch_ : forall p f d st, fs (catch_ p f d st) = fs st.
Proof. intros; unfold catch_; apply fs_register. Qed.

Lemma fs_set_fs : forall x st, fs (set_fs x st) = x.
Proof. reflexivity. Qed.

Lemma fs_set_promises : forall x st, fs (set_promises x st) = fs st.
Proof. reflexivity. Qed.

Lemma fs_set_queue : forall x st, fs (set_queue x st) = fs st.
Proof. reflexivity. Qed.

Lemma fs_set_questions : forall x st, fs (set_questions x st) = fs st.
Proof. reflexivity. Qed.

Lemma fs_set_values : forall x st, fs (set_values x st) = fs st.
Proof. reflexivity. Qed.

Lemma fs_set_remaining : forall x st, fs (set_remaining x st) = fs st.
Proof. reflexivity. Qed.

Lemma fs_set_trace : forall x st, fs (set_trace x st) = fs st.
Proof. reflexivity. Qed.

Lemma fs_set_exited : forall x st, fs (set_exited x st) = fs st.
Proof. reflexivity. Qed.

Lemma promises_emit : forall es st, promises (emit es st) = promises st.
Proof. reflexivity. Qed.

Lemma promises_enqueue : forall js st, promises (enqueue js st) = promises st.
Proof. reflexivity. Qed.

Lemma promises_exit : forall c st, promises (exit c st) = promises st.
Proof. reflexivity. Qed.

Lemma promises_set_fs : forall x st, promises (set_fs x st) = promises st.
Proof. reflexivity. Qed.

Lemma promises_set_promises : forall x st, promises (set_promises x st) = x.
Proof. reflexivity. Qed.

Lemma promises_set_queue : forall x st, promises (set_queue x st) = promises st.
Proof. reflexivity. Qed.

Lemma promises_set_questions : forall x st, promises (set_questions x st) = promises st.
Proof. reflexivity. Qed.

Lemma promises_set_values : forall x st, promises (set_values x st) = promises st.
Proof. reflexivity. Qed.

Lemma promises_set_remaining : forall x st, promises (set_remaining x st) = promises st.
Proof. reflexivity. Qed.

Lemma promises_set_trace : forall x st, promises (set_trace x st) = promises st.
Proof. reflexivity. Qed.

Lemma promises_set_exited : forall x st, promises (set_exited x st) = promises st.
Proof. reflexivity. Qed.

Lemma queue_emit : forall es st, queue (emit es st) = queue st.
Proof. reflexivity. Qed.

Lemma queue_store : forall p c st, queue (store p c st) = queue st.
Proof. reflexivity. Qed.

Lemma queue_exit : forall c st, queue (exit c st) = queue st.
Proof. reflexivity. Qed.

Lemma queue_set_fs : forall x st, queue (set_fs x st) = queue st.
Proof. reflexivity. Qed.

Lemma queue_set_promises : forall x st, queue (set_promises x st) = queue st.
Proof. reflexivity. Qed.

Lemma queue_set_queue : forall x st, queue (set_queue x st) = x.
Proof. reflexivity. Qed.

Lemma queue_set_questions : forall x st, queue (set_questions x st) = queue st.
Proof. reflexivity. Qed.

Lemma queue_set_values : forall x st, queue (set_values x st) = queue st.
Proof. reflexivity. Qed.

Lemma queue_set_remaining : forall x st, queue (set_remaining x st) = queue st.
Proof. reflexivity. Qed.

Lemma queue_set_trace : forall x st, queue (set_trace x st) = queue st.
Proof. reflexivity. Qed.

Lemma queue_set_exited : forall x st, queue (set_exited x st) = queue st.
Proof. reflexivity. Qed.

Lemma questions_emit : forall es st, questions (emit es st) = questions st.
Proof. reflexivity. Qed.

Lemma questions_enqueue : forall js st, questions (enqueue js st) = questions st.
Proof. reflexivity. Qed.

Lemma questions_store : forall p c st, questions (store p c st) = questions st.
Proof. reflexivity. Qed.

Lemma questions_exit : forall c st, questions (exit c st) = questions st.
Proof. reflexivity. Qed.

Lemma questions_fulfill : forall p v st, questions (fulfill p v st) = questions st.
Proof. intros; unfold fulfill; repeat match goal with |- context [match ?x with _ => _ end] => destruct x end; reflexivity. Qed.

Lemma questions_reject : forall p v st, questions (reject p v st) = questions st.
Proof. intros; unfold reject; repeat match goal with |- context [match ?x with _ => _ end] => destruct x end; reflexivity. Qed.

Lemma questions_resolve : forall p v st, questions (resolve p v st) = questions st.
Proof. intros; unfold resolve, fulfill; repeat match goal with |- context [match ?x with _ => _ end] => destruct x end; reflexivity. Qed.

Lemma questions_register : forall p r st, questions (register p r st) = questions st.
Proof. intros; unfold register; repeat match goal with |- context [match ?x with _ => _ end] => destruct x end; reflexivity. Qed.

Lemma questions_then_ : forall p f d st, questions (then_ p f d st) = questions st.
Proof. intros; unfold then_; apply questions_register. Qed.

Lemma questions_catch_ : forall p f d st, questions (catch_ p f d st) = questions st.
Proof. intros; unfold catch_; apply questions_register. Qed.

Lemma questions_set_fs : forall x st, questions (set_fs x st) = questions st.
Proof. reflexivity. Qed.

Lemma questions_set_promises : forall x st, questions (set_promises x st) = questions st.
Proof. reflexivity. Qed.

Lemma questions_set_queue : forall x st, questions (set_queue x st) = questions st.
Proof. reflexivity. Qed.

Lemma questions_set_questions : forall x st, questions (set_questions x st) = x.
Proof. reflexivity. Qed.

Lemma questions_set_values : forall x st, questions (set_values x st) = questions st.
Proof. reflexivity. Qed.

Lemma questions_set_remaining : forall x st, questions (set_remaining x st) = questions st.
Proof. reflexivity. Qed.

Lemma questions_set_trace : forall x st, questions (set_trace x st) = questions st.
Proof. reflexivity. Qed.

Lemma questions_set_exited : forall x st, questions (set_exited x st) = questions st.
Proof. reflexivity. Qed.

Lemma values_emit : forall es st, values (emit es st) = values st.
Proof. reflexivity. Qed.

Lemma values_enqueue : forall js st, values (enqueue js st) = values st.
Proof. reflexivity. Qed.

Lemma values_store : forall p c st, values (store p c st) = values st.
Proof. reflexivity. Qed.

Lemma values_exit : forall c st, values (exit c st) = values st.
Proof. reflexivity. Qed.

Lemma values_fulfill : forall p v st, values (fulfill p v st) = values st.
Proof. intros; unfold fulfill; repeat match goal with |- context [match ?x with _ => _ end] => destruct x end; reflexivity. Qed.

Lemma values_reject : forall p v st, values (reject p v st) = values st.
Proof. intros; unfold reject; repeat match goal with |- context [match ?x with _ => _ end] => destruct x end; reflexivity. Qed.

Lemma values_resolve : forall p v st, values (resolve p v st) = values st.
Proof. intros; unfold resolve, fulfill; repeat match goal with |- context [match ?x with _ => _ end] => destruct x end; reflexivity. Qed.

Lemma values_register : forall p r st, values (register p r st) = values st.
Proof. intros; unfold register; repeat match goal with |- context [match ?x with _ => _ end] => destruct x end; reflexivity. Qed.

Lemma values_then_ : forall p f d st, values (then_ p f d st) = values st.
Proof. intros; unfold then_; apply values_register. Qed.

Lemma values_catch_ : forall p f d st, values (catch_ p f d st) = values st.
Proof. intros; unfold catch_; apply values_register. Qed.

Lemma values_set_fs : forall x st, values (set_fs x st) = values st.
Proof. reflexivity. Qed.

Lemma values_set_promises : forall x st, values (set_promises x st) = values st.
Proof. reflexivity. Qed.

Lemma values_set_queue : forall x st, values (set_queue x st) = values st.
Proof. reflexivity. Qed.

Lemma values_set_questions : forall x st, values (set_questions x st) = values st.
Proof. reflexivity. Qed.

Lemma values_set_values : forall x st, values (set_values x st) = x.
Proof. reflexivity. Qed.

Lemma values_set_remaining : forall x st, values (set_remaining x st) = values st.
Proof. reflexivity. Qed.

Lemma values_set_trace : forall x st, values (set_trace x st) = values st.
Proof. reflexivity. Qed.

Lemma values_set_exited : forall x st, values (set_exited x st) = values st.
Proof. reflexivity. Qed.

Lemma remaining_emit : forall es st, remaining (emit es st) = remaining st.
Proof. reflexivity. Qed.

Lemma remaining_enqueue : forall js st, remaining (enqueue js st) = remaining st.
Proof. reflexivity. Qed.

Lemma remaining_store : forall p c st, remaining (store p c st) = remaining st.
Proof. reflexivity. Qed.

Lemma remaining_exit : forall c st, remaining (exit c st) = remaining st.
Proof. reflexivity. Qed.

Lemma remaining_fulfill : forall p v st, remaining (fulfill p v st) = remaining st.
Proof. intros; unfold fulfill; repeat match goal with |- context [match ?x with _ => _ end] => destruct x end; reflexivity. Qed.

Lemma remaining_reject : forall p v st, remaining (reject p v st) = remaining st.
Proof. intros; unfold reject; repeat match goal with |- context [match ?x with _ => _ end] => destruct x end; reflexivity. Qed.

Lemma remaining_resolve : forall p v st, remaining (resolve p v st) = remaining st.
Proof. intros; unfold resolve, fulfill; repeat match goal with |- context [match ?x with _ => _ end] => destruct x end; reflexivity. Qed.

Lemma remaining_register : forall p r st, remaining (register p r st) = remaining st.
Proof. intros; unfold register; repeat match goal with |- context [match ?x with _ => _ end] => destruct x end; reflexivity. Qed.

Lemma remaining_then_ : forall p f d st, remaining (then_ p f d st) = remaining st.
Proof. intros; unfold then_; apply remaining_register. Qed.

Lemma remaining_catch_ : forall p f d st, remaining (catch_ p f d st) = remaining st.
Proof. intros; unfold catch_; apply remaining_register. Qed.

Lemma remaining_set_fs : forall x st, remaining (set_fs x st) = remaining st.
Proof. reflexivity. Qed.

Lemma remaining_set_promises : forall x st, remaining (set_promises x st) = remaining st.
Proof. reflexivity. Qed.

Lemma remaining_set_queue : forall x st, remaining (set_queue x st) = remaining st.
Proof. reflexivity. Qed.

Lemma remaining_set_questions : forall x st, remaining (set_questions x st) = remaining st.
Proof. reflexivity. Qed.

Lemma remaining_set_values : forall x st, remaining (set_values x st) = remaining st.
Proof. reflexivity. Qed.

Lemma remaining_set_remaining : forall x st, remaining (set_remaining x st) = x.
Proof. reflexivity. Qed.

Lemma remaining_set_trace : forall x st, remaining (set_trace x st) = remaining st.
Proof. reflexivity. Qed.

Lemma remaining_set_exited : forall x st, remaining (set_exited x st) = remaining st.
Proof. reflexivity. Qed.

Lemma trace_enqueue : forall js st, trace (enqueue js st) = trace st.
Proof. reflexivity. Qed.

Lemma trace_store : forall p c st, trace (store p c st) = trace st.
Proof. reflexivity. Qed.

Lemma trace_fulfill : forall p v st, trace (fulfill p v st) = trace st.
Proof. intros; unfold fulfill; repeat match goal with |- context [match ?x with _ => _ end] => destruct x end; reflexivity. Qed.

Lemma trace_reject : forall p v st, trace (reject p v st) = trace st.
Proof. intros; unfold reject; repeat match goal with |- context [match ?x with _ => _ end] => destruct x end; reflexivity. Qed.

Lemma trace_resolve : forall p v st, trace (resolve p v st) = trace st.
Proof. intros; unfold resolve, fulfill; repeat match goal with |- context [match ?x with _ => _ end] => destruct x end; reflexivity. Qed.

Lemma trace_register : forall p r st, trace (register p r st) = trace st.
Proof. intros; unfold register; repeat match goal with |- context [match ?x with _ => _ end] => destruct x end; reflexivity. Qed.

Lemma trace_then_ : forall p f d st, trace (then_ p f d st) = trace st.
Proof. intros; unfold then_; apply trace_register. Qed.

Lemma trace_catch_ : forall p f d st, trace (catch_ p f d st) = trace st.
Proof. intros; unfold catch_; apply trace_register. Qed.

Lemma trace_set_fs : forall x st, trace (set_fs x st) = trace st.
Proof. reflexivity. Qed.

Lemma trace_set_promises : forall x st, trace (set_promises x st) = trace st.
Proof. reflexivity. Qed.

Lemma trace_set_queue : forall x st, trace (set_queue x st) = trace st.
Proof. reflexivity. Qed.

Lemma trace_set_questions : forall x st, trace (set_questions x st) = trace st.
Proof. reflexivity. Qed.

Lemma trace_set_values : forall x st, trace (set_values x st) = trace st.
Proof. reflexivity. Qed.

Lemma trace_set_remaining : forall x st, trace (set_remaining x st) = trace st.
Proof. reflexivity. Qed.

Lemma trace_set_trace : forall x st, trace (set_trace x st) = x.
Proof. reflexivity. Qed.

Lemma trace_set_exited : forall x st, trace (set_exited x st) = trace st.
Proof. reflexivity. Qed.

Lemma exited_emit : forall es st, exited (emit es st) = exited st.
Proof. reflexivity. Qed.

Lemma exited_enqueue : forall js st, exited (enqueue js st) = exited st.
Proof. reflexivity. Qed.

Lemma exited_store : forall p c st, exited (store p c st) = exited st.
Proof. reflexivity. Qed.

Lemma exited_fulfill : forall p v st, exited (fulfill p v st) = exited st.
Proof. intros; unfold fulfill; repeat match goal with |- context [match ?x with _ => _ end] => destruct x end; reflexivity. Qed.

Lemma exited_reject : forall p v st, exited (reject p v st) = exited st.
Proof. intros; unfold reject; repeat match goal with |- context [match ?x with _ => _ end] => destruct x end; reflexivity. Qed.

Lemma exited_resolve : forall p v st, exited (resolve p v st) = exited st.
Proof. intros; unfold resolve, fulfill; repeat match goal with |- context [match ?x with _ => _ end] => destruct x end; reflexivity. Qed.

Lemma exited_register : forall p r st, exited (register p r st) = exited st.
Proof. intros; unfold register; repeat match goal with |- context [match ?x with _ => _ end] => destruct x end; reflexivity. Qed.

Lemma exited_then_ : forall p f d st, exited (then_ p f d st) = exited st.
Proof. intros; unfold then_; apply exited_register. Qed.

Lemma exited_catch_ : forall p f d st, exited (catch_ p f d st) = exited st.
Proof. intros; unfold catch_; apply exited_register. Qed.

Lemma exited_set_fs : forall x st, exited (set_fs x st) = exited st.
Proof. reflexivity. Qed.

Lemma exited_set_promises : forall x st, exited (set_promises x st) = exited st.
Proof. reflexivity. Qed.

Lemma exited_set_queue : forall x st, exited (set_queue x st) = exited st.
Proof. reflexivity. Qed.

Lemma exited_set_questions : forall x st, exited (set_questions x st) = exited st.
Proof. reflexivity. Qed.

Lemma exited_set_values : forall x st, exited (set_values x st) = exited st.
Proof. reflexivity. Qed.

Lemma exited_set_remaining : forall x st, exited (set_remaining x st) = exited st.
Proof. reflexivity. Qed.

Lemma exited_set_trace : forall x st, exited (set_trace x st) = exited st.
Proof. reflexivity. Qed.

Lemma exited_set_exited : forall x st, exited (set_exited x st) = x.
Proof. reflexivity. Qed.

Lemma trace_emit : forall es st, trace (emit es st) = trace st ++ es.
Proof. reflexivity. Qed.

Lemma queue_enqueue : forall js st, queue (enqueue js st) = queue st ++ js.
Proof. reflexivity. Qed.

Lemma trace_exit : forall c st, trace (exit c st) = trace st ++ [Exit c].
Proof. reflexivity. Qed.

Lemma exited_exit : forall c st, exited (exit c st) = Some c.
Proof. reflexivity. Qed.

#[export] Hint Rewrite
  fs_emit fs_enqueue fs_store fs_exit fs_fulfill
  fs_reject fs_resolve fs_register fs_then_ fs_catch_
  fs_set_fs fs_set_promises fs_set_queue fs_set_questions fs_set_values
  fs_set_remaining fs_set_trace fs_set_exited promises_emit promises_enqueue
  promises_exit promises_set_fs promises_set_promises promises_set_queue promises_set_questions
  promises_set_values promises_set_remaining promises_set_trace promises_set_exited queue_emit
  queue_store queue_exit queue_set_fs queue_set_promises queue_set_queue
  queue_set_questions queue_set_values queue_set_remaining queue_set_trace queue_set_exited
  questions_emit questions_enqueue questions_store questions_exit questions_fulfill
  questions_reject questions_resolve questions_register questions_then_ questions_catch_
  questions_set_fs questions_set_promises questions_set_queue questions_set_questions questions_set_values
  questions_set_remaining questions_set_trace questions_set_exited values_emit values_enqueue
  values_store values_exit values_fulfill values_reject values_resolve
  values_register values_then_ values_catch_ values_set_fs values_set_promises
  values_set_queue values_set_questions values_set_values values_set_remaining values_set_trace
  values_set_exited remaining_emit remaining_enqueue remaining_store remaining_exit
  remaining_fulfill remaining_reject remaining_resolve remaining_register remaining_then_
  remaining_catch_ remaining_set_fs remaining_set_promises remaining_set_queue remaining_set_questions
  remaining_set_values remaining_set_remaining remaining_set_trace remaining_set_exited trace_enqueue
  trace_store trace_fulfill trace_reject trace_resolve trace_register
  trace_then_ trace_catch_ trace_set_fs trace_set_promises trace_set_queue
  trace_set_questions trace_set_values trace_set_remaining trace_set_trace trace_set_exited
  exited_emit exited_enqueue exited_store exited_fulfill exited_reject
  exited_resolve exited_register exited_then_ exited_catch_ exited_set_fs
  exited_set_promises exited_set_queue exited_set_questions exited_set_values exited_set_remaining
  exited_set_trace exited_set_exited trace_emit queue_enqueue trace_exit
  exited_exit
  : fields.

End LoopFacts.

(** ** The event loop: what a turn appends to the trace *)

Module TraceFacts.

Import Promise Cli TraceSpec LoopFacts.

(** [st'] continues [st] with events that all satisfy [P]. *)
Definition extends (P : event -> Prop) (st st' : state) : Prop :=
  exists es, trace st' = trace st ++ es /\ Forall P es.

Lemma extends_refl (P : event -> Prop) (st : state) : extends P st st.
Proof. exists []. split; [now rewrite app_nil_r | constructor]. Qed.

Lemma extends_trans (P : event -> Prop) (a b c : state) :
  extends P a b -> extends P b c -> extends P a c.
Proof.
  intros [e1 [E1 F1]] [e2 [E2 F2]]. exists (e1 ++ e2). split.
  - now rewrite E2, E1, app_assoc.
  - apply Forall_app. auto.
Qed.

Lemma extends_same (P : event -> Prop) (st st' : state) :
  trace st' = trace st -> extends P st st'.
Proof. intros E. exists []. split; [now rewrite app_nil_r | constructor]. Qed.

Lemma extends_emit (P : event -> Prop) (es : list event) (a b : state) :
  Forall P es -> extends P a b -> extends P a (emit es b).
Proof.
  intros F [e1 [E1 F1]]. exists (e1 ++ es). split.
  - now rewrite trace_emit, E1, app_assoc.
  - apply Forall_app. auto.
Qed.

Lemma Forall_map_intro {A B : Type} (P : B -> Prop) (f : A -> B) (l : list A) :
  (forall x, P (f x)) -> Forall P (map f l).
Proof. intros H. induction l; simpl; constructor; auto. Qed.

Lemma Forall_repeat_intro {A : Type} (P : A -> Prop) (x : A) (k : nat) :
  P x -> Forall P (repeat x k).
Proof. intros H. induction k; simpl; constructor; auto. Qed.

Lemma extends_fulfill (P : event -> Prop) (p : _) (v : _) (a b : state) :
  extends P a b -> extends P a (fulfill p v b).
Proof.
  intros [es [E F]]. exists es. split; [ | exact F].
  now rewrite trace_fulfill.
Qed.

Lemma extends_reject (P : event -> Prop) (p : _) (v : _) (a b : state) :
  extends P a b -> extends P a (reject p v b).
Proof.
  intros [es [E F]]. exists es. split; [ | exact F].
  now rewrite trace_reject.
Qed.

Lemma extends_resolve (P : event -> Prop) (p : _) (v : _) (a b : state) :
  extends P a b -> extends P a (resolve p v b).
Proof.
  intros [es [E F]]. exists es. split; [ | exact F].
  now rewrite trace_resolve.
Qed.

Lemma extends_register (P : event -> Prop) (p : _) (r : _) (a b : state) :
  extends P a b -> extends P a (register p r b).
Proof.
  intros [es [E F]]. exists es. split; [ | exact F].
  now rewrite trace_register.
Qed.

Lemma extends_then_ (P : event -> Prop) (p : _) (f : _) (d : _) (a b : state) :
  extends P a b -> extends P a (then_ p f d b).
Proof.
  intros [es [E F]]. exists es. split; [ | exact F].
  now rewrite trace_then_.
Qed.

Lemma extends_catch_ (P : event -> Prop) (p : _) (f : _) (d : _) (a b : state) :
  extends P a b -> extends P a (catch_ p f d b).
Proof.
  intros [es [E F]]. exists es. split; [ | exact F].
  now rewrite trace_catch_.
Qed.

Lemma extends_store (P : event -> Prop) (p : _) (c : _) (a b : state) :
  extends P a b -> extends P a (store p c b).
Proof.
  intros [es [E F]]. exists es. split; [ | exact F].
  now rewrite trace_store.
Qed.

Lemma extends_enqueue (P : event -> Prop) (js : _) (a b : state) :
  extends P a b -> extends P a (enqueue js b).
Proof.
  intros [es [E F]]. exists es. split; [ | exact F].
  now rewrite trace_enqueue.
Qed.

Lemma extends_set_fs (P : event -> Prop) (x : _) (a b : state) :
  extends P a b -> extends P a (set_fs x b).
Proof.
  intros [es [E F]]. exists es. split; [ | exact F].
  now rewrite trace_set_fs.
Qed.

Lemma extends_set_queue (P : event -> Prop) (x : _) (a b : state) :
  extends P a b -> extends P a (set_queue x b).
Proof.
  intros [es [E F]]. exists es. split; [ | exact F].
  now rewrite trace_set_queue.
Qed.

Lemma extends_set_questions (P : event -> Prop) (x : _) (a b : state) :
  extends P a b -> extends P a (set_questions x b).
Proof.
  intros [es [E F]]. exists es. split; [ | exact F].
  now rewrite trace_set_questions.
Qed.

Lemma extends_set_values (P : event -> Prop) (x : _) (a b : state) :
  extends P a b -> extends P a (set_values x b).
Proof.
  intros [es [E F]]. exists es. split; [ | exact F].
  now rewrite trace_set_values.
Qed.

Lemma extends_set_remaining (P : event -> Prop) (x : _) (a b : state) :
  extends P a b -> extends P a (set_remaining x b).
Proof.
  intros [es [E F]]. exists es. split; [ | exact F].
  now rewrite trace_set_remaining.
Qed.

Lemma extends_set_promises (P : event -> Prop) (x : _) (a b : state) :
  extends P a b -> extends P a (set_promises x b).
Proof.
  intros [es [E F]]. exists es. split; [ | exact F].
  now rewrite trace_set_promises.
Qed.

Lemma extends_exit (P : event -> Prop) (c : nat) (a b : state) :
  P (Exit c) -> extends P a b -> extends P a (exit c b).
Proof.
  intros H [es [E F]]. exists (es ++ [Exit c]). split.
  - now rewrite trace_exit, E, app_assoc.
  - apply Forall_app. split; [exact F | now constructor].
Qed.

Ltac extends_step :=
  first
    [ apply extends_refl
    | apply extends_fulfill | apply extends_reject | apply extends_resolve
    | apply extends_register | apply extends_then_ | apply extends_catch_
    | apply extends_store | apply extends_enqueue
    | apply extends_set_fs | apply extends_set_queue | apply extends_set_questions
    | apply extends_set_values | apply extends_set_remaining
    | apply extends_set_promises
    | apply extends_exit; [reflexivity | ]
    | apply extends_emit;
      [ repeat first
          [ apply Forall_nil
          | apply Forall_cons; [reflexivity | ]
          | apply Forall_app; split
          | apply Forall_map_intro; intros; reflexivity
          | apply Forall_repeat_intro; reflexivity ]
      | ] ].

Ltac break_match :=
  match goal with
  | |- context [match ?x with _ => _ end] => destruct x eqn:?
  end.

Section Late.
Variable env : environment.
Variable o : options.

Let late (e : event) : Prop := is_late e = true.

Lemma delete_directory_late (i : nat) (dirpath : string) (a b : state) :
  extends late a b -> extends late a (delete_directory env i dirpath b).
Proof.
  intros H. unfold delete_directory. repeat break_match; repeat extends_step; exact H.
Qed.

Lemma call_late (f : callback) (v : value) (st : state) :
  extends late st (snd (call env o f v st)).
Proof.
  destruct f; simpl; repeat break_match; simpl;
    try apply delete_directory_late; repeat extends_step.
Qed.

Lemma run_job_late (j : job) (a b : state) :
  extends late a b -> extends late a (run_job env o j b).
Proof.
  intros H. apply (extends_trans _ _ _ _ H). clear H.
  destruct j as [[f | ] target rej v | p q]; simpl.
  - pose proof (call_late f v b) as C.
    destruct (call env o f v b) as [result st1]. simpl in C.
    repeat break_match; repeat extends_step; exact C.
  - repeat break_match; repeat extends_step.
  - repeat extends_step.
Qed.

Lemma turn_late (st st' : state) :
  turn env o st = Some st' -> extends late st st'.
Proof.
  unfold turn. repeat break_match; intros E; try discriminate E;
    injection E as <-.
  all: first
         [ apply run_job_late; repeat extends_step
         | unfold on_answer, answered; repeat break_match; repeat extends_step ].
Qed.

Lemma run_late (fuel : nat) (st : state) :
  extends late st (run env o fuel st).
Proof.
  revert st. induction fuel as [| fuel IH]; intros st; simpl.
  - apply extends_refl.
  - destruct (turn env o st) as [st' | ] eqn:T; [ | apply extends_refl].
    apply (extends_trans _ _ _ _ (turn_late _ _ T)), IH.
Qed.

End Late.

End TraceFacts.


(** ** The shape of the states of a run *)

Module ShapeFacts.

Import Promise Cli Graph LoopFacts.

Lemma slot_eqb_eq (a b : slot) : slot_eqb a b = true <-> a = b.
Proof. destruct a, b; simpl; split; intros H; try discriminate H; reflexivity. Qed.

Lemma name_eqb_eq (a b : name) : name_eqb a b = true <-> a = b.
Proof.
  destruct a as [i s | | | ], b as [j t | | | ]; simpl; split; intros H;
    try discriminate H; try reflexivity.
  - apply andb_true_iff in H. destruct H as [H1 H2].
    apply Nat.eqb_eq in H1. apply slot_eqb_eq in H2. now subst.
  - injection H as -> ->. rewrite Nat.eqb_refl. now apply slot_eqb_eq.
Qed.

Lemma name_eqb_refl (a : name) : name_eqb a a = true.
Proof. now apply name_eqb_eq. Qed.

Lemma name_eqb_neq (a b : name) : a <> b -> name_eqb a b = false.
Proof.
  intros N. destruct (name_eqb a b) eqn:E; [ | reflexivity].
  apply name_eqb_eq in E. contradiction.
Qed.

Lemma name_eq_dec (a b : name) : {a = b} + {a <> b}.
Proof.
  destruct (name_eqb a b) eqn:E.
  - left. now apply name_eqb_eq.
  - right. intros H. apply name_eqb_eq in H. congruence.
Defined.

Lemma promises_store_same (p : name) (c : pstate) (st : state) :
  promises (store p c st) p = c.
Proof. unfold store. simpl. now rewrite name_eqb_refl. Qed.

Lemma promises_store_other (p q : name) (c : pstate) (st : state) :
  q <> p -> promises (store p c st) q = promises st q.
Proof. intros N. unfold store. simpl. now rewrite (name_eqb_neq q p N). Qed.

Lemma promises_store (p q : name) (c : pstate) (st : state) :
  promises (store p c st) q = if name_eqb q p then c else promises st q.
Proof. reflexivity. Qed.

Section Shape.
Variable n : nat.

Lemma shaped_same (st st' : state) :
  queue st' = queue st -> promises st' = promises st ->
  shaped n st -> shaped n st'.
Proof.
  intros Q P [A B C]. constructor; rewrite ?Q, ?P; assumption.
Qed.

Lemma shaped_enqueue (js : list job) (st : state) :
  Forall (valid_job n) js -> shaped n st -> shaped n (enqueue js st).
Proof.
  intros F [A B C]. constructor; simpl; auto.
  apply Forall_app. auto.
Qed.

Definition valid_state (p : name) (c : pstate) : Prop :=
  match c with
  | Pending rs => Forall (valid_reaction n p) rs
  | Fulfilled v => not_promise v
  | Rejected v => not_promise v
  end.

Lemma shaped_store (p : name) (c : pstate) (st : state) :
  valid_state p c -> shaped n st -> shaped n (store p c st).
Proof.
  intros V [A B C]. constructor.
  - exact A.
  - intros q rs. rewrite promises_store.
    destruct (name_eqb q p) eqn:E; [ | apply B].
    apply name_eqb_eq in E. subst q. intros ->. exact V.
  - intros q v. rewrite promises_store.
    destruct (name_eqb q p) eqn:E; [ | apply C].
    intros [-> | ->]; exact V.
Qed.

Lemma valid_job_of (p : name) (r : reaction) (rej : bool) (v : value) :
  valid_reaction n p r -> not_promise v -> valid_job n (job_of rej v r).
Proof.
  intros V N. unfold job_of. split; [exact N | ]. exists p, r. auto.
Qed.

Lemma Forall_map_from {A B : Type} (P : A -> Prop) (Q : B -> Prop)
    (f : A -> B) (l : list A) :
  Forall P l -> (forall x, P x -> Q (f x)) -> Forall Q (map f l).
Proof. intros F H. induction F; simpl; constructor; auto. Qed.

Lemma shaped_fulfill (p : name) (v : value) (st : state) :
  not_promise v -> shaped n st -> shaped n (fulfill p v st).
Proof.
  intros N S. unfold fulfill.
  destruct (promises st p) as [rs | w | w] eqn:E; try exact S.
  pose proof (reactions_valid n st S p rs E) as R.
  apply shaped_enqueue; [ | apply shaped_store; [exact N | exact S]].
  apply (Forall_map_from _ _ _ _ R). intros r V. now apply (valid_job_of p).
Qed.

Lemma shaped_reject (p : name) (v : value) (st : state) :
  not_promise v -> shaped n st -> shaped n (reject p v st).
Proof.
  intros N S. unfold reject.
  destruct (promises st p) as [rs | w | w] eqn:E; try exact S.
  pose proof (reactions_valid n st S p rs E) as R.
  apply shaped_enqueue; [ | apply shaped_store; [exact N | exact S]].
  apply (Forall_map_from _ _ _ _ R). intros r V. now apply (valid_job_of p).
Qed.

(** What [resolve p v] needs of [v]. *)
Definition resolvable (p : name) (v : value) : Prop :=
  match v with
  | VPromise q => valid_reaction n q (adopt p)
  | _ => True
  end.

Lemma plain_resolvable (p : name) (v : value) :
  not_promise v -> resolvable p v.
Proof. destruct v; simpl; auto. intros []. Qed.

Lemma shaped_resolve (p : name) (v : value) (st : state) :
  resolvable p v -> shaped n st -> shaped n (resolve p v st).
Proof.
  intros R S. unfold resolve.
  destruct (promises st p) as [rs | w | w] eqn:E; try exact S.
  destruct v; try (apply shaped_fulfill; [exact I | exact S]).
  apply shaped_enqueue; [ | exact S]. constructor; [exact R | constructor].
Qed.

Lemma shaped_register (p : name) (r : reaction) (st : state) :
  valid_reaction n p r -> shaped n st -> shaped n (register p r st).
Proof.
  intros V S. unfold register.
  destruct (promises st p) as [rs | w | w] eqn:E.
  - apply shaped_store; [ | exact S]. simpl.
    apply Forall_app. split; [exact (reactions_valid n st S p rs E) | ].
    constructor; [exact V | constructor].
  - apply shaped_enqueue; [ | exact S].
    constructor; [ | constructor]. apply (valid_job_of p); [exact V | ].
    apply (settled_plain n st S p). now left.
  - apply shaped_enqueue; [ | exact S].
    constructor; [ | constructor]. apply (valid_job_of p); [exact V | ].
    apply (settled_plain n st S p). now right.
Qed.

End Shape.

Section Jobs.
Variable n : nat.

Import Handlers.

Lemma valid_job_callback (f : callback) (t : option name) (rej : bool) (v : value) :
  valid_job n (Reaction (Some f) t rej v) ->
  t = target_of f /\ callback_in_range n f /\ not_promise v.
Proof.
  intros [N [p [r [[R E] J]]]].
  destruct p as [i s | | | ]; [destruct s | | | ]; simpl in E;
    try discriminate E; injection E as <-;
    destruct rej; simpl in J; try discriminate J; injection J as -> ->;
    simpl in R; simpl; repeat split; auto; exists i; auto.
Qed.

Lemma valid_job_pass (t : option name) (rej : bool) (v : value) :
  valid_job n (Reaction None t rej v) ->
  not_promise v /\ exists p, t = Some p /\ in_range n p /\ passes_to rej p.
Proof.
  intros [N [p [r [[R E] J]]]]. split; [exact N | ].
  destruct p as [i s | | | ]; [destruct s | | | ]; simpl in E;
    try discriminate E; injection E as <-;
    destruct rej; simpl in J; try discriminate J; injection J as ->;
    eexists; (split; [reflexivity | ]); simpl; (split; [exact R || exact I | ]);
    try (left; exists i; tauto); try (now right).
Qed.

End Jobs.

Section Steps.
Variable env : environment.
Variable o : options.
Variable n : nat.

Import Handlers TraceFacts.

Lemma shaped_emit (es : list event) (st : state) :
  shaped n st -> shaped n (emit es st).
Proof. now apply shaped_same. Qed.

Lemma shaped_exit (c : nat) (st : state) :
  shaped n st -> shaped n (exit c st).
Proof. now apply shaped_same. Qed.

Lemma shaped_set_fs (x : Inspector.filesystem) (st : state) :
  shaped n st -> shaped n (set_fs x st).
Proof. now apply shaped_same. Qed.

Lemma shaped_set_values (x : list (option value)) (st : state) :
  shaped n st -> shaped n (set_values x st).
Proof. now apply shaped_same. Qed.

Lemma shaped_set_remaining (x : nat) (st : state) :
  shaped n st -> shaped n (set_remaining x st).
Proof. now apply shaped_same. Qed.

Lemma shaped_set_questions (x : list nat) (st : state) :
  shaped n st -> shaped n (set_questions x st).
Proof. now apply shaped_same. Qed.

Lemma shaped_then_ (p : name) (f : callback) (d : name) (st : state) :
  valid_reaction n p (on_then f d) -> shaped n st -> shaped n (then_ p f d st).
Proof. apply shaped_register. Qed.

Lemma shaped_catch_ (p : name) (f : callback) (d : name) (st : state) :
  valid_reaction n p (on_catch f d) -> shaped n st -> shaped n (catch_ p f d st).
Proof. apply shaped_register. Qed.

Ltac shaped_step :=
  first
    [ assumption
    | apply shaped_emit | apply shaped_exit | apply shaped_set_fs
    | apply shaped_set_values | apply shaped_set_remaining
    | apply shaped_set_questions
    | apply shaped_fulfill; [first [exact I | assumption] | ]
    | apply shaped_reject; [first [exact I | assumption] | ]
    | apply shaped_resolve;
      [first [exact I | assumption | apply plain_resolvable; assumption] | ]
    | apply shaped_store; [first [exact I | assumption] | ]
    | apply shaped_then_; [split; [simpl; assumption | reflexivity] | ]
    | apply shaped_catch_; [split; [simpl; assumption | reflexivity] | ] ].

Lemma shaped_delete_directory (i : nat) (dirpath : string) (st : state) :
  shaped n st -> shaped n (delete_directory env i dirpath st).
Proof.
  intros S. unfold delete_directory. repeat break_match; repeat shaped_step.
Qed.

Lemma shaped_call (f : callback) (v : value) (st : state) :
  callback_in_range n f -> not_promise v -> shaped n st ->
  shaped n (snd (call env o f v st))
  /\ (forall d, target_of f = Some d ->
        match fst (call env o f v st) with
        | Return r => resolvable n d r
        | Throw e => not_promise e
        end).
Proof.
  intros R N S. destruct f; simpl in R |- *.
  all: repeat break_match; simpl.
  all: repeat match goal with
              | H : fst _ = _ |- _ =>
                  simpl in H; try discriminate H; injection H as <-
              end.
  all: split;
    [ try apply shaped_delete_directory; repeat shaped_step
    | intros d D; try discriminate D; injection D as <-; simpl; auto ].
  all: try (split; [simpl; assumption | reflexivity]).
Qed.

Lemma shaped_run_job (j : job) (st : state) :
  valid_job n j -> shaped n st -> shaped n (run_job env o j st).
Proof.
  intros V S. destruct j as [[f | ] t rej v | d q]; simpl.
  - destruct (valid_job_callback n f t rej v V) as [T [R N]].
    destruct (shaped_call f v st R N S) as [S1 K].
    destruct (call env o f v st) as [result st1]. simpl in S1, K.
    destruct (exited st1); [exact S1 | ].
    destruct t as [p | ]; [ | exact S1].
    specialize (K p (eq_sym T)).
    destruct result; [apply shaped_resolve | apply shaped_reject]; assumption.
  - destruct (valid_job_pass n t rej v V) as [N [p [-> _]]].
    destruct rej; [apply shaped_reject | apply shaped_fulfill]; assumption.
  - apply shaped_register; [exact V | exact S].
Qed.

Lemma shaped_on_answer (i : nat) (st : state) :
  shaped n st -> shaped n (on_answer env i st).
Proof.
  intros S. unfold on_answer. destruct (answered (answer env i)) as [c shown].
  repeat shaped_step.
Qed.

Lemma shaped_turn (st st' : state) :
  shaped n st -> turn env o st = Some st' -> shaped n st'.
Proof.
  intros S. unfold turn. destruct (exited st); [discriminate | ].
  destruct (queue st) as [| j rest] eqn:Q.
  - destruct (questions st) as [| i rest]; [discriminate | ].
    intros E. injection E as <-. apply shaped_on_answer. now apply shaped_set_questions.
  - intros E. injection E as <-.
    pose proof (jobs_valid n st S) as J. rewrite Q in J.
    apply shaped_run_job; [now inversion J | ].
    destruct S as [A B C]. constructor; simpl; auto. now inversion J.
Qed.

(** A property that the synchronous part establishes and every turn keeps
    holds after any number of turns. *)
Lemma run_keeps (P : state -> Prop) :
  (forall st st', P st -> turn env o st = Some st' -> P st') ->
  forall fuel st, P st -> P (run env o fuel st).
Proof.
  intros K. induction fuel as [| fuel IH]; intros st H; simpl; [exact H | ].
  destruct (turn env o st) as [st' | ] eqn:T; [ | exact H].
  apply IH. exact (K st st' H T).
Qed.

Lemma shaped_rmdirWithConfirmation (i : nat) (dirpath : string) (st : state) :
  i < n -> shaped n st -> shaped n (rmdirWithConfirmation env o i dirpath st).
Proof.
  intros R S. unfold rmdirWithConfirmation, start_confirmDeletion.
  repeat break_match; try apply shaped_delete_directory; repeat shaped_step.
Qed.

Lemma shaped_map_targets (dirs : list string) :
  forall i st,
    i + List.length dirs <= n -> shaped n st ->
    shaped n (map_targets env o i dirs st).
Proof.
  induction dirs as [| d rest IH]; intros i st L S; simpl in *; [exact S | ].
  apply IH; [lia | ]. apply shaped_rmdirWithConfirmation; [lia | exact S].
Qed.

Lemma shaped_watch_targets (count : nat) :
  forall i st,
    i + count <= n -> shaped n st -> shaped n (watch_targets i count st).
Proof.
  induction count as [| count IH]; intros i st L S; simpl; [exact S | ].
  apply IH; [lia | ]. apply shaped_register; [ | exact S].
  split; [simpl; lia | reflexivity].
Qed.

Lemma shaped_initial (files : Inspector.filesystem) :
  shaped n (initial_state files).
Proof.
  constructor; simpl.
  - constructor.
  - intros p rs E. injection E as <-. constructor.
  - intros p v [E | E]; discriminate E.
Qed.

End Steps.

Lemma shaped_process_targets (env : environment) (o : options)
    (files : Inspector.filesystem) :
  shaped (List.length (directories o)) (process_targets env o files).
Proof.
  unfold process_targets, promise_all.
  apply shaped_register; [split; [exact I | reflexivity] | ].
  apply shaped_register; [split; [exact I | reflexivity] | ].
  assert (S : shaped (List.length (directories o))
                (watch_targets 0 (List.length (directories o))
                   (set_remaining (List.length (directories o))
                      (set_values (repeat None (List.length (directories o)))
                         (map_targets env o 0 (directories o) (initial_state files)))))).
  { apply shaped_watch_targets; [lia | ].
    apply shaped_set_remaining, shaped_set_values, shaped_map_targets; [lia | ].
    apply shaped_initial. }
  destruct (Nat.eqb (List.length (directories o)) 0); [ | exact S].
  apply shaped_resolve; [exact I | exact S].
Qed.

End ShapeFacts.


(** ** Lists with holes *)

Module ListFacts.

Import Promise Cli Tally.

Lemma set_nth_length {A : Type} (i : nat) (x : A) (l : list A) :
  List.length (set_nth i x l) = List.length l.
Proof.
  unfold set_nth. revert i. induction l as [| y l IH]; intros [| i]; simpl; auto.
Qed.

Lemma nth_set_nth {A : Type} (i j : nat) (x d : A) (l : list A) :
  i < List.length l ->
  nth j (set_nth i x l) d = if Nat.eqb j i then x else nth j l d.
Proof.
  unfold set_nth. revert i j. induction l as [| y l IH]; intros i j L; simpl in L.
  - lia.
  - destruct i as [| i], j as [| j]; simpl; auto.
    apply IH. lia.
Qed.

Lemma holes_set_nth (i : nat) (v : value) (l : list (option value)) :
  nth i l (Some v) = None ->
  S (holes (set_nth i (Some v) l)) = holes l.
Proof.
  unfold set_nth, holes. revert i. induction l as [| y l IH]; intros i E.
  - destruct i; discriminate E.
  - destruct i as [| i]; simpl in *.
    + subst y. reflexivity.
    + destruct y; simpl; [apply IH, E | f_equal; apply IH, E].
Qed.

Lemma holes_none (l : list (option value)) (i : nat) :
  holes l = 0 -> i < List.length l -> exists v, nth i l None = Some v.
Proof.
  unfold holes. revert i. induction l as [| y l IH]; intros i H L; simpl in *.
  - lia.
  - destruct y as [v | ]; simpl in H; [ | discriminate H].
    destruct i as [| i]; [eauto | apply IH; [exact H | lia]].
Qed.

Lemma nth_present (l : list (option value)) (i : nat) (v : value) :
  nth i l None = Some v -> nth i (present l) VUndefined = v.
Proof.
  unfold present. revert i. induction l as [| y l IH]; intros [| i] E; simpl in *;
    try discriminate E; [now subst y | now apply IH].
Qed.

Lemma present_length (l : list (option value)) :
  List.length (present l) = List.length l.
Proof. apply length_map. Qed.

Lemma filter_length_le {A : Type} (f : A -> bool) (l : list A) :
  List.length (filter f l) <= List.length l.
Proof. induction l as [| x l IH]; simpl; [lia | destruct (f x); simpl; lia]. Qed.

Lemma filter_all {A : Type} (f : A -> bool) (l : list A) :
  List.length (filter f l) = List.length l <-> forall x, In x l -> f x = true.
Proof.
  induction l as [| x l IH]; simpl.
  - split; [intros _ y [] | reflexivity].
  - pose proof (filter_length_le f l) as B.
    destruct (f x) eqn:F; simpl; split.
    + intros H y [<- | I]; [exact F | ]. apply IH; [lia | exact I].
    + intros H. f_equal. apply IH. auto.
    + intros H. lia.
    + intros H. specialize (H x (or_introl eq_refl)). congruence.
Qed.

End ListFacts.

(** ** The aggregation and the exit status *)

Module TallyFacts.

Import Promise Cli Graph Tally LoopFacts ShapeFacts.

(** [st'] keeps what [st] has settled of the promises the aggregation
    reads. *)
Definition keeps (st st' : state) : Prop :=
  forall p, major p = true ->
    (forall v, promises st p = Fulfilled v -> promises st' p = Fulfilled v)
    /\ (forall v, promises st p = Rejected v -> promises st' p = Rejected v).

Lemma keeps_refl (st : state) : keeps st st.
Proof. intros p _. auto. Qed.

Lemma keeps_trans (a b c : state) : keeps a b -> keeps b c -> keeps a c.
Proof.
  intros H1 H2 p M. destruct (H1 p M) as [A1 B1]. destruct (H2 p M) as [A2 B2].
  split; auto.
Qed.

Section Ties.
Variable n : nat.

Lemma rejected_some_keeps (st st' : state) (e : value) :
  keeps st st' -> rejected_some n st e -> rejected_some n st' e.
Proof.
  intros K [i [L E]]. exists i. split; [exact L | ].
  now apply (K (Of i Target) eq_refl).
Qed.

Lemma job_tie_keeps (st st' : state) (j : job) :
  keeps st st' -> job_tie n st j -> job_tie n st' j.
Proof.
  intros K. destruct j as [[f | ] t rej v | d q]; simpl; auto.
  - destruct f; auto.
    + apply (K (Of i Target) eq_refl).
    + apply rejected_some_keeps, K.
    + apply (K All eq_refl).
    + apply rejected_some_keeps, K.
  - destruct t as [[i s | | | ] | ]; auto. apply rejected_some_keeps, K.
Qed.

Lemma verdict_keeps (st st' : state) (c : nat) :
  keeps st st' -> verdict n st c -> verdict n st' c.
Proof.
  intros K [[-> A] | [-> [i [L H]]]].
  - left. split; [reflexivity | ]. intros i L.
    apply (K (Of i Target) eq_refl), A, L.
  - right. split; [reflexivity | ]. exists i. split; [exact L | ].
    destruct H as [H | [e H]].
    + left. now apply (K (Of i Target) eq_refl).
    + right. exists e. now apply (K (Of i Target) eq_refl).
Qed.

(** Changes that leave the values array and the exit status alone. *)
Lemma tied_update (st st' : state) (new : list job) :
  tied n st ->
  values st' = values st -> remaining st' = remaining st ->
  exited st' = exited st ->
  keeps st st' ->
  queue st' = queue st ++ new ->
  Forall (job_tie n st') new ->
  (forall i v, promises st' (Of i Target) = Fulfilled v ->
     promises st (Of i Target) = Fulfilled v \/ exists b, v = VBool b) ->
  (forall v, promises st' All = Fulfilled v ->
     promises st All = Fulfilled v
     \/ (v = VArray (present (values st)) /\ holes (values st) = 0)) ->
  (forall e, promises st' All = Rejected e ->
     promises st All = Rejected e \/ rejected_some n st' e) ->
  (forall e, promises st' Results = Rejected e ->
     promises st Results = Rejected e \/ rejected_some n st' e) ->
  tied n st'.
Proof.
  intros [T1 T2 T3 T4 T5 T6 T7 T8 T9] V R X K Q F B A1 A2 A3.
  constructor; rewrite ?V, ?R, ?X; auto.
  - intros i v E. destruct (B i v E) as [H | H]; eauto.
  - rewrite Q. apply Forall_app. split; [ | exact F].
    eapply Forall_impl; [ | exact T4]. intros j. apply job_tie_keeps, K.
  - intros i v E. apply (K (Of i Target) eq_refl), T5, E.
  - intros v E. destruct (A1 v E) as [H | H]; auto.
  - intros e E. destruct (A2 e E) as [H | H]; auto.
    eapply rejected_some_keeps; [exact K | ]. auto.
  - intros e E. destruct (A3 e E) as [H | H]; auto.
    eapply rejected_some_keeps; [exact K | ]. auto.
  - intros c E. eapply verdict_keeps; [exact K | ]. auto.
Qed.

Lemma tie_job_of (p : name) (r : reaction) (rej : bool) (v : value) (st : state) :
  valid_reaction n p r ->
  promises st p = (if rej then Rejected v else Fulfilled v) ->
  (p = All \/ p = Results -> rej = true -> rejected_some n st v) ->
  job_tie n st (job_of rej v r).
Proof.
  intros [R E] P S.
  destruct p as [i s | | | ]; [destruct s | | | ]; simpl in E;
    try discriminate E; injection E as <-; destruct rej; simpl; auto.
  exists i. auto.
Qed.

Lemma tied_frame (st st' : state) :
  promises st' = promises st -> queue st' = queue st ->
  values st' = values st -> remaining st' = remaining st ->
  exited st' = exited st ->
  tied n st -> tied n st'.
Proof.
  intros P Q V R X T.
  apply (tied_update st st' []); auto.
  - intros p _. rewrite P. auto.
  - now rewrite Q, app_nil_r.
  - intros i v. rewrite P. auto.
  - intros v. rewrite P. auto.
  - intros e. rewrite P. auto.
  - intros e. rewrite P. auto.
Qed.

Lemma tied_enqueue (js : list job) (st : state) :
  Forall (job_tie n st) js -> tied n st -> tied n (enqueue js st).
Proof.
  intros F T. apply (tied_update st _ js); auto.
  intros p _. simpl. auto.
Qed.

Lemma keeps_store_pending (p : name) (c : pstate) (rs : list reaction) (st : state) :
  promises st p = Pending rs -> keeps st (store p c st).
Proof.
  intros E q _. rewrite promises_store.
  destruct (name_eqb q p) eqn:Q; [ | auto].
  apply name_eqb_eq in Q. subst q. rewrite E. split; intros v H; discriminate H.
Qed.

Lemma keeps_store_minor (p : name) (c : pstate) (st : state) :
  major p = false -> keeps st (store p c st).
Proof.
  intros M q Mq. rewrite promises_store.
  destruct (name_eqb q p) eqn:Q; [ | auto].
  apply name_eqb_eq in Q. subst q. congruence.
Qed.

Lemma tied_store_minor (p : name) (c : pstate) (st : state) :
  major p = false -> tied n st -> tied n (store p c st).
Proof.
  intros M T.
  assert (O : forall q, major q = true -> promises (store p c st) q = promises st q).
  { intros q Mq. apply promises_store_other. intros ->. congruence. }
  apply (tied_update st _ []); auto.
  - now apply keeps_store_minor.
  - simpl. now rewrite app_nil_r.
  - intros i v. rewrite (O (Of i Target) eq_refl). auto.
  - intros v. rewrite (O All eq_refl). auto.
  - intros e. rewrite (O All eq_refl). auto.
  - intros e. rewrite (O Results eq_refl). auto.
Qed.

(** What may be given to [fulfill] for a promise the aggregation reads. *)
Definition fulfilling (p : name) (v : value) (st : state) : Prop :=
  match p with
  | Of _ Target => exists b, v = VBool b
  | All => v = VArray (present (values st)) /\ holes (values st) = 0
  | _ => True
  end.

(** What may be given to [reject]. *)
Definition rejecting (p : name) (e : value) (st : state) : Prop :=
  match p with
  | All | Results => rejected_some n st e
  | _ => True
  end.

Lemma tied_fulfill (p : name) (v : value) (st : state) :
  shaped n st -> fulfilling p v st -> tied n st -> tied n (fulfill p v st).
Proof.
  intros S F T. unfold fulfill.
  destruct (promises st p) as [rs | w | w] eqn:E; try exact T.
  pose proof (reactions_valid n st S p rs E) as R.
  assert (K : keeps st (store p (Fulfilled v) st)) by exact (keeps_store_pending _ _ _ _ E).
  apply (tied_update st _ (map (job_of false v) rs)); auto.
  - apply (Forall_map_from _ _ _ _ R). intros r V.
    apply (tie_job_of p); [exact V | rewrite promises_enqueue; apply promises_store_same | ].
    intros _ D. discriminate D.
  - intros i w. rewrite promises_enqueue, promises_store.
    destruct (name_eqb (Of i Target) p) eqn:Q; [ | auto].
    apply name_eqb_eq in Q. subst p. intros H. injection H as <-. right. exact F.
  - intros w. rewrite promises_enqueue, promises_store.
    destruct (name_eqb All p) eqn:Q; [ | auto].
    apply name_eqb_eq in Q. subst p. intros H. injection H as <-. right. exact F.
  - intros e. rewrite promises_enqueue, promises_store.
    destruct (name_eqb All p) eqn:Q; [discriminate | auto].
  - intros e. rewrite promises_enqueue, promises_store.
    destruct (name_eqb Results p) eqn:Q; [discriminate | auto].
Qed.

Lemma tied_reject (p : name) (e : value) (st : state) :
  shaped n st -> rejecting p e st -> tied n st -> tied n (reject p e st).
Proof.
  intros S F T. unfold reject.
  destruct (promises st p) as [rs | w | w] eqn:E; try exact T.
  pose proof (reactions_valid n st S p rs E) as R.
  assert (K : keeps st (store p (Rejected e) st)) by exact (keeps_store_pending _ _ _ _ E).
  apply (tied_update st _ (map (job_of true e) rs)); auto.
  - apply (Forall_map_from _ _ _ _ R). intros r V.
    apply (tie_job_of p); [exact V | rewrite promises_enqueue; apply promises_store_same | ].
    intros [-> | ->] _; apply (rejected_some_keeps st); auto.
  - intros i w. rewrite promises_enqueue, promises_store.
    destruct (name_eqb (Of i Target) p) eqn:Q; [discriminate | auto].
  - intros w. rewrite promises_enqueue, promises_store.
    destruct (name_eqb All p) eqn:Q; [discriminate | auto].
  - intros w. rewrite promises_enqueue, promises_store.
    destruct (name_eqb All p) eqn:Q; [ | auto].
    apply name_eqb_eq in Q. subst p. intros H. injection H as <-. right.
    apply (rejected_some_keeps st); auto.
  - intros w. rewrite promises_enqueue, promises_store.
    destruct (name_eqb Results p) eqn:Q; [ | auto].
    apply name_eqb_eq in Q. subst p. intros H. injection H as <-. right.
    apply (rejected_some_keeps st); auto.
Qed.

Lemma tied_resolve (p : name) (v : value) (st : state) :
  shaped n st -> fulfilling p v st -> tied n st -> tied n (resolve p v st).
Proof.
  intros S F T. unfold resolve.
  destruct (promises st p) as [rs | w | w] eqn:E; try exact T.
  destruct v; try (apply tied_fulfill; assumption).
  apply tied_enqueue; [ | exact T]. constructor; [exact I | constructor].
Qed.

Lemma tied_register (p : name) (r : reaction) (st : state) :
  valid_reaction n p r -> tied n st -> tied n (register p r st).
Proof.
  intros V T. unfold register.
  destruct (promises st p) as [rs | w | w] eqn:E.
  - assert (O : forall q v, promises (store p (Pending (rs ++ [r])) st) q = Fulfilled v
                            \/ promises (store p (Pending (rs ++ [r])) st) q = Rejected v ->
                            promises (store p (Pending (rs ++ [r])) st) q = promises st q).
    { intros q v. rewrite promises_store.
      destruct (name_eqb q p); [intros [H | H]; discriminate H | reflexivity]. }
    apply (tied_update st _ []); auto.
    + exact (keeps_store_pending _ _ _ _ E).
    + simpl. now rewrite app_nil_r.
    + intros i v H. left. rewrite <- (O _ v); auto.
    + intros v H. left. rewrite <- (O _ v); auto.
    + intros v H. left. rewrite <- (O _ v); auto.
    + intros v H. left. rewrite <- (O _ v); auto.
  - apply tied_enqueue; [ | exact T]. constructor; [ | constructor].
    apply (tie_job_of p); [exact V | exact E | ]. intros _ D. discriminate D.
  - apply tied_enqueue; [ | exact T]. constructor; [ | constructor].
    apply (tie_job_of p); [exact V | exact E | ].
    intros [-> | ->] _; [apply (all_rejected n st T) | apply (results_rejected n st T)];
      exact E.
Qed.

End Ties.

Ltac shaped_auto :=
  repeat first
    [ assumption
    | apply shaped_emit | apply shaped_exit | apply shaped_set_fs
    | apply shaped_set_values | apply shaped_set_remaining
    | apply shaped_set_questions
    | apply shaped_delete_directory
    | apply shaped_fulfill; [first [exact I | assumption] | ]
    | apply shaped_reject; [first [exact I | assumption] | ]
    | apply shaped_resolve;
      [first [exact I | assumption | apply plain_resolvable; assumption] | ]
    | apply shaped_store; [first [exact I | assumption] | ]
    | apply shaped_then_; [split; [simpl; assumption | reflexivity] | ]
    | apply shaped_catch_; [split; [simpl; assumption | reflexivity] | ] ].

Section TiedSteps.
Variable env : environment.
Variable o : options.
Variable n : nat.

Import Handlers TraceFacts ListFacts.

Lemma tied_emit (es : list event) (st : state) : tied n st -> tied n (emit es st).
Proof. now apply tied_frame. Qed.

Lemma tied_set_fs (x : Inspector.filesystem) (st : state) :
  tied n st -> tied n (set_fs x st).
Proof. now apply tied_frame. Qed.

Lemma tied_set_questions (x : list nat) (st : state) :
  tied n st -> tied n (set_questions x st).
Proof. now apply tied_frame. Qed.

Lemma tied_then_ (p : name) (f : callback) (d : name) (st : state) :
  valid_reaction n p (on_then f d) -> tied n st -> tied n (then_ p f d st).
Proof. apply tied_register. Qed.

Lemma tied_catch_ (p : name) (f : callback) (d : name) (st : state) :
  valid_reaction n p (on_catch f d) -> tied n st -> tied n (catch_ p f d st).
Proof. apply tied_register. Qed.

Ltac tied_step :=
  first
    [ assumption
    | apply tied_emit | apply tied_set_fs | apply tied_set_questions
    | apply tied_store_minor; [reflexivity | ]
    | apply tied_then_; [split; [simpl; assumption | reflexivity] | ]
    | apply tied_catch_; [split; [simpl; assumption | reflexivity] | ]
    | apply tied_resolve; [shaped_auto | simpl; eauto | ]
    | apply tied_fulfill; [shaped_auto | simpl; eauto | ]
    | apply tied_reject; [shaped_auto | simpl; eauto | ] ].

Lemma tied_delete_directory (i : nat) (dirpath : string) (st : state) :
  shaped n st -> tied n st -> tied n (delete_directory env i dirpath st).
Proof.
  intros S T. unfold delete_directory. repeat break_match; repeat tied_step.
Qed.

(** [resolveElement]: the value goes into its hole, and the last one
    resolves the promise of [Promise.all]. *)
Lemma tied_fill (i : nat) (v : value) (st : state) :
  i < n -> shaped n st -> tied n st ->
  promises st (Of i Target) = Fulfilled v ->
  nth i (values st) None = None ->
  let st1 := set_remaining (pred (remaining st))
               (set_values (set_nth i (Some v) (values st)) st) in
  tied n (if Nat.eqb (remaining st1) 0
          then resolve All (VArray (present (values st1))) st1 else st1).
Proof.
  intros L S T P H st1.
  pose proof (values_length n st T) as T1.
  assert (H' : nth i (values st) (Some v) = None).
  { rewrite (nth_indep _ (Some v) None); [exact H | lia]. }
  pose proof (holes_set_nth i v (values st) H') as HS.
  assert (T' : tied n st1).
  { destruct T as [_ T2 T3 T4 T5 T6 T7 T8 T9]. constructor; simpl; auto.
    - rewrite set_nth_length. exact T1.
    - rewrite T2. lia.
    - intros j w. rewrite nth_set_nth by lia.
      destruct (Nat.eqb j i) eqn:E; [ | apply T5].
      apply Nat.eqb_eq in E. subst j. intros X. injection X as <-. exact P.
    - intros w X. destruct (T6 w X) as [_ Z]. lia. }
  destruct (Nat.eqb (remaining st1) 0) eqn:Z; [ | exact T'].
  apply tied_resolve; [now apply shaped_set_remaining, shaped_set_values | | exact T'].
  simpl. split; [reflexivity | ].
  apply Nat.eqb_eq in Z. simpl in Z.
  rewrite (remaining_holes n st T) in Z. lia.
Qed.

(** What [function (results)] concludes from the values array. *)
Lemma results_verdict (results : list value) (st : state) :
  tied n st -> promises st All = Fulfilled (VArray results) ->
  verdict n st
    (if Nat.eqb (List.length (filter truthy results)) (List.length results)
     then 0 else 1).
Proof.
  intros T A.
  destruct (all_fulfilled n st T _ A) as [R Z]. injection R as ->.
  pose proof (values_length n st T) as T1.
  assert (V : forall i, i < n ->
                exists b, promises st (Of i Target) = Fulfilled (VBool b)
                          /\ nth i (present (values st)) VUndefined = VBool b).
  { intros i L. destruct (holes_none (values st) i Z) as [v E]; [lia | ].
    pose proof (values_tied n st T i v E) as F.
    destruct (target_boolean n st T i v F) as [b ->].
    exists b. split; [exact F | now apply nth_present]. }
  destruct (Nat.eqb _ _) eqn:E.
  - left. split; [reflexivity | ]. intros i L.
    destruct (V i L) as [b [F N]]. unfold succeeded. rewrite F. do 2 f_equal.
    apply Nat.eqb_eq in E.
    assert (In (VBool b) (present (values st))).
    { rewrite <- N. apply nth_In. rewrite present_length. lia. }
    exact (proj1 (filter_all truthy _) E _ H).
  - right. split; [reflexivity | ].
    apply Nat.eqb_neq in E.
    assert (X : exists i, i < n /\ nth i (present (values st)) VUndefined = VBool false).
    { destruct (forallb truthy (present (values st))) eqn:FA.
      - exfalso. apply E. apply filter_all.
        rewrite forallb_forall in FA. exact FA.
      - assert (Y : exists x, In x (present (values st)) /\ truthy x = false).
        { clear - FA. induction (present (values st)) as [| y l IH]; simpl in FA;
            [discriminate | ].
          destruct (truthy y) eqn:Ty; simpl in FA.
          - destruct (IH FA) as [x [I Tx]]. exists x. split; [now right | exact Tx].
          - exists y. split; [now left | exact Ty]. }
        destruct Y as [x [I Tx]].
        destruct (In_nth _ _ VUndefined I) as [i [L N]].
        rewrite present_length in L. exists i. split; [lia | ].
        destruct (V i ltac:(lia)) as [b [_ N']]. rewrite N in N'. subst x.
        rewrite N' in Tx |- *. destruct b; [discriminate Tx | reflexivity]. }
    destruct X as [i [L N]]. exists i. split; [exact L | ]. left.
    destruct (V i L) as [b [F N']]. congruence.
Qed.

Lemma tied_exit (c : nat) (st : state) :
  tied n st -> verdict n st c -> tied n (exit c st).
Proof.
  intros [T1 T2 T3 T4 T5 T6 T7 T8 T9] V. constructor; auto.
  simpl. intros c' E. injection E as <-. exact V.
Qed.

Lemma tied_call (f : callback) (t : option name) (rej : bool) (v : value)
    (st : state) :
  callback_in_range n f -> not_promise v ->
  job_tie n st (Reaction (Some f) t rej v) ->
  shaped n st -> tied n st ->
  tied n (snd (call env o f v st)).
Proof.
  intros R N J S T. destruct f; simpl in R, J |- *.
  - repeat break_match; simpl; repeat tied_step.
  - apply tied_delete_directory; [shaped_auto | repeat tied_step].
  - repeat tied_step.
  - repeat break_match; simpl; repeat tied_step.
  - repeat tied_step.
  - repeat break_match; simpl; repeat tied_step.
  - repeat break_match; simpl; repeat tied_step.
  - destruct (nth i (values st) None) eqn:H; simpl; [exact T | ].
    now apply tied_fill.
  - apply tied_reject; [exact S | exact J | exact T].
  - destruct (all_fulfilled n st T v J) as [-> _]. simpl.
    pose proof (results_verdict _ st T J) as V.
    destruct (Nat.eqb _ _); simpl; apply tied_exit; repeat tied_step;
      eapply verdict_keeps; try exact V; intros q _; simpl; auto.
  - apply tied_exit; [repeat tied_step | ].
    right. split; [reflexivity | ]. destruct J as [i [L E]].
    exists i. split; [exact L | ]. right. exists v. exact E.
  - destruct R as [R [i [-> | ->]]]; repeat tied_step.
  - destruct R as [R [i [-> | ->]]]; repeat tied_step.
Qed.

Lemma tied_run_job (j : job) (st : state) :
  valid_job n j -> job_tie n st j -> shaped n st -> tied n st ->
  tied n (run_job env o j st).
Proof.
  intros V J S T. destruct j as [[f | ] t rej v | d q]; simpl.
  - destruct (valid_job_callback n f t rej v V) as [Tg [R N]].
    pose proof (tied_call f t rej v st R N J S T) as T1.
    destruct (shaped_call env o n f v st R N S) as [S1 K].
    assert (X : forall r, fst (call env o f v st) = r ->
                exited (snd (call env o f v st)) = None ->
                f <> OnResults /\ f <> OnFailure).
    { intros r _ X. split; intros ->; simpl in *.
      - destruct (all_fulfilled n st T v J) as [-> _]. simpl in X.
        destruct (Nat.eqb _ _); discriminate X.
      - discriminate X. }
    destruct (call env o f v st) as [result st1]. simpl in T1, S1, K, X.
    destruct (exited st1) eqn:Ex; [exact T1 | ].
    destruct t as [p | ]; [ | exact T1].
    destruct (X result eq_refl eq_refl) as [X1 X2].
    specialize (K p (eq_sym Tg)).
    assert (M : major p = false).
    { destruct f; simpl in Tg; try discriminate Tg; injection Tg as ->;
        try reflexivity; congruence. }
    destruct result; [apply tied_resolve | apply tied_reject]; auto;
      destruct p as [i [] | | | ]; simpl in M |- *; auto; discriminate M.
  - destruct (valid_job_pass n t rej v V) as [N [p [-> [R P]]]].
    destruct rej; [apply tied_reject | apply tied_fulfill]; auto.
    + destruct P as [[i [-> | [-> | [-> | ->]]]] | ->]; simpl; auto.
    + destruct P as [[i [-> | [-> | ->]]] | ->]; simpl; auto.
  - apply tied_register; [exact V | exact T].
Qed.

Lemma tied_on_answer (i : nat) (st : state) :
  shaped n st -> tied n st -> tied n (on_answer env i st).
Proof.
  intros S T. unfold on_answer. destruct (answered (answer env i)) as [c shown].
  repeat tied_step.
Qed.

Lemma tied_turn (st st' : state) :
  shaped n st -> tied n st -> turn env o st = Some st' -> tied n st'.
Proof.
  intros S T. unfold turn. destruct (exited st); [discriminate | ].
  destruct (queue st) as [| j rest] eqn:Q.
  - destruct (questions st) as [| i rest]; [discriminate | ].
    intros E. injection E as <-.
    apply tied_on_answer; [now apply shaped_set_questions | now apply tied_set_questions].
  - intros E. injection E as <-.
    pose proof (jobs_valid n st S) as J. rewrite Q in J.
    pose proof (jobs_tied n st T) as J'. rewrite Q in J'.
    assert (S' : shaped n (set_queue rest st)).
    { destruct S as [A B C]. constructor; simpl; auto. now inversion J. }
    assert (T' : tied n (set_queue rest st)).
    { destruct T as [T1 T2 T3 T4 T5 T6 T7 T8 T9]. constructor; simpl; auto.
      now inversion J'. }
    apply tied_run_job; auto; [now inversion J | now inversion J'].
Qed.

(** The executors do not read the values array. *)
Lemma fs_preset (m : nat) (st : state) : fs (preset m st) = fs st.
Proof. reflexivity. Qed.

Lemma emit_preset (m : nat) (es : list event) (st : state) :
  emit es (preset m st) = preset m (emit es st).
Proof. reflexivity. Qed.

Lemma set_fs_preset (m : nat) (x : Inspector.filesystem) (st : state) :
  set_fs x (preset m st) = preset m (set_fs x st).
Proof. reflexivity. Qed.

Lemma set_questions_preset (m : nat) (x : list nat) (st : state) :
  set_questions x (preset m st) = preset m (set_questions x st).
Proof. reflexivity. Qed.

Lemma questions_preset (m : nat) (st : state) :
  questions (preset m st) = questions st.
Proof. reflexivity. Qed.

Lemma store_preset (m : nat) (p : name) (c : pstate) (st : state) :
  store p c (preset m st) = preset m (store p c st).
Proof. reflexivity. Qed.

Lemma fulfill_preset (m : nat) (p : name) (v : value) (st : state) :
  fulfill p v (preset m st) = preset m (fulfill p v st).
Proof.
  unfold fulfill. change (promises (preset m st) p) with (promises st p).
  destruct (promises st p); reflexivity.
Qed.

Lemma reject_preset (m : nat) (p : name) (v : value) (st : state) :
  reject p v (preset m st) = preset m (reject p v st).
Proof.
  unfold reject. change (promises (preset m st) p) with (promises st p).
  destruct (promises st p); reflexivity.
Qed.

Lemma resolve_preset (m : nat) (p : name) (v : value) (st : state) :
  resolve p v (preset m st) = preset m (resolve p v st).
Proof.
  unfold resolve. change (promises (preset m st) p) with (promises st p).
  destruct (promises st p); try reflexivity.
  destruct v; try apply fulfill_preset. reflexivity.
Qed.

Lemma register_preset (m : nat) (p : name) (r : reaction) (st : state) :
  register p r (preset m st) = preset m (register p r st).
Proof.
  unfold register. change (promises (preset m st) p) with (promises st p).
  destruct (promises st p); reflexivity.
Qed.

Lemma delete_directory_preset (m i : nat) (dirpath : string) (st : state) :
  delete_directory env i dirpath (preset m st)
  = preset m (delete_directory env i dirpath st).
Proof.
  unfold delete_directory. cbv zeta. rewrite emit_preset, fs_preset.
  destruct (rmdir env dirpath (fs (emit [Rmdir dirpath] st))).
  - now rewrite set_fs_preset, emit_preset, resolve_preset.
  - now rewrite emit_preset, reject_preset.
Qed.

Lemma rmdirWithConfirmation_preset (m i : nat) (dirpath : string) (st : state) :
  rmdirWithConfirmation env o i dirpath (preset m st)
  = preset m (rmdirWithConfirmation env o i dirpath st).
Proof.
  unfold rmdirWithConfirmation. cbv zeta. rewrite emit_preset, fs_preset.
  destruct (Inspector.checkDirectory dirpath (fs (emit [CheckDirectory dirpath] st)))
    as [ok errors].
  rewrite emit_preset.
  destruct (negb ok); [apply reject_preset | ].
  rewrite emit_preset, !fs_preset.
  destruct (negb (Inspector.isDirectoryEmpty dirpath _) && negb (force o)
            && negb (brutal o)).
  - destruct (Inspector.readdir _);
      now rewrite ?emit_preset, reject_preset.
  - destruct (negb (Inspector.isDirectoryEmpty dirpath _)).
    + unfold then_, catch_, start_confirmDeletion.
      destruct (Inspector.readdir _); rewrite ?emit_preset;
        destruct (yes o);
        rewrite ?store_preset, ?fs_preset, ?emit_preset, ?questions_preset,
          ?set_questions_preset, !register_preset; reflexivity.
    + destruct (Inspector.readdir _); rewrite ?emit_preset;
        apply delete_directory_preset.
Qed.

Lemma map_targets_preset (m : nat) (dirs : list string) :
  forall i st,
    map_targets env o i dirs (preset m st) = preset m (map_targets env o i dirs st).
Proof.
  induction dirs as [| d rest IH]; intros i st; simpl; [reflexivity | ].
  now rewrite rmdirWithConfirmation_preset, IH.
Qed.

Lemma tied_rmdirWithConfirmation (i : nat) (dirpath : string) (st : state) :
  i < n -> shaped n st -> tied n st ->
  tied n (rmdirWithConfirmation env o i dirpath st).
Proof.
  intros R S T. unfold rmdirWithConfirmation, start_confirmDeletion.
  repeat break_match; try (apply tied_delete_directory; [shaped_auto | ]);
    repeat tied_step.
Qed.

Lemma tied_map_targets (dirs : list string) :
  forall i st,
    i + List.length dirs <= n -> shaped n st -> tied n st ->
    tied n (map_targets env o i dirs st).
Proof.
  induction dirs as [| d rest IH]; intros i st L S T; simpl in *; [exact T | ].
  apply IH; [lia | | ].
  - apply shaped_rmdirWithConfirmation; [lia | exact S].
  - apply tied_rmdirWithConfirmation; [lia | exact S | exact T].
Qed.

Lemma tied_watch_targets (count : nat) :
  forall i st,
    i + count <= n -> tied n st -> tied n (watch_targets i count st).
Proof.
  induction count as [| count IH]; intros i st L T; simpl; [exact T | ].
  apply IH; [lia | ]. apply tied_register; [ | exact T].
  split; [simpl; lia | reflexivity].
Qed.

End TiedSteps.

Lemma holes_repeat (n : nat) : holes (repeat None n) = n.
Proof. unfold holes. induction n; simpl; auto. Qed.

Lemma tied_process_targets (env : environment) (o : options)
    (files : Inspector.filesystem) :
  tied (List.length (directories o)) (process_targets env o files).
Proof.
  set (n := List.length (directories o)).
  unfold process_targets, promise_all. fold n.
  assert (T0 : tied n (preset n (initial_state files))).
  { constructor; simpl; try discriminate.
    - apply repeat_length.
    - now rewrite holes_repeat.
    - constructor.
    - intros i v. rewrite nth_repeat. discriminate. }
  assert (S0 : shaped n (preset n (initial_state files))).
  { unfold preset. apply shaped_set_remaining, shaped_set_values, shaped_initial. }
  assert (T1 : tied n (preset n (map_targets env o 0 (directories o) (initial_state files)))).
  { rewrite <- map_targets_preset. apply tied_map_targets; auto. }
  assert (S1 : shaped n (preset n (map_targets env o 0 (directories o) (initial_state files)))).
  { rewrite <- map_targets_preset. apply shaped_map_targets; auto. }
  apply tied_register; [split; [exact I | reflexivity] | ].
  apply tied_register; [split; [exact I | reflexivity] | ].
  assert (T2 : tied n (watch_targets 0 n
                         (preset n (map_targets env o 0 (directories o) (initial_state files))))).
  { apply tied_watch_targets; [lia | exact T1]. }
  change (set_remaining n (set_values (repeat None n)
            (map_targets env o 0 (directories o) (initial_state files))))
    with (preset n (map_targets env o 0 (directories o) (initial_state files))).
  destruct (Nat.eqb n 0) eqn:Z; [ | exact T2].
  apply tied_resolve; [ | | exact T2].
  - apply shaped_watch_targets; [lia | exact S1].
  - apply Nat.eqb_eq in Z. simpl. rewrite Z.
    destruct (directories o); [ | discriminate Z].
    simpl. auto.
Qed.

End TallyFacts.


(** ** Every turn uses up potential *)

Module FuelFacts.

Import Promise Cli Graph Fuel LoopFacts ShapeFacts.

Lemma in_names (n : nat) (p : name) : in_range n p -> In p (names n).
Proof.
  unfold names. intros R. apply in_or_app.
  destruct p as [i s | | | ]; simpl in R.
  - left. apply in_flat_map. exists i. split; [apply in_seq; lia | ].
    apply in_map. destruct s; simpl; tauto.
  - right. simpl. tauto.
  - right. simpl. tauto.
  - right. simpl. tauto.
Qed.

Lemma names_nodup (n : nat) : NoDup (names n).
Proof.
  unfold names. apply NoDup_app.
  - assert (G : forall l, NoDup l ->
                NoDup (flat_map (fun i => map (Of i) slots) l)).
    { induction l as [| i l IH]; intros N; [constructor | ].
      inversion N as [| ? ? NI NL]; subst.
      change (NoDup (map (Of i) slots
                     ++ flat_map (fun i => map (Of i) slots) l)).
      apply NoDup_app.
      - apply Finite.Injective_map_NoDup; [intros a b E; now injection E | ].
        repeat constructor; simpl; intuition discriminate.
      - auto.
      - intros p I1 I2. apply in_map_iff in I1. destruct I1 as [s [<- _]].
        apply in_flat_map in I2. destruct I2 as [j [J1 J2]].
        apply in_map_iff in J2. destruct J2 as [t [E _]]. injection E as -> _.
        contradiction. }
    apply G, seq_NoDup.
  - repeat constructor; simpl; intuition discriminate.
  - intros p I1 I2. apply in_flat_map in I1. destruct I1 as [i [_ I1]].
    apply in_map_iff in I1. destruct I1 as [s [<- _]].
    simpl in I2. intuition discriminate.
Qed.

(** The sum over a list without repetition, after one entry changed. *)
Lemma sum_update (g : pstate -> nat) (f : name -> pstate) (p : name) (c : pstate)
    (l : list name) :
  NoDup l ->
  list_sum (map (fun q => g (if name_eqb q p then c else f q)) l)
  = if in_dec name_eq_dec p l
    then list_sum (map (fun q => g (f q)) l) - g (f p) + g c
    else list_sum (map (fun q => g (f q)) l).
Proof.
  induction l as [| x l IH]; intros N; simpl; [reflexivity | ].
  inversion N as [| ? ? NI NL]; subst. rewrite (IH NL).
  destruct (name_eq_dec x p) as [-> | D].
  - rewrite name_eqb_refl.
    destruct (in_dec name_eq_dec p l) as [I | _]; [contradiction | ].
    lia.
  - rewrite (name_eqb_neq x p D).
    destruct (in_dec name_eq_dec p l) as [I | _]; [ | reflexivity].
    assert (g (f p) <= list_sum (map (fun q => g (f q)) l)).
    { clear - I. induction l as [| y l IH]; simpl; [destruct I | ].
      destruct I as [-> | I]; [lia | specialize (IH I); lia]. }
    lia.
Qed.

Section Potential.
Variable n : nat.

Lemma potential_frame (st st' : state) :
  queue st' = queue st -> promises st' = promises st ->
  questions st' = questions st -> potential n st' = potential n st.
Proof. unfold potential. intros -> -> ->. reflexivity. Qed.

Lemma potential_enqueue (js : list job) (st : state) :
  potential n (enqueue js st) = potential n st + list_sum (map job_weight js).
Proof.
  unfold potential. simpl. rewrite map_app, list_sum_app. lia.
Qed.

Lemma potential_store (p : name) (c : pstate) (st : state) :
  potential n (store p c st)
  = if in_dec name_eq_dec p (names n)
    then potential n st - pending_weight (promises st p) + pending_weight c
    else potential n st.
Proof.
  unfold potential. simpl.
  rewrite (sum_update pending_weight (promises st) p c (names n) (names_nodup n)).
  destruct (in_dec name_eq_dec p (names n)) as [I | _]; [ | reflexivity].
  assert (pending_weight (promises st p)
          <= list_sum (map (fun q => pending_weight (promises st q)) (names n))).
  { clear - I. induction (names n) as [| y l IH]; simpl; [destruct I | ].
    destruct I as [-> | I]; [lia | specialize (IH I); lia]. }
  lia.
Qed.

Lemma potential_store_settled (p : name) (c : pstate) (st : state) :
  pending_weight c = 0 -> potential n (store p c st) <= potential n st.
Proof.
  intros Z. rewrite potential_store.
  destruct (in_dec name_eq_dec p (names n)); lia.
Qed.

Lemma job_weight_of (rej : bool) (v : value) (r : reaction) :
  job_weight (job_of rej v r) <= reaction_weight r.
Proof. unfold job_of, reaction_weight. destruct rej; simpl; lia. Qed.

Lemma weight_one (j : job) : list_sum (map job_weight [j]) = job_weight j.
Proof. simpl. lia. Qed.

Lemma jobs_weight_of (rej : bool) (v : value) (rs : list reaction) :
  list_sum (map job_weight (map (job_of rej v) rs))
  <= list_sum (map reaction_weight rs).
Proof.
  induction rs as [| r rs IH]; [simpl; lia | ].
  change (job_weight (job_of rej v r)
          + list_sum (map job_weight (map (job_of rej v) rs))
          <= reaction_weight r + list_sum (map reaction_weight rs)).
  pose proof (job_weight_of rej v r). lia.
Qed.

Lemma potential_settle (p : name) (c : pstate) (rej : bool) (v : value)
    (rs : list reaction) (st : state) :
  shaped n st -> promises st p = Pending rs -> pending_weight c = 0 ->
  potential n (enqueue (map (job_of rej v) rs) (store p c st)) <= potential n st.
Proof.
  intros S E Z. rewrite potential_enqueue, potential_store, E.
  pose proof (jobs_weight_of rej v rs) as W.
  destruct rs as [| r rs].
  - simpl in *. destruct (in_dec name_eq_dec p (names n)); lia.
  - pose proof (reactions_valid n st S p _ E) as V.
    inversion V as [| ? ? [R _] _]; subst.
    destruct (in_dec name_eq_dec p (names n)) as [I | N];
      [ | exfalso; apply N, in_names, R].
    assert (pending_weight (promises st p) <= potential n st).
    { unfold potential. clear - I.
      assert (pending_weight (promises st p)
              <= list_sum (map (fun q => pending_weight (promises st q)) (names n))).
      { induction (names n) as [| y l IH]; simpl; [destruct I | ].
        destruct I as [-> | I]; [lia | specialize (IH I); lia]. }
      lia. }
    rewrite E in H. simpl in H, W |- *. lia.
Qed.

Lemma potential_fulfill (p : name) (v : value) (st : state) (k b : nat) :
  shaped n st -> potential n st + k <= b -> potential n (fulfill p v st) + k <= b.
Proof.
  intros S B. unfold fulfill. destruct (promises st p) as [rs | w | w] eqn:E; auto.
  pose proof (potential_settle p (Fulfilled v) false v rs st S E eq_refl). lia.
Qed.

Lemma potential_reject (p : name) (v : value) (st : state) (k b : nat) :
  shaped n st -> potential n st + k <= b -> potential n (reject p v st) + k <= b.
Proof.
  intros S B. unfold reject. destruct (promises st p) as [rs | w | w] eqn:E; auto.
  pose proof (potential_settle p (Rejected v) true v rs st S E eq_refl). lia.
Qed.

(** A promise given to [resolve] costs a thenable job. *)
Definition thenable_cost (v : value) : nat :=
  match v with
  | VPromise _ => 2
  | _ => 0
  end.

Lemma potential_resolve (p : name) (v : value) (st : state) (k b : nat) :
  shaped n st -> potential n st + thenable_cost v + k <= b ->
  potential n (resolve p v st) + k <= b.
Proof.
  intros S B. unfold resolve.
  destruct (promises st p) as [rs | w | w] eqn:E; try lia.
  destruct v; try (apply potential_fulfill; [exact S | simpl in B; lia]).
  rewrite potential_enqueue, weight_one. simpl in *. lia.
Qed.

Lemma potential_register (p : name) (r : reaction) (st : state) (k b : nat) :
  in_range n p -> potential n st + reaction_weight r + k <= b ->
  potential n (register p r st) + k <= b.
Proof.
  intros R B. unfold register. destruct (promises st p) as [rs | w | w] eqn:E.
  - rewrite potential_store, E.
    destruct (in_dec name_eq_dec p (names n)) as [I | N];
      [ | exfalso; apply N, in_names, R].
    simpl. rewrite map_app, list_sum_app. simpl.
    assert (list_sum (map reaction_weight rs) <= potential n st).
    { unfold potential.
      assert (pending_weight (promises st p)
              <= list_sum (map (fun q => pending_weight (promises st q)) (names n))).
      { clear - I. induction (names n) as [| y l IH]; simpl; [destruct I | ].
        destruct I as [-> | I]; [lia | specialize (IH I); lia]. }
      rewrite E in H. simpl in H. lia. }
    lia.
  - rewrite potential_enqueue, weight_one. pose proof (job_weight_of false w r). lia.
  - rewrite potential_enqueue, weight_one. pose proof (job_weight_of true w r). lia.
Qed.

Lemma potential_same (st st' : state) (k b : nat) :
  queue st' = queue st -> promises st' = promises st ->
  questions st' = questions st ->
  potential n st + k <= b -> potential n st' + k <= b.
Proof. intros Q P X B. now rewrite (potential_frame st st' Q P X). Qed.

Lemma potential_emit (es : list event) (st : state) (k b : nat) :
  potential n st + k <= b -> potential n (emit es st) + k <= b.
Proof. now apply potential_same. Qed.

Lemma potential_exit (c : nat) (st : state) (k b : nat) :
  potential n st + k <= b -> potential n (exit c st) + k <= b.
Proof. now apply potential_same. Qed.

Lemma potential_set_fs (x : Inspector.filesystem) (st : state) (k b : nat) :
  potential n st + k <= b -> potential n (set_fs x st) + k <= b.
Proof. now apply potential_same. Qed.

Lemma potential_set_values (x : list (option value)) (st : state) (k b : nat) :
  potential n st + k <= b -> potential n (set_values x st) + k <= b.
Proof. now apply potential_same. Qed.

Lemma potential_set_remaining (x : nat) (st : state) (k b : nat) :
  potential n st + k <= b -> potential n (set_remaining x st) + k <= b.
Proof. now apply potential_same. Qed.

Lemma potential_store_k (p : name) (c : pstate) (st : state) (k b : nat) :
  pending_weight c = 0 ->
  potential n st + k <= b -> potential n (store p c st) + k <= b.
Proof. intros Z B. pose proof (potential_store_settled p c st Z). lia. Qed.

Lemma potential_resolve_k (p : name) (v : value) (st : state) (k b : nat) :
  shaped n st -> potential n st + (thenable_cost v + k) <= b ->
  potential n (resolve p v st) + k <= b.
Proof. intros S B. apply potential_resolve; [exact S | ]. now rewrite <- Nat.add_assoc. Qed.

Lemma potential_then_ (p : name) (f : callback) (d : name) (st : state) (k b : nat) :
  in_range n p ->
  potential n st + (reaction_weight (on_then f d) + k) <= b ->
  potential n (then_ p f d st) + k <= b.
Proof.
  intros R B. apply potential_register; [exact R | ].
  rewrite Nat.add_assoc in B. exact B.
Qed.

Lemma potential_catch_ (p : name) (f : callback) (d : name) (st : state) (k b : nat) :
  in_range n p ->
  potential n st + (reaction_weight (on_catch f d) + k) <= b ->
  potential n (catch_ p f d st) + k <= b.
Proof.
  intros R B. apply potential_register; [exact R | ].
  rewrite Nat.add_assoc in B. exact B.
Qed.

End Potential.

Ltac potential_step :=
  first
    [ apply potential_emit | apply potential_exit | apply potential_set_fs
    | apply potential_set_values | apply potential_set_remaining
    | apply potential_store_k; [reflexivity | ]
    | apply potential_then_; [simpl; assumption | ]
    | apply potential_catch_; [simpl; assumption | ]
    | apply potential_resolve_k; [TallyFacts.shaped_auto | ]
    | apply potential_fulfill; [TallyFacts.shaped_auto | ]
    | apply potential_reject; [TallyFacts.shaped_auto | ] ].

Section PotentialSteps.
Variable env : environment.
Variable o : options.
Variable n : nat.

Import Handlers TraceFacts.

Definition result_cost (c : completion) : nat :=
  match c with
  | Return v => thenable_cost v
  | Throw _ => 0
  end.

Lemma potential_delete_directory (i : nat) (dirpath : string) (st : state)
    (k b : nat) :
  shaped n st -> potential n st + k <= b ->
  potential n (delete_directory env i dirpath st) + k <= b.
Proof.
  intros S B. unfold delete_directory.
  repeat break_match; repeat potential_step; simpl; lia.
Qed.

Lemma potential_call (f : callback) (v : value) (st : state) :
  callback_in_range n f -> not_promise v -> shaped n st ->
  potential n (snd (call env o f v st)) + result_cost (fst (call env o f v st))
  <= potential n st + callback_cost f.
Proof.
  intros R N S. destruct f; simpl in R |- *.
  all: repeat break_match; simpl.
  all: try (apply potential_delete_directory; [TallyFacts.shaped_auto | ]).
  all: repeat potential_step; simpl; try lia.
  destruct v; simpl in N |- *; [lia .. | destruct N].
Qed.

Lemma potential_run_job (j : job) (st : state) :
  valid_job n j -> shaped n st ->
  potential n (run_job env o j st) + 1 <= potential n st + job_weight j.
Proof.
  intros V S. destruct j as [[f | ] t rej v | d q]; simpl.
  - destruct (valid_job_callback n f t rej v V) as [Tg [R N]].
    pose proof (potential_call f v st R N S) as P.
    destruct (shaped_call env o n f v st R N S) as [S1 _].
    destruct (call env o f v st) as [result st1]. simpl in P, S1.
    destruct (exited st1); [lia | ].
    destruct t as [p | ]; [ | lia].
    destruct result as [r | e].
    + assert (X : potential n (resolve p r st1) + 0 <= potential n st1 + thenable_cost r).
      { apply potential_resolve; [exact S1 | lia]. }
      simpl in P. clear S1 S. lia.
    + assert (X : potential n (reject p e st1) + 0 <= potential n st1).
      { apply potential_reject; [exact S1 | lia]. }
      simpl in P. clear S1 S. lia.
  - destruct (valid_job_pass n t rej v V) as [N [p [-> _]]].
    destruct rej.
    + assert (X : potential n (reject p v st) + 0 <= potential n st).
      { apply potential_reject; [exact S | lia]. }
      clear S. lia.
    + assert (X : potential n (fulfill p v st) + 0 <= potential n st).
      { apply potential_fulfill; [exact S | lia]. }
      clear S. lia.
  - destruct V as [R _].
    assert (X : potential n (register q (adopt d) st) + 0 <= potential n st + 1).
    { apply potential_register; [exact R | ].
      change (reaction_weight (adopt d)) with 1. clear. lia. }
    unfold adopt in X. clear S. lia.
Qed.

(** A turn takes at least one unit of potential. *)
Lemma potential_turn (st st' : state) :
  shaped n st -> turn env o st = Some st' ->
  potential n st' < potential n st.
Proof.
  intros S. unfold turn. destruct (exited st); [discriminate | ].
  destruct (queue st) as [| j rest] eqn:Q.
  - destruct (questions st) as [| i rest] eqn:A; [discriminate | ].
    intros E. injection E as <-.
    unfold on_answer. destruct (answered (answer env i)) as [c shown].
    assert (X : potential n (resolve (Of i Confirm) (VBool c)
                               (emit shown (set_questions rest st))) + 0
                <= potential n (set_questions rest st)).
    { apply potential_resolve.
      - apply shaped_emit. now apply shaped_set_questions.
      - change (thenable_cost (VBool c)) with 0.
        rewrite (potential_frame n (set_questions rest st)
                   (emit shown (set_questions rest st))) by reflexivity.
        clear. lia. }
    assert (Y : potential n (set_questions rest st) + 1 = potential n st).
    { unfold potential. simpl. rewrite A. simpl. lia. }
    clear S. lia.
  - intros E. injection E as <-.
    pose proof (jobs_valid n st S) as J. rewrite Q in J.
    assert (S' : shaped n (set_queue rest st)).
    { destruct S as [A B C]. constructor; simpl; auto. now inversion J. }
    pose proof (potential_run_job j (set_queue rest st)
                  ltac:(now inversion J) S') as P.
    assert (Y : potential n (set_queue rest st) + job_weight j = potential n st).
    { unfold potential. simpl. rewrite Q. simpl. lia. }
    clear S S'. lia.
Qed.

End PotentialSteps.

End FuelFacts.


(** * Further properties *)

(** ** The command line *)

Module ArgsMeaningFacts.

Import Args ArgsSpec ArgsFacts ArgsMeaning.

Lemma not_flag_cases (a : string) :
  is_flag a = false ->
  (a =? "--help")%string = false /\ (a =? "-h")%string = false
  /\ (a =? "--version")%string = false /\ (a =? "-v")%string = false
  /\ (a =? "--force")%string = false /\ (a =? "-f")%string = false
  /\ (a =? "--brutal")%string = false /\ (a =? "-b")%string = false
  /\ (a =? "--yes")%string = false /\ (a =? "-y")%string = false.
Proof.
  unfold is_flag. intros H.
  repeat (apply orb_false_iff in H; destruct H as [H ?]). tauto.
Qed.

Lemma loop_merge (args : list string) :
  forall o,
    loop o args = match find is_unknown args with
                  | Some a => UnknownOption a
                  | None => Parsed (merge o args)
                  end.
Proof.
  induction args as [| a rest IH]; intros o.
  - simpl. destruct o; unfold merge; simpl.
    now rewrite !orb_false_r, app_nil_r.
  - cbn [loop find]. unfold is_unknown at 1.
    destruct (is_flag a) eqn:F.
    + rewrite (step_flag a o F). cbn [negb andb]. rewrite IH.
      destruct (find is_unknown rest); [reflexivity | ].
      f_equal. apply is_flag_cases in F. simpl in F.
      destruct o as [fo ye br he ve ds]. unfold merge.
      cbn [filter].
      repeat (destruct F as [F | F];
              [subst a; simpl; f_equal; btauto | ]). contradiction.
    + destruct (not_flag_cases a F) as [E1 [E2 [E3 [E4 [E5 [E6 [E7 [E8 [E9 E10]]]]]]]]].
      unfold step. rewrite E1, E2, E3, E4, E5, E6, E7, E8, E9, E10. cbn [orb negb andb].
      destruct (String.prefix "-" a); [reflexivity | ].
      rewrite IH. destruct (find is_unknown rest); [reflexivity | ].
      f_equal. destruct o as [fo ye br he ve ds]. unfold merge, push_directory.
      cbn [force yes brutal help version directories filter has_any existsb].
      rewrite F, E1, E2, E3, E4, E5, E6, E7, E8, E9, E10. cbn [negb orb].
      now rewrite <- app_assoc.
Qed.

Lemma parseArgs_merge (args : list string) :
  parseArgs args = match find is_unknown args with
                   | Some a => UnknownOption a
                   | None => Parsed (parsed_options args)
                   end.
Proof. unfold parseArgs. rewrite loop_merge. reflexivity. Qed.

End ArgsMeaningFacts.

(** Property X1.  [parseArgs] stops at the first argument that starts with a
    dash and is none of the ten flags, with that argument; without such an
    argument every flag is set exactly when one of its two spellings is
    among the arguments, and the directories are the other arguments in
    their order. *)
Theorem parseArgs_meaning (args : list string) :
  Args.parseArgs args
  = match find ArgsMeaning.is_unknown args with
    | Some a => Args.UnknownOption a
    | None => Args.Parsed (ArgsMeaning.parsed_options args)
    end.
Proof. exact (ArgsMeaningFacts.parseArgs_merge args). Qed.

(** ** Inspection of a directory *)

Module InspectionFacts.

Import Inspector InspectorSpec InspectorFacts.

Lemma prefix_append (a b : string) : String.prefix a (a ++ b)%string = true.
Proof.
  induction a as [| c a IH]; simpl; [now destruct b | ].
  destruct (Ascii.ascii_dec c c) as [_ | N]; [exact IH | contradiction].
Qed.

Lemma includes_prefix (needle hay : string) :
  String.prefix needle hay = true -> Js.includes needle hay = true.
Proof. intros H. destruct hay; cbn [Js.includes]; rewrite H; reflexivity. Qed.

Lemma includes_append (needle a b : string) :
  Js.includes needle (a ++ needle ++ b)%string = true.
Proof.
  induction a as [| c a IH].
  - apply includes_prefix. exact (prefix_append needle b).
  - simpl. rewrite IH. apply orb_true_r.
Qed.

(** What is counted is part of the regular files below the directory. *)
Lemma counted_below (n : node) :
  (total (counted n) <= total (regular_files n))%N
  /\ List.length (counted n) <= List.length (regular_files n).
Proof.
  induction n using node_induction; simpl; try (split; lia).
  induction H as [| [nm child] rest Hc Hrest IH]; simpl; [split; lia | ].
  simpl in Hc. destruct child as [sz | listing | code message].
  - simpl. destruct IH. split; lia.
  - rewrite !total_app, !length_app. destruct IH, Hc. split; lia.
  - simpl. split; lia.
Qed.

End InspectionFacts.

(** Property X2.  [checkDirectory] answers [true] exactly for a path whose
    [statSync] succeeds on a directory, and then prints nothing; otherwise it
    prints exactly one line, which names the path, and for a path that does
    not exist that line is the "does not exist" one. *)
Theorem checkDirectory_answers (dirpath : string) (disk : Inspector.filesystem) :
  (fst (Inspector.checkDirectory dirpath disk) = true
   <-> exists listing, Inspector.stat dirpath disk = Inspector.Dir listing)
  /\ List.length (snd (Inspector.checkDirectory dirpath disk))
     = (if fst (Inspector.checkDirectory dirpath disk) then 0 else 1)
  /\ Forall (fun e => Js.includes dirpath e = true)
       (snd (Inspector.checkDirectory dirpath disk))
  /\ (Inspector.lookup dirpath disk = None ->
      snd (Inspector.checkDirectory dirpath disk)
      = [("Error: Directory '" ++ dirpath ++ "' does not exist")%string]).
Proof.
  unfold Inspector.checkDirectory, Inspector.stat.
  destruct (Inspector.lookup dirpath disk) as [[sz | listing | code message] | ];
    simpl.
  - split; [split; [discriminate | intros [l E]; discriminate E] | ].
    split; [reflexivity | split; [ | discriminate]].
    constructor; [ | constructor].
    apply (InspectionFacts.includes_append dirpath "Error: " " is not a directory").
  - split; [split; [eauto | reflexivity] | ].
    split; [reflexivity | split; [constructor | discriminate]].
  - destruct (code =? "ENOENT")%string; [ | destruct (code =? "EACCES")%string];
      (split; [split; [discriminate | intros [l X]; discriminate X] | ]);
      (split; [reflexivity | split; [ | discriminate]]);
      (constructor; [ | constructor]).
    + apply (InspectionFacts.includes_append dirpath "Error: Directory '"
               "' does not exist").
    + apply (InspectionFacts.includes_append dirpath
               "Error: Permission denied accessing '" "'").
    + apply (InspectionFacts.includes_append dirpath "Error: Unable to access '"
               ("': " ++ message)).
  - split; [split; [discriminate | intros [l E]; discriminate E] | ].
    split; [reflexivity | split; [ | reflexivity]].
    constructor; [ | constructor].
    apply (InspectionFacts.includes_append dirpath "Error: Directory '"
             "' does not exist").
Qed.

(** Property X3.  [getDirectorySize] never counts more than there is: the
    size it reports is at most the sum of the sizes of the regular files
    below the path, and its number of files at most their number. *)
Theorem getDirectorySize_never_exceeds (dirpath : string)
    (disk : Inspector.filesystem) :
  (Inspector.size (Inspector.getDirectorySize dirpath disk)
   <= InspectorSpec.total
        (InspectorSpec.regular_files (Inspector.stat dirpath disk)))%N
  /\ (Inspector.files (Inspector.getDirectorySize dirpath disk)
      <= N.of_nat
           (List.length
              (InspectorSpec.regular_files (Inspector.stat dirpath disk))))%N.
Proof.
  unfold Inspector.getDirectorySize.
  destruct (InspectorFacts.walkDir_counted (Inspector.stat dirpath disk)
              (Inspector.mkReport 0 0 0)) as [A B].
  destruct (InspectionFacts.counted_below (Inspector.stat dirpath disk)) as [C D].
  rewrite A, B. simpl. split; lia.
Qed.

(** Property X4.  The three inspections agree on an empty directory: where
    [isDirectoryEmpty] answers [true], [checkDirectory] answers [true]
    without a line and [getDirectorySize] reports no file, no byte and no
    error. *)
Theorem empty_directory_inspection (dirpath : string)
    (disk : Inspector.filesystem) :
  Inspector.isDirectoryEmpty dirpath disk = true ->
  Inspector.checkDirectory dirpath disk = (true, [])
  /\ Inspector.getDirectorySize dirpath disk = Inspector.mkReport 0 0 0.
Proof.
  unfold Inspector.isDirectoryEmpty, Inspector.checkDirectory,
    Inspector.getDirectorySize.
  destruct (Inspector.stat dirpath disk) as [sz | [[| e es] | ] | code message];
    simpl; intros H; try discriminate H. split; reflexivity.
Qed.

Lemma empty_directory_inspection_witness :
  Inspector.isDirectoryEmpty "d" [("d", Inspector.Dir (Some []))] = true
  /\ Inspector.checkDirectory "d" [("d", Inspector.Dir (Some []))] = (true, [])
  /\ Inspector.getDirectorySize "d" [("d", Inspector.Dir (Some []))]
     = Inspector.mkReport 0 0 0.
Proof.
  split; [reflexivity | ].
  apply (empty_directory_inspection "d" [("d", Inspector.Dir (Some []))]).
  reflexivity.
Defined.

(** ** Process ids *)

Module PidFacts.

Import Scanner ScannerSpec ScannerFacts PidSpec.

Lemma take_digits_all (s : string) : all_digits (Js.take_digits s) = true.
Proof.
  unfold all_digits. induction s as [| c s IH]; simpl; [reflexivity | ].
  destruct (Js.is_digit c) eqn:D; simpl; [now rewrite D | reflexivity].
Qed.

Lemma digit_facts (c : ascii) :
  Js.is_digit c = true ->
  Js.is_space c = false /\ c <> "-"%char /\ c <> "+"%char /\ c <> "x"%char
  /\ c <> "X"%char
  /\ exists d, Js.digit_value 10 c = Some d /\ (0 <= d)%Z.
Proof.
  destruct c as [[] [] [] [] [] [] [] []]; vm_compute; intros H;
    try discriminate H;
    (repeat split; try discriminate; eexists; split; [reflexivity | discriminate]).
Qed.

Lemma digits_from_nonneg (s : string) :
  forall acc, (0 <= acc)%Z ->
    exists z, Js.digits_from 10 (Some acc) s = Some z /\ (0 <= z)%Z.
Proof.
  induction s as [| c s IH]; intros acc A; simpl; [eauto | ].
  destruct (Js.digit_value 10 c) as [d | ] eqn:D; [ | eauto].
  apply IH.
  assert (0 <= d)%Z.
  { unfold Js.digit_value in D.
    repeat match type of D with
           | context [if ?b then _ else _] => destruct b eqn:?
           end; try discriminate D; injection D as <-; lia. }
  lia.
Qed.

(** [parseInt] of a string of digits is a number. *)
Lemma parseInt_digits (s : string) :
  s <> EmptyString -> all_digits s = true ->
  exists z, Js.parseInt s = Some z /\ (0 <= z)%Z.
Proof.
  destruct s as [| c r]; [congruence | ]. intros _ A.
  unfold all_digits in A. simpl in A. apply andb_true_iff in A. destruct A as [C R].
  destruct (digit_facts c C) as [Sp [Nm [Np [_ [_ [d [D Dn]]]]]]].
  assert (X : forall s' : string, s' = String c r ->
                (match s' with
                 | String "-" rest => (true, rest)
                 | String "+" rest => (false, rest)
                 | _ => (false, s')
                 end) = (false, String c r)).
  { intros s' ->.
    destruct c as [[] [] [] [] [] [] [] []]; try reflexivity; congruence. }
  assert (Y : (match String c r with
               | String "0" (String "x" rest) => (16%Z, rest)
               | String "0" (String "X" rest) => (16%Z, rest)
               | _ => (10%Z, String c r)
               end) = (10%Z, String c r)).
  { destruct r as [| c2 r2].
    - destruct c as [[] [] [] [] [] [] [] []]; reflexivity.
    - simpl in R. apply andb_true_iff in R. destruct R as [C2 _].
      destruct (digit_facts c2 C2) as [_ [_ [_ [Nx [NX _]]]]].
      destruct c as [[] [] [] [] [] [] [] []]; try reflexivity;
        destruct c2 as [[] [] [] [] [] [] [] []]; try reflexivity; congruence. }
  unfold Js.parseInt. cbn [Js.skip_spaces]. rewrite Sp.
  rewrite (X _ eq_refl), Y. cbn [Js.digits_from]. rewrite D.
  destruct (digits_from_nonneg r d Dn) as [z [Z Zn]]. rewrite Z. eauto.
Qed.

Lemma match_pid_digits (line digits : string) :
  Js.match_pid line = Some digits ->
  digits <> EmptyString /\ all_digits digits = true.
Proof.
  induction line as [| c line IH]; cbn [Js.match_pid].
  - unfold Js.match_pid_here.
    destruct (String.prefix "pid:" ""); [ | discriminate].
    destruct (Js.take_digits _) eqn:T; [discriminate | ].
    intros E. injection E as <-. split; [discriminate | ].
    rewrite <- T. apply take_digits_all.
  - destruct (Js.match_pid_here (String c line)) as [ds | ] eqn:M; [ | exact IH].
    intros E. injection E as <-. unfold Js.match_pid_here in M.
    destruct (String.prefix "pid:" (String c line)); [ | discriminate M].
    destruct (Js.take_digits _) eqn:T; [discriminate M | ].
    injection M as <-. split; [discriminate | ].
    rewrite <- T. apply take_digits_all.
Qed.

Lemma handle_line_shape (line : string) (p : process) :
  In p (handle_line line) ->
  name p = "Unknown"%string /\ exists z, pid p = Some z /\ (0 <= z)%Z.
Proof.
  unfold handle_line. destruct (Js.includes "pid:" line); [ | intros []].
  destruct (Js.match_pid line) as [digits | ] eqn:M; [ | intros []].
  intros [<- | []]. simpl. split; [reflexivity | ].
  destruct (match_pid_digits line digits M) as [N A].
  exact (parseInt_digits digits N A).
Qed.

Lemma lsof_line_shape (line : string) (p : process) :
  In p (lsof_line line) -> numbered p.
Proof.
  unfold lsof_line. destruct (2 <=? _)%nat; [ | intros []].
  destruct (Js.parseInt _) as [z | ]; [ | intros []].
  intros [<- | []]. simpl. unfold numbered. simpl. eauto.
Qed.

End PidFacts.

(** Property X5.  On a POSIX system, and on Windows when [handle.exe] runs,
    every process [getProcessesUsingDirectory] returns has a number as its
    pid: the [lsof] and [handle.exe] branches drop the lines whose pid does
    not parse. *)
Theorem scan_pids_are_numbers (s : Scanner.system) (dirpath : string) :
  Scanner.os_platform s = Scanner.Posix
  \/ (exists out, Scanner.execSync s (Scanner.HandleExe dirpath) = Scanner.Stdout out) ->
  Forall PidSpec.numbered (Scanner.getProcessesUsingDirectory s dirpath).
Proof.
  intros H. apply Forall_forall. intros p I.
  apply (proj1 (proj2 (ScannerFacts.getProcessesUsingDirectory_set s dirpath))) in I.
  unfold Scanner.collect in I.
  destruct (Scanner.os_platform s) eqn:P.
  - destruct H as [H | [out E]]; [discriminate H | ].
    rewrite E in I. destruct (negb _); [ | destruct I].
    apply in_flat_map in I. destruct I as [line [_ I]].
    destruct (PidFacts.handle_line_shape line p I) as [_ [z [Z _]]].
    exists z. exact Z.
  - destruct (Scanner.execSync s (Scanner.Lsof dirpath)); [ | destruct I].
    destruct (Js.trim_nonempty out); [ | destruct I].
    apply in_flat_map in I. destruct I as [line [_ I]].
    exact (PidFacts.lsof_line_shape line p I).
Qed.

Lemma scan_pids_are_numbers_witness :
  Forall PidSpec.numbered (Scanner.getProcessesUsingDirectory PidSpec.lsof_system "d").
Proof.
  apply (scan_pids_are_numbers PidSpec.lsof_system "d"). left. reflexivity.
Defined.

(** Property X6.  [getProcessesUsingDirectory] returns a set keyed by pid:
    no two of its processes have the same pid, each of them comes from a
    parsed line of the command's output, and the pid of every parsed line is
    there. *)
Theorem scan_is_a_set (s : Scanner.system) (dirpath : string) :
  NoDup (map Scanner.pid (Scanner.getProcessesUsingDirectory s dirpath))
  /\ incl (Scanner.getProcessesUsingDirectory s dirpath) (Scanner.collect s dirpath)
  /\ incl (map Scanner.pid (Scanner.collect s dirpath))
          (map Scanner.pid (Scanner.getProcessesUsingDirectory s dirpath)).
Proof.
  destruct (ScannerFacts.getProcessesUsingDirectory_set s dirpath) as [A [B C]].
  split; [exact A | split; [exact B | ]].
  intros x I. apply in_map_iff in I. destruct I as [p [<- I]]. exact (C p I).
Qed.

(** Property X7.  When every command the scan runs fails (tool missing,
    non-zero exit, timeout), [getProcessesUsingDirectory] resolves with the
    empty list: no error reaches the caller. *)
Theorem scan_failure_is_empty (s : Scanner.system) (dirpath : string) :
  (forall c, In c (Cli.scan_commands s dirpath) ->
             exists message, Scanner.execSync s c = Scanner.ExecError message) ->
  Scanner.getProcessesUsingDirectory s dirpath = [].
Proof.
  intros F. unfold Scanner.getProcessesUsingDirectory, Scanner.collect.
  unfold Cli.scan_commands in F.
  destruct (Scanner.os_platform s).
  - destruct (Scanner.execSync s (Scanner.HandleExe dirpath)) as [out | m1] eqn:E1.
    + destruct (F (Scanner.HandleExe dirpath) (or_introl eq_refl)) as [m X].
      rewrite E1 in X. discriminate X.
    + destruct (F (Scanner.Tasklist dirpath) (or_intror (or_introl eq_refl)))
        as [m2 ->].
      reflexivity.
  - destruct (F (Scanner.Lsof dirpath) (or_introl eq_refl)) as [m ->]. reflexivity.
Qed.

Lemma scan_failure_is_empty_witness :
  Scanner.getProcessesUsingDirectory ScannerSpec.stubborn_system "d" = [].
Proof.
  apply (scan_failure_is_empty ScannerSpec.stubborn_system "d").
  intros c _. exists "Command failed: kill -9"%string. reflexivity.
Defined.

(** Property X8.  [killProcesses] tries every process, whatever happened to
    the ones before: [killed] holds the processes whose kill command
    succeeded and [failed] the others, both in the order of the input; the
    promise is rejected exactly when some kill command failed, and resolved
    with [killed] otherwise. *)
Theorem killProcesses_partition (s : Scanner.system)
    (processes : list Scanner.process) :
  ScannerSpec.killed_of (Scanner.killProcesses s processes)
  = filter (ScannerSpec.kill_succeeds s) processes
  /\ ScannerSpec.failed_of (Scanner.killProcesses s processes)
     = filter (fun p => negb (ScannerSpec.kill_succeeds s p)) processes
  /\ ScannerSpec.is_rejected (Scanner.killProcesses s processes)
     = negb (forallb (ScannerSpec.kill_succeeds s) processes)
  /\ Permutation processes
       (ScannerSpec.killed_of (Scanner.killProcesses s processes)
        ++ ScannerSpec.failed_of (Scanner.killProcesses s processes)).
Proof.
  destruct (KillFacts.killProcesses_split s processes) as [A [B C]].
  split; [exact A | split; [exact B | split; [exact C | ]]].
  rewrite A, B. clear. induction processes as [| p l IH]; simpl; [constructor | ].
  destruct (ScannerSpec.kill_succeeds s p); simpl.
  - now constructor.
  - now apply Permutation_cons_app.
Qed.

(** ** The executor of a target *)

Module ExecutorFacts.

Import Promise Cli Graph Tally Fuel TraceSpec Handlers ExecutorSpec.
Import LoopFacts TraceFacts ShapeFacts TallyFacts FuelFacts.

Lemma promises_settle_other (rej : bool) (p q : name) (v : value) (st : state) :
  q <> p ->
  promises (if rej then reject p v st else fulfill p v st) q = promises st q.
Proof.
  intros N. unfold reject, fulfill.
  destruct rej; destruct (promises st p); try reflexivity;
    rewrite promises_enqueue; now apply promises_store_other.
Qed.

Lemma promises_resolve_plain_other (p q : name) (v : value) (st : state) :
  q <> p -> promises (resolve p v st) q = promises st q.
Proof.
  intros N. unfold resolve. destruct (promises st p); try reflexivity.
  destruct v; try apply (promises_settle_other false p q _ st N). reflexivity.
Qed.

Lemma reject_fresh (p : name) (v : value) (st : state) :
  promises st p = Pending [] ->
  queue (reject p v st) = queue st /\ promises (reject p v st) p = Rejected v.
Proof.
  intros P. unfold reject. rewrite P. rewrite queue_enqueue, promises_enqueue.
  rewrite promises_store_same. simpl. now rewrite app_nil_r.
Qed.

Lemma resolve_fresh (p : name) (b : bool) (st : state) :
  promises st p = Pending [] ->
  queue (resolve p (VBool b) st) = queue st
  /\ promises (resolve p (VBool b) st) p = Fulfilled (VBool b).
Proof.
  intros P. unfold resolve, fulfill. rewrite P. rewrite queue_enqueue, promises_enqueue.
  rewrite promises_store_same. simpl. now rewrite app_nil_r.
Qed.

Lemma ends_with_reject (i : nat) (message : string) (st st' : state)
    (events : list event) :
  logged st st' -> trace st' = trace st ++ events ->
  ends_with i st (reject (Of i Target) (VError message) st') events (fs st)
    (Rejected (VError message)).
Proof.
  intros [F [P [Q [A _]]]] T. unfold ends_with.
  rewrite trace_reject, fs_reject, questions_reject.
  split; [exact T | split; [exact F | split; [exact A | split]]].
  - intros p N. rewrite (promises_settle_other true (Of i Target) p _ st' N).
    now rewrite P.
  - intros X. rewrite <- P in X. rewrite <- Q.
    exact (reject_fresh (Of i Target) (VError message) st' X).
Qed.

Section Executor.
Variable env : environment.
Variable o : options.

Lemma delete_directory_effect (i : nat) (dirpath : string) (st st' : state)
    (events : list event) :
  logged st st' -> trace st' = trace st ++ events ->
  ends_with i st (delete_directory env i dirpath st')
    (events ++ [Rmdir dirpath; removal_line env dirpath])
    (removal_fs env dirpath (fs st)) (removal_state env dirpath).
Proof.
  intros [F [P [Q [A _]]]] T.
  unfold ends_with, delete_directory, rmdir, removal_line, removal_fs, removal_state.
  cbv zeta. destruct (rmdir_error env dirpath) as [message | ].
  - rewrite trace_reject, questions_reject, fs_reject, !trace_emit, !fs_emit,
      !questions_emit, T.
    split; [now rewrite <- !app_assoc | ].
    split; [exact F | split; [exact A | split]].
    + intros p N. rewrite (promises_settle_other true (Of i Target) p); auto.
      rewrite !promises_emit. now rewrite P.
    + intros X. rewrite <- P in X. rewrite <- Q.
      exact (reject_fresh (Of i Target) (VError message)
               (emit [Stderr ("Error deleting directory '" ++ dirpath ++ "': "
                              ++ message)%string]
                  (emit [Rmdir dirpath] st')) X).
  - rewrite trace_resolve, questions_resolve, fs_resolve, !trace_emit, !fs_emit,
      !questions_emit, trace_set_fs, questions_set_fs, !trace_emit,
      ?questions_emit, T.
    split; [now rewrite <- !app_assoc | ].
    split; [now rewrite fs_set_fs, F | split; [exact A | split]].
    + intros p N. rewrite promises_resolve_plain_other; auto.
      rewrite !promises_emit, promises_set_fs, promises_emit. now rewrite P.
    + intros X. rewrite <- P in X. rewrite <- Q.
      exact (resolve_fresh (Of i Target) true
               (emit [Stdout ("Successfully deleted: " ++ dirpath)%string]
                  (set_fs (Inspector.remove dirpath (fs (emit [Rmdir dirpath] st')))
                     (emit [Rmdir dirpath] st'))) X).
Qed.

Lemma logged_refl (st : state) : logged st st.
Proof. repeat split. Qed.

Lemma logged_emit (es : list event) (st st' : state) :
  logged st st' -> logged st (emit es st').
Proof. intros H. exact H. Qed.

Lemma executor_ends (i : nat) (dirpath : string) (st : state) :
  executor_end env o i dirpath st (rmdirWithConfirmation env o i dirpath st).
Proof.
  unfold rmdirWithConfirmation. cbv zeta.
  destruct (Inspector.checkDirectory dirpath _) as [ok errors].
  destruct (negb ok); [apply EndRejected; repeat apply logged_emit; apply logged_refl | ].
  destruct (negb (Inspector.isDirectoryEmpty dirpath _) && negb (force o)
            && negb (brutal o)).
  - apply EndRejected. destruct (Inspector.readdir _);
      repeat apply logged_emit; apply logged_refl.
  - destruct (negb (Inspector.isDirectoryEmpty dirpath _)).
    + apply EndChained. destruct (Inspector.readdir _);
        repeat apply logged_emit; apply logged_refl.
    + apply EndDeleted. destruct (Inspector.readdir _);
        repeat apply logged_emit; apply logged_refl.
Qed.

End Executor.

End ExecutorFacts.

(** Property X9.  The executor of an existing empty directory calls [rmdir]
    at once, whatever the flags: it asks nothing, queues nothing, starts no
    scan, touches no other promise, and its own promise is resolved with
    [true], or rejected with the error of [rmdir], before the executor
    returns. *)
Theorem empty_target_removed_at_once (env : Cli.environment) (o : Args.options)
    (i : nat) (dirpath : string) (st : Cli.state) :
  Inspector.stat dirpath (Cli.fs st) = Inspector.Dir (Some []) ->
  ExecutorSpec.ends_with i st (Cli.rmdirWithConfirmation env o i dirpath st)
    [Promise.CheckDirectory dirpath; Promise.IsDirectoryEmpty dirpath;
     Promise.Rmdir dirpath; ExecutorSpec.removal_line env dirpath]
    (ExecutorSpec.removal_fs env dirpath (Cli.fs st))
    (ExecutorSpec.removal_state env dirpath).
Proof.
  intros H. unfold Cli.rmdirWithConfirmation. cbv zeta.
  rewrite LoopFacts.fs_emit. unfold Inspector.checkDirectory. rewrite H.
  cbn [negb map]. rewrite !LoopFacts.fs_emit. unfold Inspector.isDirectoryEmpty.
  rewrite H. cbn [negb Inspector.readdir List.length Nat.eqb andb].
  apply (ExecutorFacts.delete_directory_effect env i dirpath st _
           [Promise.CheckDirectory dirpath; Promise.IsDirectoryEmpty dirpath]).
  - repeat split.
  - rewrite !LoopFacts.trace_emit, app_nil_r, <- app_assoc. reflexivity.
Qed.

Lemma empty_target_removed_at_once_witness :
  ExecutorSpec.ends_with 0 (Cli.initial_state [("d", Inspector.Dir (Some []))])
    (Cli.rmdirWithConfirmation (ExecutorSpec.plain_environment "n") Args.initial 0 "d"
       (Cli.initial_state [("d", Inspector.Dir (Some []))]))
    [Promise.CheckDirectory "d"; Promise.IsDirectoryEmpty "d";
     Promise.Rmdir "d"; ExecutorSpec.removal_line (ExecutorSpec.plain_environment "n") "d"]
    (ExecutorSpec.removal_fs (ExecutorSpec.plain_environment "n") "d"
       [("d", Inspector.Dir (Some []))])
    (ExecutorSpec.removal_state (ExecutorSpec.plain_environment "n") "d").
Proof.
  apply (empty_target_removed_at_once (ExecutorSpec.plain_environment "n")
           Args.initial 0 "d" (Cli.initial_state [("d", Inspector.Dir (Some []))])).
  reflexivity.
Defined.

(** Property X10.  Without [--force] and [--brutal], the executor of a
    directory that has entries, or whose listing cannot be read, prints the
    two lines of guidance and rejects its promise with "Directory not
    empty": [rmdir] is not called, the file system is as before, nothing is
    asked or queued. *)
Theorem nonempty_target_refused (env : Cli.environment) (o : Args.options)
    (i : nat) (dirpath : string) (st : Cli.state)
    (listing : option (list (string * Inspector.node))) :
  Inspector.stat dirpath (Cli.fs st) = Inspector.Dir listing ->
  listing <> Some [] ->
  Args.force o = false -> Args.brutal o = false ->
  ExecutorSpec.ends_with i st (Cli.rmdirWithConfirmation env o i dirpath st)
    ([Promise.CheckDirectory dirpath; Promise.IsDirectoryEmpty dirpath]
     ++ ExecutorSpec.listing_error listing ++ ExecutorSpec.refusal dirpath)
    (Cli.fs st) (Promise.Rejected (Promise.VError "Directory not empty")).
Proof.
  intros H N F B. unfold Cli.rmdirWithConfirmation. cbv zeta.
  rewrite LoopFacts.fs_emit. unfold Inspector.checkDirectory. rewrite H.
  cbn [negb map]. rewrite !LoopFacts.fs_emit. unfold Inspector.isDirectoryEmpty.
  rewrite H, F, B. cbn [Inspector.readdir].
  assert (E : negb match listing with
                   | Some files => (List.length files =? 0)%nat
                   | None => false
                   end = true).
  { destruct listing as [[| e es] | ]; [congruence | reflexivity | reflexivity]. }
  rewrite E. cbn [negb andb].
  apply ExecutorFacts.ends_with_reject.
  - destruct listing; repeat split.
  - unfold ExecutorSpec.refusal, ExecutorSpec.listing_error.
    destruct listing; rewrite !LoopFacts.trace_emit, <- ?app_assoc; reflexivity.
Qed.

Lemma nonempty_target_refused_witness :
  ExecutorSpec.ends_with 0
    (Cli.initial_state [("d", Inspector.Dir (Some [("f", Inspector.File 1)]))])
    (Cli.rmdirWithConfirmation (ExecutorSpec.plain_environment "y") Args.initial 0 "d"
       (Cli.initial_state [("d", Inspector.Dir (Some [("f", Inspector.File 1)]))]))
    ([Promise.CheckDirectory "d"; Promise.IsDirectoryEmpty "d"]
     ++ ExecutorSpec.listing_error (Some [("f", Inspector.File 1)])
     ++ ExecutorSpec.refusal "d")
    [("d", Inspector.Dir (Some [("f", Inspector.File 1)]))]
    (Promise.Rejected (Promise.VError "Directory not empty")).
Proof.
  apply (nonempty_target_refused (ExecutorSpec.plain_environment "y") Args.initial 0
           "d" (Cli.initial_state [("d", Inspector.Dir (Some [("f", Inspector.File 1)]))])
           (Some [("f", Inspector.File 1)])).
  - reflexivity.
  - discriminate.
  - reflexivity.
  - reflexivity.
Defined.

(** Property X11.  When [checkDirectory] answers [false], the executor stops
    there: after the one line of [checkDirectory] it rejects its promise with
    "Directory check failed"; [isDirectoryEmpty] and [rmdir] are not called,
    the file system is as before, nothing is asked or queued. *)
Theorem failed_check_rejects (env : Cli.environment) (o : Args.options)
    (i : nat) (dirpath : string) (st : Cli.state) :
  fst (Inspector.checkDirectory dirpath (Cli.fs st)) = false ->
  ExecutorSpec.ends_with i st (Cli.rmdirWithConfirmation env o i dirpath st)
    (Promise.CheckDirectory dirpath
     :: map Promise.Stderr (snd (Inspector.checkDirectory dirpath (Cli.fs st))))
    (Cli.fs st) (Promise.Rejected (Promise.VError "Directory check failed")).
Proof.
  intros H. unfold Cli.rmdirWithConfirmation. cbv zeta.
  rewrite LoopFacts.fs_emit.
  destruct (Inspector.checkDirectory dirpath (Cli.fs st)) as [ok errors].
  simpl in H. subst ok. cbn [negb fst snd].
  apply ExecutorFacts.ends_with_reject.
  - repeat split.
  - rewrite !LoopFacts.trace_emit, <- app_assoc. reflexivity.
Qed.

Lemma failed_check_rejects_witness :
  ExecutorSpec.ends_with 0 (Cli.initial_state [])
    (Cli.rmdirWithConfirmation (ExecutorSpec.plain_environment "y") Args.initial 0
       "missing" (Cli.initial_state []))
    (Promise.CheckDirectory "missing"
     :: map Promise.Stderr (snd (Inspector.checkDirectory "missing" [])))
    [] (Promise.Rejected (Promise.VError "Directory check failed")).
Proof.
  apply (failed_check_rejects (ExecutorSpec.plain_environment "y") Args.initial 0
           "missing" (Cli.initial_state [])).
  reflexivity.
Defined.

(** ** The run as a whole *)

Module RunFacts.

Import Promise Cli Graph Tally Fuel TraceSpec Handlers ExecutorSpec.
Import LoopFacts TraceFacts ShapeFacts TallyFacts FuelFacts ExecutorFacts.

Section Rest.
Variable env : environment.
Variable o : options.
Variable n : nat.

Lemma shaped_logged (st st' : state) :
  logged st st' -> shaped n st -> shaped n st'.
Proof. intros [_ [P [Q _]]]. now apply shaped_same. Qed.

Lemma potential_logged (st st' : state) :
  logged st st' -> potential n st' = potential n st.
Proof. intros [_ [P [Q [X _]]]]. now apply potential_frame. Qed.

Lemma run_rests (fuel : nat) :
  forall st, shaped n st -> potential n st <= fuel ->
             turn env o (run env o fuel st) = None.
Proof.
  induction fuel as [| fuel IH]; intros st S P; simpl.
  - destruct (turn env o st) as [st' | ] eqn:T; [ | reflexivity].
    pose proof (potential_turn env o n st st' S T). clear S. lia.
  - destruct (turn env o st) as [st' | ] eqn:T; [ | exact T].
    apply IH.
    + exact (shaped_turn env o n st st' S T).
    + pose proof (potential_turn env o n st st' S T). clear S. lia.
Qed.

Lemma potential_start_confirmDeletion (i : nat) (dirpath : string) (st : state) :
  potential n (start_confirmDeletion i dirpath o st) <= potential n st + 1.
Proof.
  unfold start_confirmDeletion. destruct (yes o).
  - pose proof (potential_store_settled n (Of i Confirm) (Fulfilled (VBool true)) st eq_refl).
    lia.
  - unfold potential. simpl. rewrite length_app. simpl. lia.
Qed.

Lemma potential_rmdirWithConfirmation (i : nat) (dirpath : string) (st : state) :
  i < n -> shaped n st ->
  potential n (rmdirWithConfirmation env o i dirpath st) <= potential n st + 12.
Proof.
  intros R S.
  destruct (executor_ends env o i dirpath st) as [st' m L | st' L | st' L];
    pose proof (potential_logged st st' L) as P;
    pose proof (shaped_logged st st' L S) as S'.
  - assert (X : potential n (reject (Of i Target) (VError m) st') + 0
                <= potential n st').
    { apply potential_reject; [exact S' | lia]. }
    clear S S'. lia.
  - assert (X : potential n (delete_directory env i dirpath st') + 0
                <= potential n st').
    { apply potential_delete_directory; [exact S' | lia]. }
    clear S S'. lia.
  - pose proof (potential_start_confirmDeletion i dirpath st') as Q.
    assert (X : potential n
                  (catch_ (Of i Deleted) (OnChainError i) (Of i Guarded)
                     (then_ (Of i Confirmed) (OnDelete i) (Of i Deleted)
                        (then_ (Of i Confirm) (OnConfirmed i) (Of i Confirmed)
                           (start_confirmDeletion i dirpath o st')))) + 0
                <= potential n (start_confirmDeletion i dirpath o st') + 11).
    { apply potential_catch_; [exact R | ].
      apply potential_then_; [exact R | ].
      apply potential_then_; [exact R | ].
      change (reaction_weight (on_catch (OnChainError i) (Of i Guarded))) with 1.
      change (reaction_weight (on_then (OnDelete i) (Of i Deleted))) with 1.
      change (reaction_weight (on_then (OnConfirmed i) (Of i Confirmed))) with 9.
      clear. lia. }
    clear S S'. lia.
Qed.

End Rest.

Section Targets.
Variable env : environment.
Variable o : options.
Variable n : nat.

Lemma potential_map_targets (dirs : list string) :
  forall i st,
    i + List.length dirs <= n -> shaped n st ->
    potential n (map_targets env o i dirs st)
    <= potential n st + 12 * List.length dirs.
Proof.
  induction dirs as [| d rest IH]; intros i st L Sh; simpl in *; [lia | ].
  pose proof (potential_rmdirWithConfirmation env o n i d st ltac:(lia) Sh) as P.
  pose proof (IH (S i) (rmdirWithConfirmation env o i d st) ltac:(lia)
                (shaped_rmdirWithConfirmation env o n i d st ltac:(lia) Sh)) as Q.
  clear Sh. lia.
Qed.

Lemma potential_watch_targets (count : nat) :
  forall i st,
    i + count <= n ->
    potential n (watch_targets i count st) <= potential n st + count.
Proof.
  induction count as [| count IH]; intros i st L; simpl; [lia | ].
  pose proof (IH (S i) (register (Of i Target)
                          (mkReaction (Some (ResolveElement i)) (Some RejectAll) None) st)
                ltac:(lia)) as Q.
  assert (X : potential n (register (Of i Target)
                             (mkReaction (Some (ResolveElement i)) (Some RejectAll) None) st) + 0
              <= potential n st + 1).
  { apply potential_register; [simpl; lia | ].
    change (reaction_weight
              (mkReaction (Some (ResolveElement i)) (Some RejectAll) None)) with 1.
    lia. }
  lia.
Qed.

End Targets.


Lemma potential_process_targets (env : environment) (o : options)
    (files : Inspector.filesystem) :
  potential (List.length (directories o)) (process_targets env o files)
  <= 13 * List.length (directories o) + 2.
Proof.
  set (n := List.length (directories o)).
  unfold process_targets, promise_all. fold n.
  set (st1 := map_targets env o 0 (directories o) (initial_state files)).
  assert (S1 : shaped n st1).
  { apply shaped_map_targets; [unfold n; lia | apply shaped_initial]. }
  assert (P1 : potential n st1 <= 12 * n).
  { pose proof (potential_map_targets env o n (directories o) 0 (initial_state files)
                  ltac:(unfold n; lia) (shaped_initial n files)) as P.
    fold st1 in P. fold n in P.
    assert (Z : potential n (initial_state files) = 0).
    { unfold potential. simpl. clear. induction (names n); simpl; auto. }
    clear S1. lia. }
  set (st2 := watch_targets 0 n (set_remaining n (set_values (repeat None n) st1))).
  assert (S2 : shaped n st2).
  { apply shaped_watch_targets; [lia | ].
    now apply shaped_set_remaining, shaped_set_values. }
  assert (P2 : potential n st2 <= 13 * n).
  { pose proof (potential_watch_targets n n 0
                  (set_remaining n (set_values (repeat None n) st1)) ltac:(lia)) as P.
    fold st2 in P.
    assert (Z : potential n (set_remaining n (set_values (repeat None n) st1))
                = potential n st1) by reflexivity.
    clear S1 S2. lia. }
  set (st3 := if Nat.eqb n 0 then resolve All (VArray []) st2 else st2).
  assert (S3 : shaped n st3).
  { unfold st3. destruct (Nat.eqb n 0); [ | exact S2].
    apply shaped_resolve; [exact I | exact S2]. }
  assert (P3 : potential n st3 <= 13 * n).
  { unfold st3. destruct (Nat.eqb n 0); [ | exact P2].
    assert (X : potential n (resolve All (VArray []) st2) + 0 <= potential n st2).
    { apply potential_resolve; [exact S2 | simpl; lia]. }
    clear S1 S2 S3. lia. }
  assert (X : potential n (catch_ Results OnFailure Failure
                             (then_ All OnResults Results st3)) + 0
              <= potential n st3 + 2).
  { apply potential_catch_; [exact I | ].
    apply potential_then_; [exact I | ].
    change (reaction_weight (on_catch OnFailure Failure)) with 1.
    change (reaction_weight (on_then OnResults Results)) with 1.
    clear. lia. }
  clear S1 S2 S3. lia.
Qed.

Lemma process_targets_rests (env : environment) (o : options)
    (files : Inspector.filesystem) (fuel : nat) :
  13 * List.length (directories o) + 2 <= fuel ->
  turn env o (run env o fuel (process_targets env o files)) = None.
Proof.
  intros F. apply (run_rests env o (List.length (directories o))).
  - apply shaped_process_targets.
  - pose proof (potential_process_targets env o files). lia.
Qed.

(** The two invariants hold all along the run. *)
Lemma run_shaped_tied (env : environment) (o : options)
    (files : Inspector.filesystem) (fuel : nat) :
  shaped (List.length (directories o)) (run env o fuel (process_targets env o files))
  /\ tied (List.length (directories o)) (run env o fuel (process_targets env o files)).
Proof.
  apply (run_keeps env o
           (fun st => shaped (List.length (directories o)) st
                      /\ tied (List.length (directories o)) st)).
  - intros st st' [S T] E. split.
    + exact (shaped_turn env o _ st st' S E).
    + exact (tied_turn env o _ st st' S T E).
  - split; [apply shaped_process_targets | apply tied_process_targets].
Qed.

(** *** Inspections happen in the synchronous part *)

Lemma late_quiet (e : event) : is_late e = true -> quiet e.
Proof. destruct e; simpl; intros H; try discriminate H; reflexivity. Qed.

Lemma prompt_quiet (dirpath : string) (o : options) (files : Inspector.filesystem) :
  Forall quiet (prompt dirpath o files).
Proof.
  unfold prompt. repeat (apply Forall_app; split).
  - repeat constructor.
  - apply Forall_repeat_intro. reflexivity.
  - repeat constructor.
  - destruct (brutal o); repeat constructor.
  - repeat constructor.
Qed.

Lemma filter_quiet (es : list event) : Forall quiet es -> filter is_check es = [].
Proof.
  induction 1 as [| e es Q _ IH]; simpl; [reflexivity | ].
  unfold quiet in Q. now rewrite Q.
Qed.

Section Checks.
Variable env : environment.
Variable o : options.

Lemma delete_directory_quiet (i : nat) (dirpath : string) (a b : state) :
  extends quiet a b -> extends quiet a (delete_directory env i dirpath b).
Proof.
  intros H. unfold delete_directory. repeat break_match; repeat extends_step; exact H.
Qed.

Lemma rmdirWithConfirmation_checks (i : nat) (dirpath : string) (st : state) :
  filter is_check (trace (rmdirWithConfirmation env o i dirpath st))
  = filter is_check (trace st) ++ [CheckDirectory dirpath].
Proof.
  assert (E : extends quiet (emit [CheckDirectory dirpath] st)
                (rmdirWithConfirmation env o i dirpath st)).
  { unfold rmdirWithConfirmation, start_confirmDeletion. cbv zeta.
    destruct (Inspector.checkDirectory dirpath _) as [ok errors].
    repeat break_match; try apply delete_directory_quiet; repeat extends_step.
    all: try apply prompt_quiet.
    all: destruct (brutal o); repeat constructor. }
  destruct E as [es [E Q]]. rewrite E, filter_app, (filter_quiet es Q), app_nil_r.
  rewrite trace_emit, filter_app. reflexivity.
Qed.

Lemma map_targets_checks (dirs : list string) :
  forall i st,
    filter is_check (trace (map_targets env o i dirs st))
    = filter is_check (trace st) ++ map CheckDirectory dirs.
Proof.
  induction dirs as [| d rest IH]; intros i st; simpl; [now rewrite app_nil_r | ].
  rewrite IH, rmdirWithConfirmation_checks, <- app_assoc. reflexivity.
Qed.

Lemma trace_watch_targets (count : nat) :
  forall i st, trace (watch_targets i count st) = trace st.
Proof.
  induction count as [| count IH]; intros i st; simpl; [reflexivity | ].
  now rewrite IH, trace_register.
Qed.

Lemma trace_process_targets (files : Inspector.filesystem) :
  trace (process_targets env o files)
  = trace (map_targets env o 0 (directories o) (initial_state files)).
Proof.
  unfold process_targets, promise_all, then_, catch_.
  rewrite !trace_register.
  destruct (Nat.eqb _ 0); rewrite ?trace_resolve, trace_watch_targets; reflexivity.
Qed.

End Checks.

(** An exited state takes no turn. *)
Lemma run_exited (env : environment) (o : options) (fuel : nat) (st : state)
    (c : nat) :
  exited st = Some c -> run env o fuel st = st.
Proof.
  intros E. destruct fuel as [| fuel]; simpl; [reflexivity | ].
  unfold turn. now rewrite E.
Qed.

End RunFacts.

(** Property X12.  Every [checkDirectory] call of a run is made while the
    promises are created, one per target and in the order of the command
    line, before any callback runs and before any question is answered; the
    callbacks that run later only print, run commands, call [rmdir] or exit:
    no target is inspected and no question is asked after the script's
    synchronous part. *)
Theorem inspections_come_first (env : Cli.environment) (o : Args.options)
    (files : Inspector.filesystem) (fuel : nat) :
  filter TraceSpec.is_check (Cli.trace (Cli.process_targets env o files))
  = map Promise.CheckDirectory (Args.directories o)
  /\ exists later,
       Cli.trace (Cli.run env o fuel (Cli.process_targets env o files))
       = Cli.trace (Cli.process_targets env o files) ++ later
       /\ forallb TraceSpec.is_late later = true.
Proof.
  split.
  - rewrite RunFacts.trace_process_targets, RunFacts.map_targets_checks. reflexivity.
  - destruct (TraceFacts.run_late env o fuel (Cli.process_targets env o files))
      as [es [E L]].
    exists es. split; [exact E | ].
    apply forallb_forall. intros e I.
    exact (proj1 (Forall_forall _ _) L e I).
Qed.

(** Property X13.  The event loop of a run with [n] targets comes to rest
    within [13 * n + 2] turns: after that many turns the script has exited
    or has neither a job nor a question left. *)
Theorem event_loop_rests (env : Cli.environment) (o : Args.options)
    (files : Inspector.filesystem) (fuel : nat) :
  13 * List.length (Args.directories o) + 2 <= fuel ->
  Cli.turn env o (Cli.run env o fuel (Cli.process_targets env o files)) = None.
Proof. exact (RunFacts.process_targets_rests env o files fuel). Qed.

Lemma event_loop_rests_witness :
  Cli.turn (ExecutorSpec.plain_environment "n")
    (Args.mkOptions true false false false false ["d"])
    (Cli.run (ExecutorSpec.plain_environment "n")
       (Args.mkOptions true false false false false ["d"]) 15
       (Cli.process_targets (ExecutorSpec.plain_environment "n")
          (Args.mkOptions true false false false false ["d"])
          [("d", Inspector.Dir (Some [("f", Inspector.File 1)]))]))
  = None.
Proof.
  apply (event_loop_rests (ExecutorSpec.plain_environment "n")
           (Args.mkOptions true false false false false ["d"])
           [("d", Inspector.Dir (Some [("f", Inspector.File 1)]))] 15).
  simpl. lia.
Defined.

(** Property X14.  A command line with an unknown option, with a help or
    version flag, or without any target never reaches the targets: the run
    only prints and exits, with status 1 for an unknown option (even when a
    help flag is there too) and for a missing target, with status 0 for help
    and version; the file system is as before. *)
Theorem main_early_exit (env : Cli.environment) (version : string) (fuel : nat)
    (args : list string) (files : Inspector.filesystem) (c : nat) :
  ExecutorSpec.early_status args = Some c ->
  Cli.exited (Cli.main env version fuel args files) = Some c
  /\ Cli.fs (Cli.main env version fuel args files) = files
  /\ exists lines,
       Cli.trace (Cli.main env version fuel args files) = lines ++ [Promise.Exit c]
       /\ forallb ExecutorSpec.is_print lines = true.
Proof.
  unfold ExecutorSpec.early_status, Cli.main, Cli.start.
  rewrite ArgsMeaningFacts.parseArgs_merge.
  assert (D : forall l : list string,
            Nat.eqb (List.length (filter (fun a => negb (Args.is_flag a)) l)) 0
            = negb (existsb (fun a => negb (Args.is_flag a)) l)).
  { induction l as [| a l IH]; simpl; [reflexivity | ].
    destruct (negb (Args.is_flag a)); simpl; [reflexivity | exact IH]. }
  destruct (find ArgsMeaning.is_unknown args) as [a | ].
  - intros E. injection E as <-.
    cbv beta iota. rewrite RunFacts.run_exited with (c := 1) by reflexivity.
    split; [reflexivity | split; [reflexivity | ]].
    exists (Promise.Stderr ("Unknown option: " ++ a) :: Cli.showUsage).
    split; reflexivity.
  - cbn [Args.help Args.version Args.directories ArgsMeaning.parsed_options].
    rewrite D.
    destruct (ArgsMeaning.has_any ["--help"; "-h"] args).
    + intros E. injection E as <-.
      cbv beta iota. rewrite RunFacts.run_exited with (c := 0) by reflexivity.
      split; [reflexivity | split; [reflexivity | ]].
      exists Cli.showUsage. split; reflexivity.
    + destruct (ArgsMeaning.has_any ["--version"; "-v"] args).
      * intros E. injection E as <-.
        cbv beta iota. rewrite RunFacts.run_exited with (c := 0) by reflexivity.
        split; [reflexivity | split; [reflexivity | ]].
        exists (Cli.showVersion version). split; reflexivity.
      * destruct (existsb (fun a => negb (Args.is_flag a)) args); [discriminate | ].
        intros E. injection E as <-. cbn [negb].
        cbv beta iota. rewrite RunFacts.run_exited with (c := 1) by reflexivity.
        split; [reflexivity | split; [reflexivity | ]].
        exists (Promise.Stderr "Error: No directory specified" :: Cli.showUsage).
        split; reflexivity.
Qed.

Lemma main_early_exit_witness :
  Cli.exited (Cli.main (ExecutorSpec.plain_environment "y") "1.0.0" 5
                ["--help"; "--bogus"; "d"] [("d", Inspector.Dir (Some []))])
  = Some 1
  /\ Cli.fs (Cli.main (ExecutorSpec.plain_environment "y") "1.0.0" 5
               ["--help"; "--bogus"; "d"] [("d", Inspector.Dir (Some []))])
     = [("d", Inspector.Dir (Some []))]
  /\ exists lines,
       Cli.trace (Cli.main (ExecutorSpec.plain_environment "y") "1.0.0" 5
                    ["--help"; "--bogus"; "d"] [("d", Inspector.Dir (Some []))])
       = lines ++ [Promise.Exit 1]
       /\ forallb ExecutorSpec.is_print lines = true.
Proof.
  apply (main_early_exit (ExecutorSpec.plain_environment "y") "1.0.0" 5
           ["--help"; "--bogus"; "d"] [("d", Inspector.Dir (Some []))] 1).
  reflexivity.
Defined.

(** Property X15.  Whenever a run over the targets has called
    [process.exit], the status tells what became of the targets: it is 0 and
    the promise of every target is fulfilled with [true], or it is 1 and the
    promise of some target is fulfilled with [false] or rejected. *)
Theorem exit_status_verdict (env : Cli.environment) (o : Args.options)
    (files : Inspector.filesystem) (fuel : nat) (c : nat) :
  Cli.exited (Cli.run env o fuel (Cli.process_targets env o files)) = Some c ->
  Tally.verdict (List.length (Args.directories o))
    (Cli.run env o fuel (Cli.process_targets env o files)) c.
Proof.
  intros E.
  destruct (RunFacts.run_shaped_tied env o files fuel) as [_ T].
  exact (Tally.exit_verdict _ _ T c E).
Qed.

Lemma exit_status_verdict_witness :
  Tally.verdict 1
    (Cli.run (ExecutorSpec.plain_environment "n")
       (Args.mkOptions true false false false false ["d"]) 15
       (Cli.process_targets (ExecutorSpec.plain_environment "n")
          (Args.mkOptions true false false false false ["d"])
          [("d", Inspector.Dir (Some [("f", Inspector.File 1)]))]))
    1.
Proof.
  apply (exit_status_verdict (ExecutorSpec.plain_environment "n")
           (Args.mkOptions true false false false false ["d"])
           [("d", Inspector.Dir (Some [("f", Inspector.File 1)]))] 15 1).
  vm_compute. reflexivity.
Defined.

Module DeclineFacts.

Import Promise Cli Graph Tally Fuel TraceSpec Handlers ExecutorSpec.
Import LoopFacts TraceFacts ShapeFacts TallyFacts FuelFacts ExecutorFacts RunFacts.

(** The executor of a directory with entries, under [--force] or
    [--brutal]: the confirmation and the chain behind it. *)
Lemma chained_executor (env : environment) (o : options) (i : nat)
    (dirpath : string) (st : state) (entry : string * Inspector.node)
    (entries : list (string * Inspector.node)) :
  Inspector.stat dirpath (fs st) = Inspector.Dir (Some (entry :: entries)) ->
  force o || brutal o = true ->
  rmdirWithConfirmation env o i dirpath st
  = catch_ (Of i Deleted) (OnChainError i) (Of i Guarded)
      (then_ (Of i Confirmed) (OnDelete i) (Of i Deleted)
         (then_ (Of i Confirm) (OnConfirmed i) (Of i Confirmed)
            (start_confirmDeletion i dirpath o
               (emit [IsDirectoryEmpty dirpath]
                  (emit [] (emit [CheckDirectory dirpath] st)))))).
Proof.
  intros H F. unfold rmdirWithConfirmation. cbv zeta.
  rewrite fs_emit. unfold Inspector.checkDirectory. rewrite H.
  cbn [negb map]. rewrite !fs_emit. unfold Inspector.isDirectoryEmpty.
  rewrite H. cbn [Inspector.readdir List.length Nat.eqb negb andb].
  destruct (force o), (brutal o); try discriminate F; reflexivity.
Qed.

Lemma run_step (env : environment) (o : options) (fuel : nat) (st st' : state) :
  turn env o st = Some st' -> run env o (S fuel) st = run env o fuel st'.
Proof. intros T. simpl. now rewrite T. Qed.

Lemma declined_run (env : environment) (o : options) (d : string)
    (files : Inspector.filesystem) (entry : string * Inspector.node)
    (entries : list (string * Inspector.node)) (fuel : nat) :
  directories o = [d] -> yes o = false -> force o || brutal o = true ->
  Inspector.stat d files = Inspector.Dir (Some (entry :: entries)) ->
  affirmative (answer env 0) = false ->
  fs (run env o (5 + fuel) (process_targets env o files)) = removal_fs env d files
  /\ exited (run env o (5 + fuel) (process_targets env o files)) = Some 1
  /\ trace (run env o (5 + fuel) (process_targets env o files))
     = [CheckDirectory d; IsDirectoryEmpty d] ++ prompt d o files
       ++ [Stdout "Operation cancelled."; Stdout ("Deleting directory: " ++ d);
           Rmdir d; removal_line env d;
           Stdout (String Scanner.newline "0 out of 1 directories deleted successfully.");
           Exit 1].
Proof.
  intros D Y F H A.
  unfold process_targets. rewrite D. cbn [map_targets List.length].
  rewrite (chained_executor env o 0 d (initial_state files) entry entries H F).
  unfold start_confirmDeletion. rewrite Y. rewrite !fs_emit.
  cbn [initial_state fs].
  generalize (prompt d o files). intros pr.
  unfold removal_fs, removal_line.
  destruct env as [sy rmerr ans]. destruct o as [fo ye br he ve ds].
  cbn [directories yes answer rmdir_error] in *. subst ds ye. clear H F.
  change (5 + fuel) with (S (S (S (S (S fuel))))).
  erewrite run_step; [ | cbv -[affirmative]; reflexivity].
  rewrite A.
  erewrite run_step; [ | cbv; reflexivity].
  erewrite run_step; [ | cbv; reflexivity].
  erewrite run_step; [ | cbv; reflexivity].
  destruct (rmerr d) as [message | ].
  - erewrite run_step; [ | cbv; reflexivity].
    rewrite run_exited with (c := 1) by reflexivity.
    split; [reflexivity | split; [reflexivity | ]].
    cbv [trace]. fold (@app event). rewrite <- !app_assoc. reflexivity.
  - erewrite run_step; [ | cbv; reflexivity].
    rewrite run_exited with (c := 1) by reflexivity.
    split; [reflexivity | split; [reflexivity | ]].
    cbv [trace]. fold (@app event). rewrite <- !app_assoc. reflexivity.
Qed.

End DeclineFacts.

(** Property X16.  Declining the confirmation does not keep the directory.
    In a run over one directory with entries, under [--force] or [--brutal]
    and without [--yes], an answer other than y or yes prints "Operation
    cancelled." and resolves the target's promise with [false], but the next
    callback of the chain still runs: it prints "Deleting directory", calls
    [rmdir], and the directory is removed before the summary "0 out of 1"
    and the exit with status 1. *)
Theorem declined_target_is_removed (env : Cli.environment) (o : Args.options)
    (d : string) (files : Inspector.filesystem) (entry : string * Inspector.node)
    (entries : list (string * Inspector.node)) (fuel : nat) :
  Args.directories o = [d] -> Args.yes o = false ->
  Args.force o || Args.brutal o = true ->
  Inspector.stat d files = Inspector.Dir (Some (entry :: entries)) ->
  Cli.affirmative (Cli.answer env 0) = false ->
  Cli.fs (Cli.run env o (5 + fuel) (Cli.process_targets env o files))
  = ExecutorSpec.removal_fs env d files
  /\ Cli.exited (Cli.run env o (5 + fuel) (Cli.process_targets env o files)) = Some 1
  /\ Cli.trace (Cli.run env o (5 + fuel) (Cli.process_targets env o files))
     = [Promise.CheckDirectory d; Promise.IsDirectoryEmpty d]
       ++ Cli.prompt d o files
       ++ [Promise.Stdout "Operation cancelled.";
           Promise.Stdout ("Deleting directory: " ++ d);
           Promise.Rmdir d; ExecutorSpec.removal_line env d;
           Promise.Stdout
             (String Scanner.newline "0 out of 1 directories deleted successfully.");
           Promise.Exit 1].
Proof. exact (DeclineFacts.declined_run env o d files entry entries fuel). Qed.

Lemma declined_target_is_removed_witness :
  Cli.fs (Cli.run (ExecutorSpec.plain_environment "n")
            (Args.mkOptions true false false false false ["d"]) (5 + 0)
            (Cli.process_targets (ExecutorSpec.plain_environment "n")
               (Args.mkOptions true false false false false ["d"])
               [("d", Inspector.Dir (Some [("f", Inspector.File 1)]))]))
  = ExecutorSpec.removal_fs (ExecutorSpec.plain_environment "n") "d"
      [("d", Inspector.Dir (Some [("f", Inspector.File 1)]))]
  /\ Cli.exited (Cli.run (ExecutorSpec.plain_environment "n")
                   (Args.mkOptions true false false false false ["d"]) (5 + 0)
                   (Cli.process_targets (ExecutorSpec.plain_environment "n")
                      (Args.mkOptions true false false false false ["d"])
                      [("d", Inspector.Dir (Some [("f", Inspector.File 1)]))]))
     = Some 1
  /\ Cli.trace (Cli.run (ExecutorSpec.plain_environment "n")
                  (Args.mkOptions true false false false false ["d"]) (5 + 0)
                  (Cli.process_targets (ExecutorSpec.plain_environment "n")
                     (Args.mkOptions true false false false false ["d"])
                     [("d", Inspector.Dir (Some [("f", Inspector.File 1)]))]))
     = [Promise.CheckDirectory "d"; Promise.IsDirectoryEmpty "d"]
       ++ Cli.prompt "d" (Args.mkOptions true false false false false ["d"])
            [("d", Inspector.Dir (Some [("f", Inspector.File 1)]))]
       ++ [Promise.Stdout "Operation cancelled.";
           Promise.Stdout ("Deleting directory: " ++ "d");
           Promise.Rmdir "d";
           ExecutorSpec.removal_line (ExecutorSpec.plain_environment "n") "d";
           Promise.Stdout
             (String Scanner.newline "0 out of 1 directories deleted successfully.");
           Promise.Exit 1].
Proof.
  apply (declined_target_is_removed (ExecutorSpec.plain_environment "n")
           (Args.mkOptions true false false false false ["d"]) "d"
           [("d", Inspector.Dir (Some [("f", Inspector.File 1)]))]
           ("f", Inspector.File 1) [] 0); reflexivity.
Defined.

Module BlockFacts.

Import Promise Cli Graph Tally Fuel TraceSpec Handlers ExecutorSpec.
Import LoopFacts TraceFacts ShapeFacts TallyFacts FuelFacts ExecutorFacts RunFacts.
Import DeclineFacts.

(** The executor of a path that fails the check. *)
Lemma rejected_executor (env : environment) (o : options) (i : nat)
    (dirpath : string) (st : state) (errors : list string) :
  Inspector.checkDirectory dirpath (fs st) = (false, errors) ->
  rmdirWithConfirmation env o i dirpath st
  = reject (Of i Target) (VError "Directory check failed")
      (emit (map Stderr errors) (emit [CheckDirectory dirpath] st)).
Proof.
  intros H. unfold rmdirWithConfirmation. cbv zeta.
  rewrite fs_emit, H. reflexivity.
Qed.

Lemma blocked_run (env : environment) (o : options) (a b : string)
    (files : Inspector.filesystem) (errors : list string)
    (entry : string * Inspector.node)
    (entries : list (string * Inspector.node)) (fuel : nat) :
  directories o = [a; b] -> yes o = true -> force o = true -> brutal o = false ->
  Inspector.checkDirectory a files = (false, errors) ->
  Inspector.stat b files = Inspector.Dir (Some (entry :: entries)) ->
  fs (run env o (6 + fuel) (process_targets env o files)) = files
  /\ exited (run env o (6 + fuel) (process_targets env o files)) = Some 1
  /\ trace (run env o (6 + fuel) (process_targets env o files))
     = [CheckDirectory a] ++ map Stderr errors
       ++ [CheckDirectory b; IsDirectoryEmpty b;
           Stderr "Operation failed: Directory check failed"; Exit 1].
Proof.
  intros D Y F B Ha Hb.
  unfold process_targets. rewrite D. cbn [map_targets List.length].
  rewrite (rejected_executor env o 0 a (initial_state files) errors Ha).
  rewrite (chained_executor env o 1 b _ entry entries).
  2: { rewrite fs_reject, !fs_emit. exact Hb. }
  2: { rewrite F. reflexivity. }
  unfold start_confirmDeletion. rewrite Y.
  generalize (map Stderr errors). intros shown.
  destruct env as [sy rmerr ans]. destruct o as [fo ye br he ve ds].
  cbn [directories yes force brutal] in *. subst ds ye fo br. clear Ha Hb.
  change (6 + fuel) with (S (S (S (S (S (S fuel)))))).
  do 6 (erewrite run_step; [ | cbv; reflexivity]).
  rewrite run_exited with (c := 1) by reflexivity.
  split; [reflexivity | split; [reflexivity | ]].
  cbv [trace]. fold (@app event). rewrite <- !app_assoc. reflexivity.
Qed.

End BlockFacts.

(** Property X17.  A target that fails can keep another one from being
    deleted.  In a run over two paths with [--force] and [--yes], where the
    first fails [checkDirectory] and the second is a directory with entries,
    the rejection of the first promise rejects [Promise.all], and the
    [catch] callback exits with status 1 after "Operation failed: Directory
    check failed", before the deletion callback of the second target runs:
    [rmdir] is never called, the file system is as before, and no summary is
    printed. *)
Theorem failed_target_blocks_the_next (env : Cli.environment) (o : Args.options)
    (a b : string) (files : Inspector.filesystem) (errors : list string)
    (entry : string * Inspector.node)
    (entries : list (string * Inspector.node)) (fuel : nat) :
  Args.directories o = [a; b] -> Args.yes o = true -> Args.force o = true ->
  Args.brutal o = false ->
  Inspector.checkDirectory a files = (false, errors) ->
  Inspector.stat b files = Inspector.Dir (Some (entry :: entries)) ->
  Cli.fs (Cli.run env o (6 + fuel) (Cli.process_targets env o files)) = files
  /\ Cli.exited (Cli.run env o (6 + fuel) (Cli.process_targets env o files)) = Some 1
  /\ Cli.trace (Cli.run env o (6 + fuel) (Cli.process_targets env o files))
     = [Promise.CheckDirectory a] ++ map Promise.Stderr errors
       ++ [Promise.CheckDirectory b; Promise.IsDirectoryEmpty b;
           Promise.Stderr "Operation failed: Directory check failed";
           Promise.Exit 1].
Proof. exact (BlockFacts.blocked_run env o a b files errors entry entries fuel). Qed.

Lemma failed_target_blocks_the_next_witness :
  Cli.fs (Cli.run (ExecutorSpec.plain_environment "y")
            (Args.mkOptions true true false false false ["a"; "b"]) (6 + 0)
            (Cli.process_targets (ExecutorSpec.plain_environment "y")
               (Args.mkOptions true true false false false ["a"; "b"])
               [("b", Inspector.Dir (Some [("f", Inspector.File 1)]))]))
  = [("b", Inspector.Dir (Some [("f", Inspector.File 1)]))]
  /\ Cli.exited (Cli.run (ExecutorSpec.plain_environment "y")
                   (Args.mkOptions true true false false false ["a"; "b"]) (6 + 0)
                   (Cli.process_targets (ExecutorSpec.plain_environment "y")
                      (Args.mkOptions true true false false false ["a"; "b"])
                      [("b", Inspector.Dir (Some [("f", Inspector.File 1)]))]))
     = Some 1
  /\ Cli.trace (Cli.run (ExecutorSpec.plain_environment "y")
                  (Args.mkOptions true true false false false ["a"; "b"]) (6 + 0)
                  (Cli.process_targets (ExecutorSpec.plain_environment "y")
                     (Args.mkOptions true true false false false ["a"; "b"])
                     [("b", Inspector.Dir (Some [("f", Inspector.File 1)]))]))
     = [Promise.CheckDirectory "a"]
       ++ map Promise.Stderr ["Error: Directory 'a' does not exist"]
       ++ [Promise.CheckDirectory "b"; Promise.IsDirectoryEmpty "b";
           Promise.Stderr "Operation failed: Directory check failed";
           Promise.Exit 1].
Proof.
  apply (failed_target_blocks_the_next (ExecutorSpec.plain_environment "y")
           (Args.mkOptions true true false false false ["a"; "b"]) "a" "b"
           [("b", Inspector.Dir (Some [("f", Inspector.File 1)]))]
           ["Error: Directory 'a' does not exist"]
           ("f", Inspector.File 1) [] 0); reflexivity.
Defined.

(** ** Every run exits *)

Module LiveFacts.

Import Promise Cli Graph Tally Fuel TraceSpec Handlers ExecutorSpec Liveness.
Import LoopFacts TraceFacts ShapeFacts ListFacts TallyFacts FuelFacts ExecutorFacts RunFacts.

Lemma leads_then (f : callback) (d : name) :
  target_of f = Some d -> leads (on_then f d) d.
Proof. intros T [] v; destruct f; simpl in *; congruence. Qed.

Lemma leads_catch (f : callback) (d : name) :
  target_of f = Some d -> leads (on_catch f d) d.
Proof. intros T [] v; destruct f; simpl in *; congruence. Qed.

Lemma leads_adopt (d : name) : leads (adopt d) d.
Proof. intros [] v; reflexivity. Qed.

Lemma pending_has (st : state) (p : name) (r : reaction) :
  has_reaction st p r -> pending st p.
Proof. intros [rs [P _]]. now exists rs. Qed.

(** *** Steps that only add *)

Section Grow.
Variable g : bool.
Variable k : nat.

Lemma sourced_grow (vq vq' : list job) (st st' : state) (p : name) :
  (forall j, In j vq -> In j vq') ->
  (forall q r, has_reaction st q r -> has_reaction st' q r) ->
  (forall i, In i (questions st) ->
             In i (questions st') \/ ~ pending st' (Of i Confirm)) ->
  pending st' p ->
  sourced vq st p -> sourced vq' st' p.
Proof.
  intros A B C P [[j [I D]] | [[q [r [R [H L]]]] | [i [E I]]]].
  - left. exists j. auto.
  - right. left. exists q, r. auto.
  - right. right. exists i. split; [exact E | ].
    destruct (C i I) as [I' | N]; [exact I' | ]. subst p. destruct (N P).
Qed.

Lemma live_grow (vq vq' : list job) (st st' : state) :
  (forall j, In j vq -> In j vq') ->
  (forall q r, has_reaction st q r -> has_reaction st' q r) ->
  (forall p, pending st' p -> pending st p) ->
  (forall i, In i (questions st) ->
             In i (questions st') \/ ~ pending st' (Of i Confirm)) ->
  values st' = values st -> remaining st' = remaining st ->
  (exited st' = None -> exited st = None) ->
  (forall p, minor p -> pending st' p -> awaited vq' st' p ->
             awaited vq st p \/ sourced vq' st' p) ->
  (forall d q, In (Thenable d q) vq' -> born_settled q ->
               In (Thenable d q) vq \/ ~ pending st' q) ->
  (forall q r, born_settled q -> has_reaction st' q r -> has_reaction st q r) ->
  live g k vq st -> live g k vq' st'.
Proof.
  intros A B C D V R X F T N [L1 L2 L3 L4 L5 L6 L7]. constructor.
  - intros p M P W. destruct (F p M P W) as [W0 | S]; [ | exact S].
    apply (sourced_grow vq vq' st st' p A B D P). apply L1; auto.
  - intros i K P. destruct (L2 i K (C _ P)) as [[j [I H]] | H].
    + left. exists j. auto.
    + right. auto.
  - intros d q I Bq. destruct (T d q I Bq) as [I0 | S]; [ | exact S].
    intros P. exact (L3 d q I0 Bq (C _ P)).
  - intros q r Bq H. exact (L4 q r Bq (N q r Bq H)).
  - intros G P i I H. rewrite V in I, H.
    destruct (L5 G (C _ P) i I H) as [W | [j [J W]]].
    + left. auto.
    + right. exists j. auto.
  - intros G P. rewrite R. exact (L6 G (C _ P)).
  - intros G E. destruct (L7 G (X E)) as [[j [I H]] | [Hr [Ha | [j [I H]]]]].
    + left. exists j. auto.
    + right. split; [auto | left; auto].
    + right. split; [auto | right; exists j; auto].
Qed.

(** A state with the same promises and questions. *)
Lemma live_same (vq : list job) (st st' : state) :
  promises st' = promises st -> questions st' = questions st ->
  values st' = values st -> remaining st' = remaining st ->
  (exited st' = None -> exited st = None) ->
  live g k vq st -> live g k vq st'.
Proof.
  intros P Q V R X. apply live_grow; auto.
  - intros q r [rs [H I]]. exists rs. now rewrite P.
  - intros p [rs H]. exists rs. now rewrite <- P.
  - intros i I. left. now rewrite Q.
  - intros p M [rs H] [[r [rs' [H' I]]] | W]; left; [left | right; exact W].
    exists r, rs'. now rewrite <- P.
  - intros q r B [rs [H I]]. exists rs. now rewrite <- P.
Qed.

End Grow.


(** *** The primitives *)

Section Primitives.
Variable g : bool.
Variable k : nat.
Variable x : list job.

Lemma live_enqueue (js : list job) (st : state) :
  (forall j, In j js -> is_thenable j = false) ->
  live g k (x ++ queue st) st ->
  live g k (x ++ queue (enqueue js st)) (enqueue js st).
Proof.
  intros T. apply live_grow; auto.
  - intros j I. rewrite queue_enqueue. apply in_app_iff in I.
    apply in_app_iff. destruct I; [auto | right; apply in_app_iff; auto].
  - intros p M P [W | [d I]]; left; [left; exact W | right; exists d].
    rewrite queue_enqueue in I. apply in_app_iff in I. apply in_app_iff.
    destruct I as [I | I]; [auto | ]. apply in_app_iff in I.
    destruct I as [I | I]; [auto | ]. apply T in I. discriminate I.
  - intros d q I B. left.
    rewrite queue_enqueue in I. apply in_app_iff in I. apply in_app_iff.
    destruct I as [I | I]; [auto | ]. apply in_app_iff in I.
    destruct I as [I | I]; [auto | ]. apply T in I. discriminate I.
Qed.

Lemma has_reaction_store_other (p : name) (c : pstate) (st : state) (q : name)
    (r : reaction) :
  q <> p -> has_reaction st q r -> has_reaction (store p c st) q r.
Proof.
  intros N [rs [H I]]. exists rs. split; [ | exact I].
  now rewrite promises_store_other.
Qed.

Lemma has_reaction_store_back (p : name) (c : pstate) (st : state) (q : name)
    (r : reaction) :
  q <> p -> has_reaction (store p c st) q r -> has_reaction st q r.
Proof.
  intros N [rs [H I]]. exists rs. split; [ | exact I].
  now rewrite promises_store_other in H.
Qed.

Lemma pending_store_back (p : name) (c : pstate) (st : state) (q : name) :
  q <> p -> pending (store p c st) q -> pending st q.
Proof.
  intros N [rs H]. exists rs. now rewrite promises_store_other in H.
Qed.

(** A promise without reactions is stored as settled. *)
Lemma live_store_settled (p : name) (c : pstate) (st : state) :
  (forall r, ~ has_reaction st p r) -> (forall rs, c <> Pending rs) ->
  live g k (x ++ queue st) st ->
  live g k (x ++ queue (store p c st)) (store p c st).
Proof.
  intros B C.
  assert (N : forall q, pending (store p c st) q -> q <> p).
  { intros q [rs H] ->. rewrite promises_store_same in H. exact (C rs H). }
  apply live_grow; auto.
  - intros q r H. apply has_reaction_store_other; [ | exact H].
    intros ->. exact (B r H).
  - intros q P. exact (pending_store_back p c st q (N q P) P).
  - intros q M P [[r W] | W]; left; [left; exists r | right; exact W].
    exact (has_reaction_store_back p c st q r (N q P) W).
  - intros q r Bq H.
    exact (has_reaction_store_back p c st q r (N q (pending_has _ _ _ H)) H).
Qed.

(** A reaction is registered on a promise that has a source. *)
Lemma live_register (q : name) (r : reaction) (st : state) :
  (minor q -> pending st q -> sourced (x ++ queue st) st q) ->
  (born_settled q -> ~ pending st q) ->
  live g k (x ++ queue st) st ->
  live g k (x ++ queue (register q r st)) (register q r st).
Proof.
  intros S B. unfold register. destruct (promises st q) as [rs | v | v] eqn:P.
  - assert (H1 : forall q' r', has_reaction st q' r' ->
                   has_reaction (store q (Pending (rs ++ [r])) st) q' r').
    { intros q' r' [rs' [H I]]. destruct (name_eq_dec q' q) as [-> | N].
      - exists (rs ++ [r]). rewrite promises_store_same. split; [reflexivity | ].
        rewrite P in H. injection H as <-. apply in_app_iff. auto.
      - exists rs'. now rewrite promises_store_other. }
    assert (H2 : forall q', pending (store q (Pending (rs ++ [r])) st) q' ->
                            pending st q').
    { intros q' [rs' H]. destruct (name_eq_dec q' q) as [-> | N].
      - now exists rs.
      - exists rs'. now rewrite promises_store_other in H. }
    apply live_grow; auto.
    + intros p M Pp W. destruct (name_eq_dec p q) as [-> | N].
      * right. apply (sourced_grow (x ++ queue st) _ st); auto.
      * left. destruct W as [[r' W] | W]; [left; exists r' | right; exact W].
        exact (has_reaction_store_back q _ st p r' N W).
    + intros q' r' Bq H. destruct (name_eq_dec q' q) as [-> | N].
      * exfalso. apply (B Bq). now exists rs.
      * exact (has_reaction_store_back q _ st q' r' N H).
  - apply live_enqueue. intros j [<- | []]. reflexivity.
  - apply live_enqueue. intros j [<- | []]. reflexivity.
Qed.

(** After [register], the promise the reaction leads to has a source. *)
Lemma sourced_register (q : name) (r : reaction) (st : state) (p : name) :
  leads r p -> rank q < rank p ->
  sourced (x ++ queue (register q r st)) (register q r st) p.
Proof.
  intros L R. unfold register. destruct (promises st q) as [rs | v | v] eqn:P.
  - right. left. exists q, r. split; [exact R | split; [ | exact L]].
    exists (rs ++ [r]). rewrite promises_store_same. split; [reflexivity | ].
    apply in_app_iff. right. now left.
  - left. exists (job_of false v r). split; [ | apply L].
    rewrite queue_enqueue. apply in_app_iff. right. apply in_app_iff. right. now left.
  - left. exists (job_of true v r). split; [ | apply L].
    rewrite queue_enqueue. apply in_app_iff. right. apply in_app_iff. right. now left.
Qed.

(** A promise is resolved with a promise that has a source. *)
Lemma live_thenable (d q : name) (st : state) :
  (minor q -> pending st q -> sourced (x ++ queue st) st q) ->
  (born_settled q -> ~ pending st q) ->
  live g k (x ++ queue st) st ->
  live g k (x ++ queue (resolve d (VPromise q) st)) (resolve d (VPromise q) st).
Proof.
  intros S B. unfold resolve. destruct (promises st d) as [rs | v | v]; auto.
  assert (A : forall j, In j (x ++ queue st) ->
                        In j (x ++ queue (enqueue [Thenable d q] st))).
  { intros j I. rewrite queue_enqueue. apply in_app_iff in I.
    apply in_app_iff. destruct I; [auto | right; apply in_app_iff; auto]. }
  assert (C : forall d' q', In (Thenable d' q') (x ++ queue (enqueue [Thenable d q] st)) ->
                            In (Thenable d' q') (x ++ queue st) \/ q' = q).
  { intros d' q' I. rewrite queue_enqueue in I. apply in_app_iff in I.
    destruct I as [I | I]; [left; apply in_app_iff; auto | ].
    apply in_app_iff in I. destruct I as [I | [I | []]].
    - left. apply in_app_iff; auto.
    - right. now injection I. }
  apply live_grow; auto.
  - intros p M P [W | [d' I]]; [left; left; exact W | ].
    destruct (C d' p I) as [I0 | ->].
    + left. right. now exists d'.
    + right. apply (sourced_grow (x ++ queue st) _ st); auto.
  - intros d' q' I Bq. destruct (C d' q' I) as [I0 | ->]; [now left | right; auto].
Qed.


(** A pending promise is settled: its reactions become jobs. *)
Lemma live_settled (rej : bool) (p : name) (v : value) (rs : list reaction)
    (st : state) :
  promises st p = Pending rs ->
  (rej = false -> forall i, p = Of i Deleted -> ~ pending st (Of i Target)) ->
  (rej = false -> p <> Results) ->
  live g k (x ++ queue st) st ->
  live g k
    (x ++ queue (enqueue (map (job_of rej v) rs)
                   (store p (if rej then Rejected v else Fulfilled v) st)))
    (enqueue (map (job_of rej v) rs)
       (store p (if rej then Rejected v else Fulfilled v) st)).
Proof.
  intros P D R [L1 L2 L3 L4 L5 L6 L7].
  set (c := if rej then Rejected v else Fulfilled v).
  set (st' := enqueue (map (job_of rej v) rs) (store p c st)).
  assert (C : forall rs', c <> Pending rs') by (intros rs'; unfold c; destruct rej; discriminate).
  assert (F1 : forall q, pending st' q -> q <> p /\ pending st q).
  { intros q [rs' H]. unfold st' in H. rewrite promises_enqueue in H.
    destruct (name_eq_dec q p) as [-> | N].
    - rewrite promises_store_same in H. destruct (C rs' H).
    - split; [exact N | ]. exists rs'. now rewrite promises_store_other in H. }
  assert (F2 : forall q r, has_reaction st' q r -> q <> p /\ has_reaction st q r).
  { intros q r H. destruct (F1 q (pending_has _ _ _ H)) as [N _].
    split; [exact N | ]. exact (has_reaction_store_back p c st q r N H). }
  assert (F2' : forall q r, q <> p -> has_reaction st q r -> has_reaction st' q r).
  { intros q r N H. exact (has_reaction_store_other p c st q r N H). }
  assert (F3 : forall j, In j (x ++ queue st) -> In j (x ++ queue st')).
  { intros j I. unfold st'. rewrite queue_enqueue. apply in_app_iff in I.
    apply in_app_iff. destruct I; [auto | right; apply in_app_iff; auto]. }
  assert (F4 : forall r, In r rs -> In (job_of rej v r) (x ++ queue st')).
  { intros r I. unfold st'. rewrite queue_enqueue. apply in_app_iff. right.
    apply in_app_iff. right. now apply in_map. }
  assert (F5 : forall d q, In (Thenable d q) (x ++ queue st') ->
                           In (Thenable d q) (x ++ queue st)).
  { intros d q I. unfold st' in I. rewrite queue_enqueue in I.
    apply in_app_iff in I. apply in_app_iff.
    destruct I as [I | I]; [auto | ]. apply in_app_iff in I.
    destruct I as [I | I]; [auto | ].
    apply in_map_iff in I. destruct I as [r [E _]]. discriminate E. }
  assert (F6 : forall q r, has_reaction st q r ->
                 has_reaction st' q r \/ (q = p /\ In (job_of rej v r) (x ++ queue st'))).
  { intros q r H. destruct (name_eq_dec q p) as [-> | N]; [right | left; auto].
    split; [reflexivity | ]. destruct H as [rs' [H I]].
    rewrite P in H. injection H as <-. auto. }
  constructor.
  - intros q M Pq W. destruct (F1 q Pq) as [N Pq0].
    assert (W0 : awaited (x ++ queue st) st q).
    { destruct W as [[r W] | [d W]]; [left; exists r; now apply F2 | right; exists d; auto]. }
    destruct (L1 q M Pq0 W0) as [[j [I E]] | [[q' [r [Rk [H L]]]] | [i [E I]]]].
    + left. exists j. auto.
    + destruct (F6 q' r H) as [H' | [-> I]].
      * right. left. exists q', r. auto.
      * left. exists (job_of rej v r). split; [exact I | apply L].
    + right. right. exists i. auto.
  - intros i K Pt. destruct (F1 _ Pt) as [N Pt0].
    destruct (L2 i K Pt0) as [[j [I H]] | H].
    + left. exists j. auto.
    + destruct (F6 _ _ H) as [H' | [E I]]; [right; exact H' | ].
      destruct rej.
      * left. exists (job_of true v (on_catch (OnChainError i) (Of i Guarded))).
        split; [exact I | reflexivity].
      * exfalso. symmetry in E. exact (D eq_refl i E Pt0).
  - intros d q I B Pq. destruct (F1 q Pq) as [_ Pq0]. exact (L3 d q (F5 d q I) B Pq0).
  - intros q r B H. destruct (F2 q r H) as [_ H0]. exact (L4 q r B H0).
  - intros G Pa i I H. destruct (F1 _ Pa) as [_ Pa0].
    destruct (L5 G Pa0 i I H) as [W | [j [J W]]].
    + destruct (F6 _ _ W) as [W' | [E J]]; [left; exact W' | ].
      right. exists (job_of rej v (watch i)). split; [exact J | ].
      destruct rej; simpl; auto.
    + right. exists j. auto.
  - intros G Pa. destruct (F1 _ Pa) as [_ Pa0]. exact (L6 G Pa0).
  - intros G E. destruct (L7 G E) as [[j [I H]] | [Hr [Ha | [j [I H]]]]].
    + left. exists j. auto.
    + destruct (F6 _ _ Hr) as [Hr' | [Er Ir]].
      * destruct (F6 _ _ Ha) as [Ha' | [Ea Ia]].
        -- right. split; [exact Hr' | left; exact Ha'].
        -- right. split; [exact Hr' | right].
           exists (job_of rej v (on_then OnResults Results)).
           split; [exact Ia | destruct rej; reflexivity].
      * destruct rej.
        -- left. exists (job_of true v (on_catch OnFailure Failure)).
           split; [exact Ir | reflexivity].
        -- exfalso. symmetry in Er. exact (R eq_refl Er).
    + destruct (F6 _ _ Hr) as [Hr' | [Er Ir]].
      * right. split; [exact Hr' | right; exists j; auto].
      * destruct rej.
        -- left. exists (job_of true v (on_catch OnFailure Failure)).
           split; [exact Ir | reflexivity].
        -- exfalso. symmetry in Er. exact (R eq_refl Er).
Qed.

Lemma live_reject (p : name) (v : value) (st : state) :
  live g k (x ++ queue st) st ->
  live g k (x ++ queue (reject p v st)) (reject p v st).
Proof.
  intros L. unfold reject. destruct (promises st p) as [rs | w | w] eqn:P; auto.
  apply (live_settled true p v rs st P); auto; discriminate.
Qed.

Lemma live_fulfill (p : name) (v : value) (st : state) :
  (forall i, p = Of i Deleted -> ~ pending st (Of i Target)) ->
  p <> Results ->
  live g k (x ++ queue st) st ->
  live g k (x ++ queue (fulfill p v st)) (fulfill p v st).
Proof.
  intros D R L. unfold fulfill. destruct (promises st p) as [rs | w | w] eqn:P; auto.
  apply (live_settled false p v rs st P); auto.
Qed.

Lemma live_resolve (p : name) (v : value) (st : state) :
  not_promise v ->
  (forall i, p = Of i Deleted -> ~ pending st (Of i Target)) ->
  p <> Results ->
  live g k (x ++ queue st) st ->
  live g k (x ++ queue (resolve p v st)) (resolve p v st).
Proof.
  intros N D R L. unfold resolve. destruct (promises st p) as [rs | w | w] eqn:P; auto.
  assert (E : fulfill p v st
              = enqueue (map (job_of false v) rs) (store p (Fulfilled v) st)).
  { unfold fulfill. now rewrite P. }
  destruct v; try destruct N; rewrite E;
    apply (live_settled false p _ rs st P); auto.
Qed.

(** After these, the promise is settled. *)
Lemma settled_reject (p : name) (v : value) (st : state) :
  ~ pending (reject p v st) p.
Proof.
  unfold reject. intros [rs H]. destruct (promises st p) eqn:P.
  - rewrite promises_enqueue, promises_store_same in H. discriminate H.
  - rewrite P in H. discriminate H.
  - rewrite P in H. discriminate H.
Qed.

Lemma settled_fulfill (p : name) (v : value) (st : state) :
  ~ pending (fulfill p v st) p.
Proof.
  unfold fulfill. intros [rs H]. destruct (promises st p) eqn:P.
  - rewrite promises_enqueue, promises_store_same in H. discriminate H.
  - rewrite P in H. discriminate H.
  - rewrite P in H. discriminate H.
Qed.

Lemma settled_resolve (p : name) (v : value) (st : state) :
  not_promise v -> ~ pending (resolve p v st) p.
Proof.
  intros N [rs H]. unfold resolve in H. destruct (promises st p) eqn:P.
  - destruct v; try destruct N;
      exact (settled_fulfill p _ st (ex_intro _ rs H)).
  - rewrite P in H. discriminate H.
  - rewrite P in H. discriminate H.
Qed.

End Primitives.

(** *** The job that ran is dropped *)

Section Drop.
Variable g : bool.
Variable k : nat.

Lemma live_drop (j : job) (vq : list job) (st : state) :
  live g k (j :: vq) st ->
  (forall p, job_dest j = Some p -> minor p -> pending st p -> awaited vq st p ->
             sourced vq st p) ->
  (forall i, handler j = Some (OnChainError i) -> ~ pending st (Of i Target)) ->
  (g = true -> pending st All ->
   forall i, handler j = Some (ResolveElement i) \/ handler j = Some RejectAll ->
             i < List.length (values st) -> nth i (values st) None <> None) ->
  (g = true -> exited st = None ->
   handler j = Some OnFailure \/ job_dest j = Some Results -> exit_coming vq st) ->
  live g k vq st.
Proof.
  intros [L1 L2 L3 L4 L5 L6 L7] D C W X. constructor.
  - intros p M P A.
    assert (A' : awaited (j :: vq) st p).
    { destruct A as [A | [d A]]; [left; exact A | right; exists d; now right]. }
    destruct (L1 p M P A') as [[j' [[<- | I] E]] | [S | S]].
    + apply D; auto.
    + left. exists j'. auto.
    + right. left. exact S.
    + right. right. exact S.
  - intros i K P. destruct (L2 i K P) as [[j' [[<- | I] H]] | H].
    + destruct (C i H P).
    + left. exists j'. auto.
    + right. exact H.
  - intros d q I B. apply (L3 d q); [now right | exact B].
  - exact L4.
  - intros G P i I H. destruct (L5 G P i I H) as [Wa | [j' [[<- | J] Hj]]].
    + left. exact Wa.
    + destruct (W G P i Hj I H).
    + right. exists j'. auto.
  - exact L6.
  - intros G E. destruct (L7 G E) as [[j' [[<- | I] H]] | [Hr [Ha | [j' [[<- | I] H]]]]].
    + apply X; auto.
    + left. exists j'. auto.
    + right. split; [exact Hr | left; exact Ha].
    + apply X; auto.
    + right. split; [exact Hr | right; exists j'; auto].
Qed.

(** The array of [Promise.all] gets an element. *)
Lemma live_values (vs : list (option value)) (r : nat) (vq : list job)
    (st : state) :
  (g = true -> pending st All ->
   forall i, i < List.length vs -> nth i vs None = None ->
             i < List.length (values st) /\ nth i (values st) None = None) ->
  (g = true -> pending st All -> r <> 0) ->
  live g k vq st -> live g k vq (set_remaining r (set_values vs st)).
Proof.
  intros V R [L1 L2 L3 L4 L5 L6 L7]. constructor; auto.
  - intros G P i I H. destruct (V G P i I H) as [I0 H0].
    exact (L5 G P i I0 H0).
Qed.

End Drop.

(** *** The callbacks *)

Section Calls.
Variable env : environment.
Variable o : options.
Variable g : bool.
Variable k : nat.
Variable x : list job.

Lemma live_emit (es : list event) (st : state) :
  live g k (x ++ queue st) st -> live g k (x ++ queue (emit es st)) (emit es st).
Proof. apply (live_same g k (x ++ queue st)); reflexivity || auto. Qed.

Lemma live_set_fs (files : Inspector.filesystem) (st : state) :
  live g k (x ++ queue st) st ->
  live g k (x ++ queue (set_fs files st)) (set_fs files st).
Proof. apply (live_same g k (x ++ queue st)); reflexivity || auto. Qed.

Lemma live_exit (c : nat) (st : state) :
  live g k (x ++ queue st) st -> live g k (x ++ queue (exit c st)) (exit c st).
Proof.
  apply (live_same g k (x ++ queue st)); try reflexivity. discriminate.
Qed.

Lemma resolve_set_values (p : name) (v : value) (r : nat)
    (vs : list (option value)) (st : state) :
  resolve p v (set_remaining r (set_values vs st))
  = set_remaining r (set_values vs (resolve p v st)).
Proof.
  unfold resolve, fulfill. cbn [promises set_remaining set_values].
  destruct (promises st p); try reflexivity. destruct v; reflexivity.
Qed.

Lemma live_delete_directory (i : nat) (dirpath : string) (st : state) :
  live g k (x ++ queue st) st ->
  live g k (x ++ queue (delete_directory env i dirpath st))
    (delete_directory env i dirpath st).
Proof.
  intros L. unfold delete_directory. cbv zeta.
  destruct (rmdir env dirpath _).
  - apply live_resolve; [exact I | discriminate | discriminate | ].
    apply live_emit, live_set_fs, live_emit, L.
  - apply live_reject, live_emit, live_emit, L.
Qed.

Lemma settled_delete_directory (i : nat) (dirpath : string) (st : state) :
  ~ pending (delete_directory env i dirpath st) (Of i Target).
Proof.
  unfold delete_directory. cbv zeta. destruct (rmdir env dirpath _).
  - apply settled_resolve. exact I.
  - apply settled_reject.
Qed.

(** A [then] on a promise that was just stored as settled, and a [catch] on
    the promise it gives: the pattern of the two scans. *)
Lemma live_born (i : nat) (born mid last : slot) (c : pstate) (f h : callback)
    (st : state) :
  born_settled (Of i born) -> ~ born_settled (Of i mid) ->
  (forall rs, c <> Pending rs) ->
  target_of f = Some (Of i mid) ->
  rank (Of i born) < rank (Of i mid) ->
  live g k (x ++ queue st) st ->
  live g k
    (x ++ queue (catch_ (Of i mid) h (Of i last)
                   (then_ (Of i born) f (Of i mid) (store (Of i born) c st))))
    (catch_ (Of i mid) h (Of i last)
       (then_ (Of i born) f (Of i mid) (store (Of i born) c st))).
Proof.
  intros B M C T R L.
  assert (S : ~ pending (store (Of i born) c st) (Of i born)).
  { intros [rs H]. rewrite promises_store_same in H. exact (C rs H). }
  apply live_register.
  - intros _ _. apply sourced_register; [now apply leads_then | exact R].
  - intros X. destruct (M X).
  - apply live_register.
    + intros _ P. destruct (S P).
    + intros _. exact S.
    + apply live_store_settled; [ | exact C | exact L].
      intros r. exact (born_bare _ _ _ _ L _ r B).
Qed.

Lemma live_call (f : callback) (v : value) (st : state) :
  not_promise v ->
  (forall p, f = ResolveWith p -> follows p) ->
  (forall i, f = ResolveElement i -> i < List.length (values st)) ->
  live g k (x ++ queue st) st ->
  live g k (x ++ queue (snd (call env o f v st))) (snd (call env o f v st)).
Proof.
  intros N F V L. destruct f; cbn [call].
  - (* OnConfirmed *)
    destruct (negb (truthy v)); cbn [snd].
    + apply live_resolve; [exact I | discriminate | discriminate | exact L].
    + destruct (brutal o); cbn [snd].
      * apply live_born; try (simpl; auto; fail); try discriminate; try (simpl; lia).
        apply live_emit, live_emit, L.
      * apply live_store_settled; [ | discriminate | exact L].
        intros r. exact (born_bare _ _ _ _ L (Of i Plain) r I).
  - (* OnDelete *)
    cbn [snd]. apply live_delete_directory, live_emit, L.
  - (* OnChainError *)
    cbn [snd]. apply live_reject, L.
  - (* OnProcesses *)
    destruct v; cbn [snd]; try exact L.
    destruct (0 <? List.length processes)%nat; cbn [snd].
    + apply live_born; try (simpl; auto; fail); try (simpl; lia).
      * intros rs. destruct (Scanner.killProcesses _ _); discriminate.
      * apply live_emit, L.
    + apply live_emit, L.
  - (* OnScanError *)
    cbn [snd]. apply live_emit, L.
  - (* OnKilled *)
    destruct v; cbn [snd]; try exact L. apply live_emit, L.
  - (* OnKillFailed *)
    destruct v; cbn [snd]; apply live_emit, L.
  - (* ResolveElement *)
    specialize (V i eq_refl).
    destruct (nth i (values st) None) eqn:H; cbn [snd]; [exact L | ].
    cbv zeta. cbn [remaining set_remaining set_values values].
    destruct (Nat.eqb (pred (remaining st)) 0) eqn:Z.
    + rewrite resolve_set_values.
      apply (live_values g k _ _ (x ++ queue (resolve All _ st))).
      * intros _ P. exfalso. revert P. apply settled_resolve. exact I.
      * intros _ P. exfalso. revert P. apply settled_resolve. exact I.
      * apply live_resolve; [exact I | discriminate | discriminate | exact L].
    + apply (live_values g k _ _ (x ++ queue st)); [ | | exact L].
      * intros _ _ i' I' H'. rewrite set_nth_length in I'. split; [exact I' | ].
        rewrite (nth_set_nth i i' _ _ _ V) in H'.
        destruct (Nat.eqb i' i); [discriminate H' | exact H'].
      * intros _ _. now apply Nat.eqb_neq in Z.
  - (* RejectAll *)
    cbn [snd]. apply live_reject, L.
  - (* OnResults *)
    destruct v; cbn [snd]; try exact L.
    destruct (Nat.eqb _ _); cbn [snd]; apply live_exit, live_emit, L.
  - (* OnFailure *)
    cbn [snd]. apply live_exit, live_emit, L.
  - (* ResolveWith *)
    cbn [snd]. destruct (F p eq_refl) as [i [-> | ->]];
      (apply live_resolve; [exact N | discriminate | discriminate | exact L]).
  - (* RejectWith *)
    cbn [snd]. apply live_reject, L.
Qed.


Lemma pending_reject_back (p : name) (v : value) (st : state) (q : name) :
  pending (reject p v st) q -> pending st q.
Proof.
  unfold reject. destruct (promises st p) eqn:P; auto.
  intros [rs H]. rewrite promises_enqueue in H.
  destruct (name_eq_dec q p) as [-> | N].
  - rewrite promises_store_same in H. discriminate H.
  - exists rs. now rewrite promises_store_other in H.
Qed.

Lemma pending_resolve_back (p : name) (v : value) (st : state) (q : name) :
  pending (resolve p v st) q -> pending st q.
Proof.
  unfold resolve, fulfill. destruct (promises st p) eqn:P; auto.
  destruct v; auto;
    intros [rs H]; rewrite promises_enqueue in H;
    (destruct (name_eq_dec q p) as [-> | N];
     [rewrite promises_store_same in H; discriminate H
     | exists rs; now rewrite promises_store_other in H]).
Qed.

Lemma pending_register_back (p : name) (r : reaction) (st : state) (q : name) :
  pending (register p r st) q -> pending st q.
Proof.
  unfold register. destruct (promises st p) as [rs | v | v] eqn:P; auto.
  intros [rs' H]. destruct (name_eq_dec q p) as [-> | N].
  - now exists rs.
  - exists rs'. now rewrite promises_store_other in H.
Qed.

(** What the callbacks that settle a promise leave behind. *)
Lemma call_settles_target (i : nat) (f : callback) (v : value) (st : state) :
  f = OnDelete i \/ f = OnChainError i ->
  ~ pending (snd (call env o f v st)) (Of i Target).
Proof.
  intros [-> | ->]; cbn [call snd].
  - apply settled_delete_directory.
  - apply settled_reject.
Qed.

Lemma call_settles_followed (d : name) (f : callback) (v : value) (st : state) :
  f = ResolveWith d \/ f = RejectWith d -> not_promise v ->
  ~ pending (snd (call env o f v st)) d.
Proof.
  intros [-> | ->] N; cbn [call snd].
  - now apply settled_resolve.
  - apply settled_reject.
Qed.

Lemma call_fills_element (i : nat) (v : value) (st : state) :
  i < List.length (values st) ->
  nth i (values (snd (call env o (ResolveElement i) v st))) None <> None.
Proof.
  intros I. cbn [call]. destruct (nth i (values st) None) eqn:H; cbn [snd].
  - rewrite H. discriminate.
  - cbv zeta. cbn [remaining set_remaining set_values values].
    destruct (Nat.eqb _ 0).
    + rewrite values_resolve. cbn [values set_remaining set_values].
      rewrite (nth_set_nth i i _ _ _ I), Nat.eqb_refl. discriminate.
    + cbn [values set_remaining set_values].
      rewrite (nth_set_nth i i _ _ _ I), Nat.eqb_refl. discriminate.
Qed.

Lemma call_rejects_all (v : value) (st : state) :
  ~ pending (snd (call env o RejectAll v st)) All.
Proof. cbn [call snd]. apply settled_reject. Qed.

Lemma call_exits (f : callback) (v : value) (st : state) (r : value) :
  f = OnFailure \/ (f = OnResults /\ fst (call env o f v st) = Return r) ->
  exited (snd (call env o f v st)) <> None.
Proof.
  intros [-> | [-> R]]; cbn [call snd] in *.
  - rewrite exited_exit. discriminate.
  - destruct v; try discriminate R.
    destruct (Nat.eqb _ _); cbn [snd]; rewrite exited_exit; discriminate.
Qed.

(** A callback that returns a promise returns one that has a source. *)
Lemma call_returns_sourced (f : callback) (v : value) (st : state) (q : name) :
  fst (call env o f v st) = Return (VPromise q) ->
  minor q
  /\ (born_settled q -> ~ pending (snd (call env o f v st)) q)
  /\ (pending (snd (call env o f v st)) q ->
      sourced (x ++ queue (snd (call env o f v st))) (snd (call env o f v st)) q).
Proof.
  destruct f; cbn [call].
  - destruct (negb (truthy v)); cbn [fst snd]; [discriminate | ].
    destruct (brutal o); cbn [fst snd]; intros E; injection E as <-.
    + split; [unfold minor; simpl; lia | split; [intros [] | intros _]].
      apply sourced_register; [now apply leads_catch | simpl; lia].
    + split; [unfold minor; simpl; lia | ].
      assert (S : ~ pending (store (Of i Plain) (Fulfilled (VBool true)) st) (Of i Plain)).
      { intros [rs H]. rewrite promises_store_same in H. discriminate H. }
      split; [intros _; exact S | intros P; destruct (S P)].
  - cbn [fst]. discriminate.
  - cbn [fst]. discriminate.
  - destruct v; cbn [fst snd]; try discriminate.
    destruct (0 <? List.length processes)%nat; cbn [fst snd]; [ | discriminate].
    intros E; injection E as <-.
    split; [unfold minor; simpl; lia | split; [intros [] | intros _]].
    apply sourced_register; [now apply leads_catch | simpl; lia].
  - cbn [fst]. discriminate.
  - destruct v; cbn [fst]; discriminate.
  - destruct v; cbn [fst]; discriminate.
  - destruct (nth i (values st) None); cbn [fst]; discriminate.
  - cbn [fst]. discriminate.
  - destruct v; cbn [fst]; try discriminate.
    destruct (Nat.eqb _ _); cbn [fst]; discriminate.
  - cbn [fst]. discriminate.
  - cbn [fst]. discriminate.
  - cbn [fst]. discriminate.
Qed.

End Calls.

(** *** One turn *)

Section Turns.
Variable env : environment.
Variable o : options.
Variable n : nat.

Lemma exit_coming_drop (j : job) (vq : list job) (st : state) :
  live true n (j :: vq) st -> exited st = None ->
  handler j <> Some OnFailure -> ~ pending st Results ->
  exit_coming vq st.
Proof.
  intros L E H P.
  destruct (exit_awaits _ _ _ _ L eq_refl E) as [[j' [[<- | I] Hj]] | [Hr _]].
  - destruct (H Hj).
  - left. exists j'. auto.
  - destruct (P (pending_has _ _ _ Hr)).
Qed.

Lemma live_run_callback (f : callback) (rej : bool) (v : value) (st : state) :
  callback_in_range n f -> not_promise v -> List.length (values st) = n ->
  live true n (Reaction (Some f) (target_of f) rej v :: queue st) st ->
  exited (run_job env o (Reaction (Some f) (target_of f) rej v) st) = None ->
  live true n (queue (run_job env o (Reaction (Some f) (target_of f) rej v) st))
    (run_job env o (Reaction (Some f) (target_of f) rej v) st).
Proof.
  intros R N V L E.
  set (j := Reaction (Some f) (target_of f) rej v) in *.
  assert (L1 : live true n ([j] ++ queue (snd (call env o f v st)))
                 (snd (call env o f v st))).
  { apply live_call; [exact N | | | exact L].
    - intros p ->. exact (proj2 R).
    - intros i ->. rewrite V. exact R. }
  pose proof (call_returns_sourced env o [j] f v st) as Q.
  pose proof (call_exits env o f v st) as X.
  pose proof (fun i => call_settles_target env o i f v st) as T.
  pose proof (fun d => call_settles_followed env o d f v st) as A.
  assert (W : forall i, f = ResolveElement i ->
                nth i (values (snd (call env o f v st))) None <> None).
  { intros i ->. apply call_fills_element. rewrite V. exact R. }
  assert (B : f = RejectAll -> ~ pending (snd (call env o f v st)) All).
  { intros ->. apply call_rejects_all. }
  unfold j in E |- *. cbn [run_job] in E |- *. fold j.
  destruct (call env o f v st) as [result st1]. cbn [fst snd] in *.
  destruct (exited st1) eqn:Ex; [congruence | ].
  destruct (target_of f) as [p | ] eqn:Tf.
  - assert (Jd : job_dest j = Some p).
    { unfold j. destruct f; try reflexivity; discriminate Tf. }
    assert (Hj : handler j = Some f) by reflexivity.
    destruct result as [r | e].
    + assert (L2 : live true n ([j] ++ queue (resolve p r st1)) (resolve p r st1)).
      { assert (Pl : not_promise r ->
                     live true n ([j] ++ queue (resolve p r st1)) (resolve p r st1)).
        { intros Nr. apply live_resolve; [exact Nr | | | exact L1].
          - intros i ->. apply T. left.
            destruct f; try discriminate Tf; injection Tf as <-. reflexivity.
          - intros ->. apply (X r); [ | reflexivity]. right.
            split; [ | reflexivity].
            destruct f; try discriminate Tf; reflexivity. }
        destruct r as [ | b | m | ps | kd fl | vs | q]; try (apply Pl; exact I).
        destruct (Q q eq_refl) as [Mq [Bq Sq]].
        apply live_thenable; auto. }
      apply (live_drop true n j _ _ L2).
      * intros p' D _ P _. rewrite Jd in D. injection D as <-.
        destruct r as [ | b | m | ps | kd fl | vs | q];
          try (exfalso; revert P; apply settled_resolve; exact I).
        left. exists (Thenable p q). split; [ | reflexivity].
        unfold resolve in P |- *. destruct (promises st1 p) eqn:Pp.
        -- rewrite queue_enqueue. apply in_app_iff. right. now left.
        -- destruct P as [rs P]. rewrite Pp in P. discriminate P.
        -- destruct P as [rs P]. rewrite Pp in P. discriminate P.
      * intros i H P. rewrite Hj in H. injection H as ->.
        apply (T i (or_intror eq_refl)). exact (pending_resolve_back p r st1 _ P).
      * intros _ _ i [H | H] _; rewrite Hj in H; injection H as ->; discriminate Tf.
      * intros _ Ex' [H | H].
        -- rewrite Hj in H. injection H as ->.
           destruct (X VUndefined (or_introl eq_refl) eq_refl).
        -- rewrite Jd in H. injection H as ->.
           exfalso. apply (X r); [ | reflexivity]. right. split; [ | reflexivity].
           destruct f; try discriminate Tf; reflexivity.
    + assert (L2 : live true n ([j] ++ queue (reject p e st1)) (reject p e st1)).
      { apply live_reject. exact L1. }
      apply (live_drop true n j _ _ L2).
      * intros p' D _ P _. rewrite Jd in D. injection D as <-.
        destruct (settled_reject p e st1 P).
      * intros i H P. rewrite Hj in H. injection H as ->.
        apply (T i (or_intror eq_refl)). exact (pending_reject_back p e st1 _ P).
      * intros _ _ i [H | H] _; rewrite Hj in H; injection H as ->; discriminate Tf.
      * intros _ Ex' [H | H].
        -- rewrite Hj in H. injection H as ->.
           destruct (X VUndefined (or_introl eq_refl) eq_refl).
        -- rewrite Jd in H. injection H as ->.
           apply (exit_coming_drop j _ _ L2 Ex').
           ++ rewrite Hj. destruct f; try discriminate Tf; discriminate.
           ++ apply settled_reject.
  - assert (Hj : handler j = Some f) by reflexivity.
    apply (live_drop true n j _ _ L1).
    + intros p' D _ P _. unfold j in D.
      destruct f; try discriminate D; simpl in D; injection D as <-.
      * destruct (A p (or_introl eq_refl) N P).
      * destruct (A p (or_intror eq_refl) N P).
    + intros i H P. rewrite Hj in H. injection H as ->. discriminate Tf.
    + intros _ P i [H | H] _; rewrite Hj in H; injection H as ->.
      * now apply W.
      * destruct (B eq_refl P).
    + intros _ _ [H | H].
      * rewrite Hj in H. injection H as ->. discriminate Tf.
      * unfold j in H.
        destruct f; try discriminate H; simpl in H; injection H as ->;
          simpl in R; destruct R as [_ [i [F | F]]]; discriminate F.
Qed.


Lemma live_run_pass (p : name) (rej : bool) (v : value) (st : state) :
  passes_to rej p ->
  live true n (Reaction None (Some p) rej v :: queue st) st ->
  live true n (queue (run_job env o (Reaction None (Some p) rej v) st))
    (run_job env o (Reaction None (Some p) rej v) st).
Proof.
  intros Pt L. cbn [run_job].
  set (j := Reaction None (Some p) rej v) in *.
  set (st' := if rej then reject p v st else fulfill p v st).
  assert (L2 : live true n ([j] ++ queue st') st').
  { unfold st'. destruct rej; [apply live_reject, L | ].
    apply live_fulfill; [ | | exact L].
    - intros i ->. destruct Pt as [[i' [F | [F | F]]] | F]; discriminate F.
    - intros ->. destruct Pt as [[i' [F | [F | F]]] | F]; discriminate F. }
  assert (S : ~ pending st' p).
  { unfold st'. destruct rej; [apply settled_reject | apply settled_fulfill]. }
  apply (live_drop true n j _ _ L2).
  - intros p' D _ P _. injection D as <-. destruct (S P).
  - intros i H. discriminate H.
  - intros _ _ i [H | H]; discriminate H.
  - intros _ Ex [H | H]; [discriminate H | ].
    injection H as ->. apply (exit_coming_drop j _ _ L2 Ex); [discriminate | exact S].
Qed.

Lemma live_run_thenable (d q : name) (st : state) :
  valid_reaction n q (adopt d) ->
  live true n (Thenable d q :: queue st) st ->
  live true n (queue (run_job env o (Thenable d q) st))
    (run_job env o (Thenable d q) st).
Proof.
  intros [R F] L. cbn [run_job]. fold (adopt d).
  set (j := Thenable d q) in *.
  assert (Rk : rank q < rank d /\ d <> Results).
  { destruct q as [i s | | | ]; [destruct s | | | ]; simpl in F;
      try discriminate F; injection F as <-; simpl; split; try lia; discriminate. }
  assert (L2 : live true n ([j] ++ queue (register q (adopt d) st))
                 (register q (adopt d) st)).
  { apply live_register; [ | | exact L].
    - intros M P. apply (minor_sourced _ _ _ _ L q M P). right. exists d. now left.
    - intros B. apply (thenables_born _ _ _ _ L d q); [now left | exact B]. }
  apply (live_drop true n j _ _ L2).
  - intros p' D _ P _. injection D as <-.
    apply (sourced_register [] q (adopt d) st d); [apply leads_adopt | apply Rk].
  - intros i H. discriminate H.
  - intros _ _ i [H | H]; discriminate H.
  - intros _ _ [H | H]; [discriminate H | ]. injection H as E.
    destruct (proj2 Rk E).
Qed.

Lemma live_run_job (j : job) (st : state) :
  valid_job n j -> List.length (values st) = n ->
  live true n (j :: queue st) st ->
  exited (run_job env o j st) = None ->
  live true n (queue (run_job env o j st)) (run_job env o j st).
Proof.
  intros J V L E. destruct j as [[f | ] t rej v | d q].
  - destruct (valid_job_callback n f t rej v J) as [-> [R N]].
    now apply live_run_callback.
  - destruct (valid_job_pass n t rej v J) as [N [p [-> [_ Pt]]]].
    now apply live_run_pass.
  - now apply live_run_thenable.
Qed.

Lemma resolve_answered (p : name) (v : value) (shown : list event)
    (rest : list nat) (st : state) :
  resolve p v (emit shown (set_questions rest st))
  = set_questions rest (emit shown (resolve p v st)).
Proof.
  unfold resolve, fulfill. cbn [promises emit set_questions set_trace].
  destruct (promises st p); try reflexivity. destruct v; reflexivity.
Qed.

Lemma live_on_answer (i : nat) (rest : list nat) (st : state) :
  questions st = i :: rest ->
  live true n (queue st) st ->
  live true n (queue (on_answer env i (set_questions rest st)))
    (on_answer env i (set_questions rest st)).
Proof.
  intros Q L. unfold on_answer. destruct (answered (answer env i)) as [c shown].
  rewrite resolve_answered.
  set (st1 := resolve (Of i Confirm) (VBool c) st).
  assert (L1 : live true n ([] ++ queue st1) st1).
  { apply live_resolve; [exact I | discriminate | discriminate | exact L]. }
  assert (S : ~ pending st1 (Of i Confirm)) by (apply settled_resolve; exact I).
  revert L1. apply live_grow; auto.
  intros i' I'. unfold st1 in I'. rewrite questions_resolve, Q in I'.
  destruct I' as [<- | I']; [right; exact S | left; exact I'].
Qed.

Lemma running_turn (st st' : state) :
  running n st -> turn env o st = Some st' -> running n st'.
Proof.
  intros [S [T L]] E.
  split; [exact (shaped_turn env o n st st' S E) | ].
  split; [exact (tied_turn env o n st st' S T E) | ].
  intros X. unfold turn in E. destruct (exited st) eqn:Ex; [discriminate E | ].
  specialize (L eq_refl). destruct (queue st) as [| j rest] eqn:Q.
  - destruct (questions st) as [| i qs] eqn:A; [discriminate E | ].
    injection E as <-. apply live_on_answer; [exact A | rewrite Q; exact L].
  - injection E as <-. apply live_run_job.
    + pose proof (jobs_valid n st S) as J. rewrite Q in J. now inversion J.
    + exact (values_length n st T).
    + revert L. apply live_same; reflexivity || auto.
    + exact X.
Qed.

End Turns.

(** *** A run at rest has exited *)

Lemma holes_some (l : list (option value)) :
  holes l <> 0 -> exists i, i < List.length l /\ nth i l None = None.
Proof.
  unfold holes. induction l as [| y l IH]; simpl; [congruence | ].
  destruct y as [v | ]; simpl.
  - intros H. destruct (IH H) as [i [I E]]. exists (S i). split; [lia | exact E].
  - intros _. exists 0. split; [lia | reflexivity].
Qed.

Lemma no_source (g : bool) (k : nat) (st : state) :
  live g k [] st -> questions st = [] ->
  forall r p, rank p <= r -> minor p -> pending st p -> awaited [] st p -> False.
Proof.
  intros L Q. induction r as [| r IH]; intros p R M P A.
  - destruct (minor_sourced _ _ _ _ L p M P A)
      as [[j [[] _]] | [[q [r' [Rk _]]] | [i [_ I]]]].
    + lia.
    + rewrite Q in I. destruct I.
  - destruct (minor_sourced _ _ _ _ L p M P A)
      as [[j [[] _]] | [[q [r' [Rk [H _]]]] | [i [_ I]]]].
    + apply (IH q).
      * lia.
      * unfold minor in *. lia.
      * exact (pending_has _ _ _ H).
      * left. now exists r'.
    + rewrite Q in I. destruct I.
Qed.

Lemma quiescent_exited (n : nat) (st : state) :
  running n st -> queue st = [] -> questions st = [] -> exited st <> None.
Proof.
  intros [S [T L]] Q A E. specialize (L E). rewrite Q in L.
  destruct (exit_awaits _ _ _ _ L eq_refl E) as [[j [[] _]] | [_ [Ha | [j [[] _]]]]].
  pose proof (pending_has _ _ _ Ha) as Pa.
  pose proof (all_waits _ _ _ _ L eq_refl Pa) as R.
  rewrite (remaining_holes n st T) in R.
  destruct (holes_some _ R) as [i [I H]].
  destruct (holes_watched _ _ _ _ L eq_refl Pa i I H) as [W | [j [[] _]]].
  rewrite (values_length n st T) in I.
  destruct (target_alive _ _ _ _ L i I (pending_has _ _ _ W)) as [[j [[] _]] | D].
  apply (no_source true n st L A 6 (Of i Deleted)).
  - simpl. lia.
  - unfold minor. simpl. lia.
  - exact (pending_has _ _ _ D).
  - left. eexists. exact D.
Qed.

(** *** The synchronous part *)

Lemma promises_register_other (p q : name) (r : reaction) (st : state) :
  q <> p -> promises (register p r st) q = promises st q.
Proof.
  intros N. unfold register. destruct (promises st p); try reflexivity.
  now apply promises_store_other.
Qed.

Lemma promises_delete_directory_other (env : environment) (i : nat)
    (dirpath : string) (st : state) (q : name) :
  q <> Of i Target -> promises (delete_directory env i dirpath st) q = promises st q.
Proof.
  intros N. unfold delete_directory. cbv zeta. destruct (rmdir env dirpath _).
  - now rewrite promises_resolve_plain_other.
  - now rewrite (promises_settle_other true (Of i Target) q).
Qed.

Section Start.
Variable env : environment.
Variable o : options.

Lemma promises_start_confirmDeletion_other (i : nat) (dirpath : string)
    (st : state) (q : name) :
  q <> Of i Confirm ->
  promises (start_confirmDeletion i dirpath o st) q = promises st q.
Proof.
  intros N. unfold start_confirmDeletion. destruct (yes o); [ | reflexivity].
  now apply promises_store_other.
Qed.

(** The executor of target [i] touches the promises of target [i] only. *)
Lemma promises_executor_other (i : nat) (dirpath : string) (st : state) (q : name) :
  (forall s, q <> Of i s) ->
  promises (rmdirWithConfirmation env o i dirpath st) q = promises st q.
Proof.
  intros N.
  destruct (executor_ends env o i dirpath st) as [st' m L | st' L | st' L];
    destruct L as [_ [P _]].
  - rewrite (promises_settle_other true (Of i Target) q); [now rewrite P | apply N].
  - rewrite promises_delete_directory_other; [now rewrite P | apply N].
  - unfold catch_, then_.
    rewrite !promises_register_other, promises_start_confirmDeletion_other;
      try apply N.
    now rewrite P.
Qed.

Lemma live_next (g : bool) (k : nat) (vq : list job) (st : state) :
  (pending st (Of k Target) -> chain_alive vq st k) ->
  live g k vq st -> live g (S k) vq st.
Proof.
  intros C [L1 L2 L3 L4 L5 L6 L7]. constructor; auto.
  intros i I P. destruct (Nat.eq_dec i k) as [-> | N]; [auto | ].
  apply L2; [lia | exact P].
Qed.

Lemma live_start_confirmDeletion (g : bool) (k : nat) (i : nat) (dirpath : string)
    (st : state) :
  promises st (Of i Confirm) = Pending [] ->
  live g k (queue st) st ->
  live g k (queue (start_confirmDeletion i dirpath o st))
    (start_confirmDeletion i dirpath o st)
  /\ (pending (start_confirmDeletion i dirpath o st) (Of i Confirm) ->
      sourced (queue (start_confirmDeletion i dirpath o st))
        (start_confirmDeletion i dirpath o st) (Of i Confirm)).
Proof.
  intros F L. unfold start_confirmDeletion. destruct (yes o).
  - split.
    + apply (live_store_settled g k []); [ | discriminate | exact L].
      intros r [rs [H I]]. rewrite F in H. injection H as <-. destruct I.
    + intros [rs H]. rewrite promises_store_same in H. discriminate H.
  - split.
    + revert L. apply live_grow; auto.
      intros i' I'. left. cbn [questions set_questions]. apply in_app_iff. now left.
    + intros _. right. right. exists i. split; [reflexivity | ].
      cbn [questions set_questions]. apply in_app_iff. right. now left.
Qed.

Lemma live_executor (k : nat) (dirpath : string) (st : state) :
  fresh_from k st -> live false k (queue st) st ->
  live false (S k) (queue (rmdirWithConfirmation env o k dirpath st))
    (rmdirWithConfirmation env o k dirpath st).
Proof.
  intros F L.
  destruct (executor_ends env o k dirpath st) as [st' m Lg | st' Lg | st' Lg];
    pose proof Lg as [_ [P [Q [A [V [R X]]]]]];
    assert (L' : live false k ([] ++ queue st') st')
      by (simpl; rewrite Q; revert L; apply live_same; auto; intros E; now rewrite <- X).
  - apply live_next; [intros H; destruct (settled_reject _ _ _ H) | ].
    apply (live_reject false k []), L'.
  - apply live_next; [intros H; destruct (settled_delete_directory env _ _ _ H) | ].
    apply (live_delete_directory env false k []), L'.
  - assert (Fc : promises st' (Of k Confirm) = Pending [])
      by (rewrite P; apply F; lia).
    destruct (live_start_confirmDeletion false k k dirpath st' Fc L') as [L1 S1].
    set (st1 := start_confirmDeletion k dirpath o st') in *.
    set (st2 := then_ (Of k Confirm) (OnConfirmed k) (Of k Confirmed) st1).
    set (st3 := then_ (Of k Confirmed) (OnDelete k) (Of k Deleted) st2).
    assert (L2 : live false k ([] ++ queue st2) st2).
    { apply live_register; [intros _; exact S1 | intros [] | exact L1]. }
    assert (L3 : live false k ([] ++ queue st3) st3).
    { apply live_register; [ | intros [] | exact L2].
      intros _ _. apply (sourced_register [] (Of k Confirm)).
      - now apply leads_then.
      - simpl. lia. }
    apply live_next.
    + intros _. right. unfold catch_, register.
      assert (D : promises st3 (Of k Deleted) = Pending []).
      { unfold st3, st2, then_.
        rewrite !promises_register_other by discriminate. unfold st1.
        rewrite promises_start_confirmDeletion_other by discriminate.
        rewrite P. apply F. lia. }
      rewrite D. exists [on_catch (OnChainError k) (Of k Guarded)].
      rewrite promises_store_same. split; [reflexivity | now left].
    + apply (live_register false k []); [ | intros [] | exact L3].
      intros _ _. apply (sourced_register [] (Of k Confirmed)).
      * now apply leads_then.
      * simpl. lia.
Qed.

Lemma fresh_executor (k : nat) (dirpath : string) (st : state) :
  fresh_from k st -> fresh_from (S k) (rmdirWithConfirmation env o k dirpath st).
Proof.
  intros F i s I. rewrite promises_executor_other.
  - apply F. lia.
  - intros s' E. injection E as -> _. lia.
Qed.

Lemma live_map_targets (dirs : list string) :
  forall k st,
    fresh_from k st -> live false k (queue st) st ->
    live false (k + List.length dirs) (queue (map_targets env o k dirs st))
      (map_targets env o k dirs st).
Proof.
  induction dirs as [| d rest IH]; intros k st F L; simpl.
  - now rewrite Nat.add_0_r.
  - rewrite <- Nat.add_succ_comm. apply IH.
    + now apply fresh_executor.
    + now apply live_executor.
Qed.

Lemma promises_map_targets_major (dirs : list string) (q : name) :
  (forall i s, q <> Of i s) ->
  forall k st, promises (map_targets env o k dirs st) q = promises st q.
Proof.
  intros N. induction dirs as [| d rest IH]; intros k st; simpl; [reflexivity | ].
  rewrite IH. apply promises_executor_other. intros s. apply N.
Qed.


Lemma live_initial (files : Inspector.filesystem) :
  live false 0 [] (initial_state files).
Proof.
  constructor; try discriminate.
  - intros p _ _ [[r [rs [H I]]] | [d []]]. simpl in H. injection H as <-. destruct I.
  - intros i I. lia.
  - intros d q [].
  - intros q r _ [rs [H I]]. simpl in H. injection H as <-. destruct I.
Qed.

Lemma watched_register_keeps (p : name) (r : reaction) (st : state) (i : nat) :
  watched (queue st) st i -> watched (queue (register p r st)) (register p r st) i.
Proof.
  intros [[rs [H I]] | [j [I H]]]; unfold register;
    destruct (promises st p) as [rs' | v | v] eqn:P.
  - left. destruct (name_eq_dec (Of i Target) p) as [<- | N].
    + exists (rs' ++ [r]). rewrite promises_store_same. split; [reflexivity | ].
      rewrite P in H. injection H as <-. apply in_app_iff. now left.
    + exists rs. rewrite promises_store_other; auto.
  - left. now exists rs.
  - left. now exists rs.
  - right. exists j. auto.
  - right. exists j. rewrite queue_enqueue. split; [apply in_app_iff; now left | exact H].
  - right. exists j. rewrite queue_enqueue. split; [apply in_app_iff; now left | exact H].
Qed.

Lemma watched_register (i : nat) (st : state) :
  watched (queue (register (Of i Target) (watch i) st))
    (register (Of i Target) (watch i) st) i.
Proof.
  unfold register. destruct (promises st (Of i Target)) as [rs | v | v].
  - left. exists (rs ++ [watch i]). rewrite promises_store_same.
    split; [reflexivity | apply in_app_iff; right; now left].
  - right. exists (job_of false v (watch i)). rewrite queue_enqueue.
    split; [apply in_app_iff; right; now left | now left].
  - right. exists (job_of true v (watch i)). rewrite queue_enqueue.
    split; [apply in_app_iff; right; now left | now right].
Qed.

Lemma watched_watch_targets (count : nat) :
  forall lo st i,
    (lo <= i < lo + count) \/ watched (queue st) st i ->
    watched (queue (watch_targets lo count st)) (watch_targets lo count st) i.
Proof.
  induction count as [| count IH]; intros lo st i H; simpl.
  - destruct H as [H | H]; [lia | exact H].
  - apply IH. fold (watch lo). destruct H as [[A B] | W].
    + destruct (Nat.eq_dec i lo) as [-> | N];
        [right; apply watched_register | left; lia].
    + right. now apply watched_register_keeps.
Qed.

Lemma live_watch_targets (g : bool) (k : nat) (count : nat) :
  forall lo st,
    live g k (queue st) st ->
    live g k (queue (watch_targets lo count st)) (watch_targets lo count st).
Proof.
  induction count as [| count IH]; intros lo st L; simpl; [exact L | ].
  apply IH. apply (live_register g k []); [ | intros [] | exact L].
  intros M. unfold minor in M. simpl in M. lia.
Qed.

Lemma promises_watch_targets_major (count : nat) (q : name) :
  (forall i, q <> Of i Target) ->
  forall lo st, promises (watch_targets lo count st) q = promises st q.
Proof.
  intros N. induction count as [| count IH]; intros lo st; simpl; [reflexivity | ].
  rewrite IH. now apply promises_register_other.
Qed.

Lemma values_watch_targets (count : nat) :
  forall lo st, values (watch_targets lo count st) = values st.
Proof.
  induction count as [| count IH]; intros lo st; simpl; [reflexivity | ].
  now rewrite IH, values_register.
Qed.

Lemma remaining_watch_targets (count : nat) :
  forall lo st, remaining (watch_targets lo count st) = remaining st.
Proof.
  induction count as [| count IH]; intros lo st; simpl; [reflexivity | ].
  now rewrite IH, remaining_register.
Qed.

Lemma live_process_targets (files : Inspector.filesystem) :
  live true (List.length (directories o)) (queue (process_targets env o files))
    (process_targets env o files).
Proof.
  set (n := List.length (directories o)).
  unfold process_targets, promise_all. fold n. cbv zeta.
  set (st0 := map_targets env o 0 (directories o) (initial_state files)).
  set (st1 := set_remaining n (set_values (repeat None n) st0)).
  set (st2 := watch_targets 0 n st1).
  set (st3 := if Nat.eqb n 0 then resolve All (VArray []) st2 else st2).
  set (st4 := then_ All OnResults Results st3).
  set (st5 := catch_ Results OnFailure Failure st4).
  assert (L0 : live false n (queue st0) st0).
  { apply (live_map_targets (directories o) 0 (initial_state files)).
    - intros i s _. reflexivity.
    - apply live_initial. }
  assert (L1 : live false n (queue st1) st1).
  { apply live_values; [discriminate | discriminate | exact L0]. }
  assert (L2 : live false n (queue st2) st2) by now apply live_watch_targets.
  assert (L3 : live false n (queue st3) st3).
  { unfold st3. destruct (Nat.eqb n 0); [ | exact L2].
    apply (live_resolve false n []); [exact I | discriminate | discriminate | exact L2]. }
  assert (L4 : live false n (queue st4) st4).
  { apply (live_register false n []); [ | intros [] | exact L3].
    intros M. unfold minor in M. simpl in M. lia. }
  assert (L5 : live false n (queue st5) st5).
  { apply (live_register false n []); [ | intros [] | exact L4].
    intros M. unfold minor in M. simpl in M. lia. }
  assert (W : forall i, i < n -> watched (queue st5) st5 i).
  { intros i I. apply watched_register_keeps, watched_register_keeps.
    unfold st3. destruct (Nat.eqb_spec n 0) as [Z | Z]; [lia | ].
    apply watched_watch_targets. left. lia. }
  assert (R3 : promises st3 Results = Pending []).
  { unfold st3. destruct (Nat.eqb n 0).
    - rewrite promises_resolve_plain_other by discriminate.
      unfold st2. rewrite promises_watch_targets_major by discriminate.
      unfold st1, st0. cbn [promises set_remaining set_values].
      rewrite promises_map_targets_major by discriminate. reflexivity.
    - unfold st2. rewrite promises_watch_targets_major by discriminate.
      unfold st1, st0. cbn [promises set_remaining set_values].
      rewrite promises_map_targets_major by discriminate. reflexivity. }
  assert (R4 : promises st4 Results = Pending []).
  { unfold st4, then_. rewrite promises_register_other by discriminate. exact R3. }
  assert (E5 : st5 = store Results (Pending [on_catch OnFailure Failure]) st4).
  { unfold st5, catch_, register. rewrite R4. reflexivity. }
  destruct L5 as [A1 A2 A3 A4 _ _ _]. constructor; auto.
  - intros _ _ i I H. apply W.
    unfold st5, st4, catch_, then_ in I. rewrite !values_register in I.
    assert (V : values st3 = repeat None n).
    { unfold st3. destruct (Nat.eqb n 0); rewrite ?values_resolve;
        unfold st2; rewrite values_watch_targets; reflexivity. }
    rewrite V, repeat_length in I. exact I.
  - intros _ P.
    assert (P3 : pending st3 All).
    { apply (pending_register_back All (on_then OnResults Results)).
      apply (pending_register_back Results (on_catch OnFailure Failure)). exact P. }
    unfold st5, st4, catch_, then_. rewrite !remaining_register.
    unfold st3 in P3 |- *. destruct (Nat.eqb_spec n 0) as [Z | Z].
    + exfalso. revert P3. apply settled_resolve. exact I.
    + unfold st2. rewrite remaining_watch_targets. exact Z.
  - intros _ _. right. split.
    + rewrite E5. exists [on_catch OnFailure Failure].
      rewrite promises_store_same. split; [reflexivity | now left].
    + rewrite E5. unfold st4, then_, register.
      destruct (promises st3 All) as [rs | v | v] eqn:Pa.
      * left. exists (rs ++ [on_then OnResults Results]).
        rewrite promises_store_other by discriminate.
        rewrite promises_store_same. split; [reflexivity | ].
        apply in_app_iff. right. now left.
      * right. exists (job_of false v (on_then OnResults Results)).
        split; [ | reflexivity].
        rewrite queue_store, queue_enqueue. apply in_app_iff. right. now left.
      * right. exists (job_of true v (on_then OnResults Results)).
        split; [ | reflexivity].
        rewrite queue_store, queue_enqueue. apply in_app_iff. right. now left.
Qed.

Lemma running_process_targets (files : Inspector.filesystem) :
  running (List.length (directories o)) (process_targets env o files).
Proof.
  split; [apply shaped_process_targets | ].
  split; [apply tied_process_targets | ].
  intros _. apply live_process_targets.
Qed.

Lemma running_run (files : Inspector.filesystem) (fuel : nat) :
  running (List.length (directories o))
    (run env o fuel (process_targets env o files)).
Proof.
  apply (run_keeps env o (running (List.length (directories o)))).
  - intros st st'. apply running_turn.
  - apply running_process_targets.
Qed.

(** With enough turns, the run has called [process.exit]. *)
Lemma run_reaches_exit (files : Inspector.filesystem) (fuel : nat) :
  13 * List.length (directories o) + 2 <= fuel ->
  exists c, exited (run env o fuel (process_targets env o files)) = Some c.
Proof.
  intros F.
  pose proof (process_targets_rests env o files fuel F) as T.
  pose proof (running_run files fuel) as R.
  set (st := run env o fuel (process_targets env o files)) in *.
  destruct (exited st) as [c | ] eqn:E; [now exists c | ].
  exfalso. unfold turn in T. rewrite E in T.
  destruct (queue st) eqn:Q; [ | discriminate T].
  destruct (questions st) eqn:A; [ | discriminate T].
  exact (quiescent_exited _ st R Q A E).
Qed.

End Start.

End LiveFacts.

(** ** What is settled stays settled *)

Module StayFacts.

Import Promise Cli Graph Tally Fuel TraceSpec Handlers ExecutorSpec Liveness.
Import LoopFacts TraceFacts ShapeFacts ListFacts TallyFacts FuelFacts ExecutorFacts RunFacts.
Import LiveFacts.

Lemma keeps_same (a st st' : state) :
  promises st' = promises st -> keeps a st -> keeps a st'.
Proof. intros E K p M. rewrite E. exact (K p M). Qed.

Lemma keeps_emit (a : state) (es : list event) (st : state) :
  keeps a st -> keeps a (emit es st).
Proof. now apply keeps_same. Qed.

Lemma keeps_store (a : state) (p : name) (c : pstate) (st : state) :
  major p = false \/ pending st p -> keeps a st -> keeps a (store p c st).
Proof.
  intros H K. apply (keeps_trans a st); [exact K | ].
  destruct H as [H | [rs H]];
    [now apply keeps_store_minor | now apply (keeps_store_pending p c rs)].
Qed.

Lemma keeps_reject (a : state) (p : name) (v : value) (st : state) :
  keeps a st -> keeps a (reject p v st).
Proof.
  intros K. unfold reject. destruct (promises st p) as [rs | w | w] eqn:P; auto.
  apply (keeps_same a (store p (Rejected v) st)); [reflexivity | ].
  apply keeps_store; [right; now exists rs | exact K].
Qed.

Lemma keeps_fulfill (a : state) (p : name) (v : value) (st : state) :
  keeps a st -> keeps a (fulfill p v st).
Proof.
  intros K. unfold fulfill. destruct (promises st p) as [rs | w | w] eqn:P; auto.
  apply (keeps_same a (store p (Fulfilled v) st)); [reflexivity | ].
  apply keeps_store; [right; now exists rs | exact K].
Qed.

Lemma keeps_resolve (a : state) (p : name) (v : value) (st : state) :
  keeps a st -> keeps a (resolve p v st).
Proof.
  intros K. unfold resolve. destruct (promises st p) as [rs | w | w] eqn:P; auto.
  assert (F : keeps a (fulfill p v st)) by now apply keeps_fulfill.
  destruct v; auto.
Qed.

Lemma keeps_register (a : state) (p : name) (r : reaction) (st : state) :
  keeps a st -> keeps a (register p r st).
Proof.
  intros K. unfold register. destruct (promises st p) as [rs | w | w] eqn:P; auto.
  apply keeps_store; [right; now exists rs | exact K].
Qed.

Ltac keeps_step :=
  first [ apply keeps_emit | apply keeps_reject | apply keeps_fulfill
        | apply keeps_resolve | apply keeps_register
        | (apply keeps_store; [left; reflexivity | ])
        | (eapply keeps_same; [reflexivity | ]) ].

Section Stay.
Variable env : environment.
Variable o : options.

Lemma keeps_delete_directory (a : state) (i : nat) (dirpath : string) (st : state) :
  keeps a st -> keeps a (delete_directory env i dirpath st).
Proof.
  intros K. unfold delete_directory. cbv zeta. destruct (rmdir env dirpath _);
    repeat keeps_step; exact K.
Qed.

Lemma keeps_call (a : state) (f : callback) (v : value) (st : state) :
  keeps a st -> keeps a (snd (call env o f v st)).
Proof.
  intros K. destruct f; cbn [call].
  all: repeat match goal with
              | |- context [match ?b with _ => _ end] => destruct b
              | |- context [if ?b then _ else _] => destruct b
              end; cbn [snd]; cbv zeta; unfold then_, catch_, exit;
         try apply keeps_delete_directory; repeat keeps_step; exact K.
Qed.

Lemma keeps_run_job (a : state) (j : job) (st : state) :
  keeps a st -> keeps a (run_job env o j st).
Proof.
  intros K. destruct j as [[f | ] t rej v | d q]; cbn [run_job].
  - pose proof (keeps_call a f v st K) as C.
    destruct (call env o f v st) as [result st1]. cbn [snd] in C.
    destruct (exited st1); [exact C | ].
    destruct t; [ | exact C].
    destruct result; [now apply keeps_resolve | now apply keeps_reject].
  - destruct t; [ | exact K].
    destruct rej; [now apply keeps_reject | now apply keeps_fulfill].
  - now apply keeps_register.
Qed.

Lemma keeps_turn (st st' : state) : turn env o st = Some st' -> keeps st st'.
Proof.
  unfold turn. destruct (exited st); [discriminate | ].
  destruct (queue st) as [| j rest].
  - destruct (questions st) as [| i qs]; [discriminate | ].
    intros E. injection E as <-. unfold on_answer.
    destruct (answered (answer env i)) as [c shown].
    apply keeps_resolve, keeps_emit. apply (keeps_same st st); [reflexivity | ].
    apply keeps_refl.
  - intros E. injection E as <-. apply keeps_run_job.
    apply (keeps_same st st); [reflexivity | apply keeps_refl].
Qed.

Lemma keeps_run (fuel : nat) : forall st, keeps st (run env o fuel st).
Proof.
  induction fuel as [| fuel IH]; intros st; simpl; [apply keeps_refl | ].
  destruct (turn env o st) as [st' | ] eqn:T; [ | apply keeps_refl].
  exact (keeps_trans _ _ _ (keeps_turn st st' T) (IH st')).
Qed.

End Stay.

End StayFacts.

(** ** Targets that are turned down *)

Module OutcomeFacts.

Import Promise Cli Graph Tally Fuel TraceSpec Handlers ExecutorSpec Liveness Outcome.
Import LoopFacts TraceFacts ShapeFacts ListFacts TallyFacts FuelFacts ExecutorFacts RunFacts.
Import LiveFacts StayFacts.

Lemma lookup_remove (d x : string) (files : Inspector.filesystem) :
  Inspector.lookup d (Inspector.remove x files)
  = if (x =? d)%string then None else Inspector.lookup d files.
Proof.
  induction files as [| [q nd] rest IH]; simpl.
  - now destruct (x =? d)%string.
  - destruct (q =? x)%string eqn:Qx.
    + rewrite IH. apply String.eqb_eq in Qx. subst q.
      destruct (x =? d)%string; reflexivity.
    + simpl. rewrite IH. destruct (q =? d)%string eqn:Qd; [ | reflexivity].
      apply String.eqb_eq in Qd. subst q. now rewrite String.eqb_sym, Qx.
Qed.

(** What the inspections of [d] see depends on the entry of [d] only. *)
Lemma refused_lookup (o : options) (d : string) (a b : Inspector.filesystem) :
  Inspector.lookup d b = Inspector.lookup d a -> refused o d a -> refused o d b.
Proof.
  unfold refused, Inspector.checkDirectory, Inspector.isDirectoryEmpty, Inspector.stat.
  now intros ->.
Qed.

Section Refusal.
Variable env : environment.
Variable o : options.

Lemma fs_start_confirmDeletion (i : nat) (dirpath : string) (st : state) :
  fs (start_confirmDeletion i dirpath o st) = fs st.
Proof. unfold start_confirmDeletion. now destruct (yes o). Qed.

(** The executor changes the file system only by removing an empty
    directory that passed the check. *)
Lemma fs_executor (i : nat) (dirpath : string) (st : state) :
  fs (rmdirWithConfirmation env o i dirpath st) = fs st
  \/ (fs (rmdirWithConfirmation env o i dirpath st)
      = Inspector.remove dirpath (fs st)
      /\ fst (Inspector.checkDirectory dirpath (fs st)) = true
      /\ Inspector.isDirectoryEmpty dirpath (fs st) = true).
Proof.
  unfold rmdirWithConfirmation. cbv zeta. rewrite !fs_emit.
  destruct (Inspector.checkDirectory dirpath (fs st)) as [ok errors].
  destruct ok; cbn [negb fst]; [ | left; now rewrite fs_reject].
  rewrite !fs_emit.
  assert (E : forall st', fs st' = fs st ->
              fs match Inspector.readdir (Inspector.stat dirpath (fs st)) with
                 | Some _ => st'
                 | None => emit [Stdout "Error:"] st'
                 end = fs st).
  { intros st' H. now destruct (Inspector.readdir _). }
  destruct (Inspector.isDirectoryEmpty dirpath (fs st)) eqn:Em; cbn [negb andb].
  - unfold delete_directory, rmdir. cbv zeta.
    destruct (rmdir_error env dirpath).
    + left. rewrite fs_reject, !fs_emit. now apply E.
    + right. rewrite fs_resolve, fs_emit, fs_set_fs, fs_emit.
      rewrite E by reflexivity. auto.
  - left. destruct (negb (force o) && negb (brutal o)).
    + rewrite fs_reject, fs_emit. now apply E.
    + rewrite fs_catch_, !fs_then_, fs_start_confirmDeletion. now apply E.
Qed.

Lemma lookup_executor (d : string) (i : nat) (dirpath : string) (st : state) :
  refused o d (fs st) ->
  Inspector.lookup d (fs (rmdirWithConfirmation env o i dirpath st))
  = Inspector.lookup d (fs st).
Proof.
  intros R. destruct (fs_executor i dirpath st) as [-> | [-> [C E]]]; [reflexivity | ].
  rewrite lookup_remove. destruct (dirpath =? d)%string eqn:Q; [ | reflexivity].
  apply String.eqb_eq in Q. subst dirpath.
  destruct R as [R | [_ [_ R]]]; congruence.
Qed.

(** The executor of a refused path rejects its promise. *)
Lemma executor_refuses (d : string) (i : nat) (st : state) :
  refused o d (fs st) -> promises st (Of i Target) = Pending [] ->
  exists e, promises (rmdirWithConfirmation env o i d st) (Of i Target) = Rejected e.
Proof.
  intros R F. unfold rmdirWithConfirmation. cbv zeta. rewrite !fs_emit.
  destruct (Inspector.checkDirectory d (fs st)) as [ok errors] eqn:C.
  destruct ok; cbn [negb].
  - destruct R as [R | [Fo [Br Em]]]; [rewrite C in R; discriminate R | ].
    rewrite !fs_emit, Em, Fo, Br. cbn [negb andb].
    eexists. apply reject_fresh.
    destruct (Inspector.readdir _); exact F.
  - eexists. apply reject_fresh. exact F.
Qed.

Lemma promises_map_targets_before (dirs : list string) :
  forall k st i s,
    i < k -> promises (map_targets env o k dirs st) (Of i s) = promises st (Of i s).
Proof.
  induction dirs as [| d rest IH]; intros k st i s I; simpl; [reflexivity | ].
  rewrite IH by lia. apply promises_executor_other.
  intros s' E. injection E as -> _. lia.
Qed.

Lemma map_targets_refuses (d : string) (dirs : list string) :
  forall k st,
    fresh_from k st -> refused o d (fs st) -> In d dirs ->
    exists i e, i < k + List.length dirs
                /\ promises (map_targets env o k dirs st) (Of i Target) = Rejected e.
Proof.
  induction dirs as [| d0 rest IH]; intros k st F R I; [destruct I | ].
  simpl. destruct (string_dec d0 d) as [-> | N].
  - destruct (executor_refuses d k st R (F k Target (le_n k))) as [e E].
    exists k, e. split; [lia | ]. now rewrite promises_map_targets_before by lia.
  - destruct I as [I | I]; [congruence | ].
    destruct (IH (S k) (rmdirWithConfirmation env o k d0 st)) as [i [e [L E]]].
    + now apply fresh_executor.
    + apply (refused_lookup o d (fs st)); [ | exact R]. now apply lookup_executor.
    + exact I.
    + exists i, e. split; [lia | exact E].
Qed.


Lemma fs_watch_targets (count : nat) :
  forall lo st, fs (watch_targets lo count st) = fs st.
Proof.
  induction count as [| count IH]; intros lo st; simpl; [reflexivity | ].
  now rewrite IH, fs_register.
Qed.

Lemma fs_process_targets (files : Inspector.filesystem) :
  fs (process_targets env o files)
  = fs (map_targets env o 0 (directories o) (initial_state files)).
Proof.
  unfold process_targets, promise_all. cbv zeta.
  rewrite fs_catch_, fs_then_.
  destruct (Nat.eqb _ 0); rewrite ?fs_resolve, fs_watch_targets; reflexivity.
Qed.

Lemma keeps_watch_targets (a : state) (count : nat) :
  forall lo st, keeps a st -> keeps a (watch_targets lo count st).
Proof.
  induction count as [| count IH]; intros lo st K; simpl; [exact K | ].
  apply IH. now apply keeps_register.
Qed.

Lemma keeps_process_targets (files : Inspector.filesystem) :
  keeps (map_targets env o 0 (directories o) (initial_state files))
    (process_targets env o files).
Proof.
  unfold process_targets, promise_all. cbv zeta.
  unfold catch_, then_. apply keeps_register, keeps_register.
  assert (K : keeps (map_targets env o 0 (directories o) (initial_state files))
                (watch_targets 0 (List.length (directories o))
                   (set_remaining (List.length (directories o))
                      (set_values (repeat None (List.length (directories o)))
                         (map_targets env o 0 (directories o) (initial_state files)))))).
  { apply keeps_watch_targets.
    apply (keeps_same _ (map_targets env o 0 (directories o) (initial_state files)));
      [reflexivity | apply keeps_refl]. }
  destruct (Nat.eqb _ 0); [now apply keeps_resolve | exact K].
Qed.

(** A refused target makes the run exit with status 1. *)
Lemma refused_run_fails (d : string) (files : Inspector.filesystem) (fuel : nat) :
  In d (directories o) -> refused o d files ->
  13 * List.length (directories o) + 2 <= fuel ->
  exited (run env o fuel (process_targets env o files)) = Some 1.
Proof.
  intros I R F.
  destruct (map_targets_refuses d (directories o) 0 (initial_state files))
    as [i [e [L E]]]; [intros i s _; reflexivity | exact R | exact I | ].
  apply (keeps_process_targets files (Of i Target) eq_refl) in E.
  apply (keeps_run env o fuel _ (Of i Target) eq_refl) in E.
  destruct (run_reaches_exit env o files fuel F) as [c X].
  destruct (run_shaped_tied env o files fuel) as [_ T].
  destruct (exit_verdict _ _ T c X) as [[-> A] | [-> _]]; [ | exact X].
  specialize (A i L). unfold succeeded in A. rewrite A in E. discriminate E.
Qed.

End Refusal.

End OutcomeFacts.

(** ** Without [--force] and [--brutal] nothing happens after the
    synchronous part *)

Module CalmFacts.

Import Promise Cli Graph Tally Fuel TraceSpec Handlers ExecutorSpec Liveness Outcome.
Import LoopFacts TraceFacts ShapeFacts ListFacts TallyFacts FuelFacts ExecutorFacts RunFacts.
Import LiveFacts StayFacts OutcomeFacts.








Section Calm.
Variable env : environment.
Variable o : options.






Hypothesis no_force : force o = false.
Hypothesis no_brutal : brutal o = false.






End Calm.

End CalmFacts.

(** ** Targets that are removed *)

Module SuccessFacts.

Import Promise Cli Graph Tally Fuel TraceSpec Handlers ExecutorSpec Liveness Outcome.
Import LoopFacts TraceFacts ShapeFacts ListFacts TallyFacts FuelFacts ExecutorFacts RunFacts.
Import LiveFacts StayFacts OutcomeFacts.

Lemma stat_remove_other (d x : string) (files : Inspector.filesystem) :
  x <> d -> Inspector.stat d (Inspector.remove x files) = Inspector.stat d files.
Proof.
  intros N. unfold Inspector.stat. rewrite lookup_remove.
  destruct (x =? d)%string eqn:E; [ | reflexivity].
  apply String.eqb_eq in E. congruence.
Qed.

Lemma lookup_remove_gone (d x : string) (files : Inspector.filesystem) :
  Inspector.lookup d files = None ->
  Inspector.lookup d (Inspector.remove x files) = None.
Proof. intros H. rewrite lookup_remove, H. now destruct (x =? d)%string. Qed.

Lemma lookup_remove_same (d : string) (files : Inspector.filesystem) :
  Inspector.lookup d (Inspector.remove d files) = None.
Proof. now rewrite lookup_remove, String.eqb_refl. Qed.

Section Success.
Variable env : environment.
Variable o : options.

(** The executor of an empty directory removes it when [rmdir] succeeds. *)
Lemma executor_removes (d : string) (i : nat) (st : state) :
  Inspector.stat d (fs st) = Inspector.Dir (Some []) ->
  rmdir_error env d = None ->
  promises st (Of i Target) = Pending [] ->
  fs (rmdirWithConfirmation env o i d st) = Inspector.remove d (fs st)
  /\ promises (rmdirWithConfirmation env o i d st) (Of i Target)
     = Fulfilled (VBool true).
Proof.
  intros H R F.
  assert (E : ends_with i st (rmdirWithConfirmation env o i d st)
                [CheckDirectory d; IsDirectoryEmpty d; Rmdir d; removal_line env d]
                (removal_fs env d (fs st)) (removal_state env d)).
  { unfold rmdirWithConfirmation. cbv zeta.
    rewrite fs_emit. unfold Inspector.checkDirectory. rewrite H.
    cbn [negb map]. rewrite !fs_emit. unfold Inspector.isDirectoryEmpty.
    rewrite H. cbn [negb Inspector.readdir List.length Nat.eqb andb].
    apply (delete_directory_effect env i d st _ [CheckDirectory d; IsDirectoryEmpty d]).
    - repeat split.
    - rewrite !trace_emit, app_nil_r, <- app_assoc. reflexivity. }
  destruct E as [_ [E1 [_ [_ E2]]]]. destruct (E2 F) as [_ E3].
  unfold removal_fs in E1. unfold removal_state in E3. rewrite R in E1, E3. auto.
Qed.

(** What is gone stays gone. *)
Lemma gone_executor (d : string) (i : nat) (dirpath : string) (st : state) :
  Inspector.lookup d (fs st) = None ->
  Inspector.lookup d (fs (rmdirWithConfirmation env o i dirpath st)) = None.
Proof.
  intros G. destruct (fs_executor env o i dirpath st) as [-> | [-> _]]; [exact G | ].
  now apply lookup_remove_gone.
Qed.

Lemma gone_map_targets (d : string) (dirs : list string) :
  forall k st,
    Inspector.lookup d (fs st) = None ->
    Inspector.lookup d (fs (map_targets env o k dirs st)) = None.
Proof.
  induction dirs as [| d0 rest IH]; intros k st G; simpl; [exact G | ].
  now apply IH, gone_executor.
Qed.

Lemma gone_call (d : string) (f : callback) (v : value) (st : state) :
  Inspector.lookup d (fs st) = None ->
  Inspector.lookup d (fs (snd (call env o f v st))) = None.
Proof.
  intros G. destruct f; cbn [call].
  all: repeat match goal with
              | |- context [match ?b with _ => _ end] => destruct b
              | |- context [if ?b then _ else _] => destruct b
              end; cbn [snd]; cbv zeta;
         rewrite ?fs_catch_, ?fs_then_, ?fs_resolve, ?fs_reject, ?fs_exit, ?fs_emit,
           ?fs_store; try exact G.
  all: unfold delete_directory, rmdir; cbv zeta;
         destruct (rmdir_error env _);
         rewrite ?fs_resolve, ?fs_reject, ?fs_emit, ?fs_set_fs, ?fs_emit;
         try exact G; now apply lookup_remove_gone.
Qed.

Lemma gone_run_job (d : string) (j : job) (st : state) :
  Inspector.lookup d (fs st) = None ->
  Inspector.lookup d (fs (run_job env o j st)) = None.
Proof.
  intros G. destruct j as [[f | ] t rej v | q p]; cbn [run_job].
  - pose proof (gone_call d f v st G) as C.
    destruct (call env o f v st) as [result st1]. cbn [snd] in C.
    destruct (exited st1); [exact C | ]. destruct t; [ | exact C].
    destruct result; rewrite ?fs_resolve, ?fs_reject; exact C.
  - destruct t; [ | exact G]. destruct rej; rewrite ?fs_reject, ?fs_fulfill; exact G.
  - now rewrite fs_register.
Qed.

Lemma gone_run (d : string) (fuel : nat) :
  forall st,
    Inspector.lookup d (fs st) = None ->
    Inspector.lookup d (fs (run env o fuel st)) = None.
Proof.
  induction fuel as [| fuel IH]; intros st G; simpl; [exact G | ].
  destruct (turn env o st) as [st' | ] eqn:T; [ | exact G].
  apply IH. unfold turn in T. destruct (exited st); [discriminate T | ].
  destruct (queue st) as [| j rest].
  - destruct (questions st) as [| i qs]; [discriminate T | ].
    injection T as <-. unfold on_answer.
    destruct (answered (answer env i)). now rewrite fs_resolve.
  - injection T as <-. now apply gone_run_job.
Qed.

Lemma map_targets_removes (d : string) (dirs : list string) :
  rmdir_error env d = None ->
  forall k st,
    fresh_from k st -> In d dirs ->
    Inspector.lookup d (fs st) = None
    \/ Inspector.stat d (fs st) = Inspector.Dir (Some []) ->
    Inspector.lookup d (fs (map_targets env o k dirs st)) = None.
Proof.
  intros R. induction dirs as [| d0 rest IH]; intros k st F I H; [destruct I | ].
  simpl. destruct (string_dec d0 d) as [-> | N].
  - apply gone_map_targets. destruct H as [G | E].
    + now apply gone_executor.
    + destruct (executor_removes d k st E R (F k Target (le_n k))) as [-> _].
      apply lookup_remove_same.
  - destruct I as [I | I]; [congruence | ].
    apply IH; [now apply fresh_executor | exact I | ].
    destruct (fs_executor env o k d0 st) as [-> | [-> _]]; [exact H | ].
    destruct H as [G | E]; [left; now apply lookup_remove_gone | right].
    now rewrite stat_remove_other.
Qed.

Lemma removed_in_run (d : string) (files : Inspector.filesystem) (fuel : nat) :
  In d (directories o) ->
  Inspector.stat d files = Inspector.Dir (Some []) ->
  rmdir_error env d = None ->
  Inspector.lookup d (fs (run env o fuel (process_targets env o files))) = None.
Proof.
  intros I E R. apply gone_run. rewrite fs_process_targets.
  apply (map_targets_removes d (directories o) R 0 (initial_state files)); auto.
  intros i s _. reflexivity.
Qed.



End Success.

End SuccessFacts.

(** ** Brutal mode on one target *)

Module BrutalFacts.

Import Promise Cli Graph Tally Fuel TraceSpec Handlers ExecutorSpec Liveness Outcome.
Import LoopFacts TraceFacts ShapeFacts ListFacts TallyFacts FuelFacts ExecutorFacts RunFacts.
Import DeclineFacts.



End BrutalFacts.

(** ** Only targets are removed *)

Module FrameFacts.

Import Promise Cli Graph Tally Fuel TraceSpec Handlers ExecutorSpec Liveness Outcome.
Import LoopFacts TraceFacts ShapeFacts ListFacts TallyFacts FuelFacts ExecutorFacts RunFacts.
Import LiveFacts StayFacts OutcomeFacts.


Section Frame.
Variable env : environment.
Variable o : options.
Variable x : string.
Hypothesis no_target : ~ In x (directories o).








End Frame.

End FrameFacts.

(** Property X18.  Every run over the targets ends with [process.exit],
    provided each question gets an answer: within [13 * n + 2] turns of the
    event loop the script has exited, and the status is 0 exactly when the
    promise of every target is fulfilled with [true], and 1 otherwise. *)
Theorem targets_run_exits (env : Cli.environment) (o : Args.options)
    (files : Inspector.filesystem) (fuel : nat) :
  13 * List.length (Args.directories o) + 2 <= fuel ->
  exists c,
    Cli.exited (Cli.run env o fuel (Cli.process_targets env o files)) = Some c
    /\ (c = 0 <->
        forall i, i < List.length (Args.directories o) ->
                  Tally.succeeded (Cli.run env o fuel (Cli.process_targets env o files)) i)
    /\ c <= 1.
Proof.
  intros F. destruct (LiveFacts.run_reaches_exit env o files fuel F) as [c E].
  exists c. split; [exact E | ].
  destruct (RunFacts.run_shaped_tied env o files fuel) as [_ T].
  destruct (Tally.exit_verdict _ _ T c E) as [[-> A] | [-> [i [I H]]]].
  - split; [tauto | lia].
  - split; [ | lia]. split; [discriminate | ].
    intros A. specialize (A i I). unfold Tally.succeeded in A.
    destruct H as [H | [e H]]; rewrite A in H; discriminate H.
Qed.

Lemma targets_run_exits_witness :
  exists c,
    Cli.exited (Cli.run (ExecutorSpec.plain_environment "y")
                  (Args.mkOptions true false true false false ["d"]) 15
                  (Cli.process_targets (ExecutorSpec.plain_environment "y")
                     (Args.mkOptions true false true false false ["d"])
                     [("d", Inspector.Dir (Some [("f", Inspector.File 1)]))]))
    = Some c
    /\ (c = 0 <->
        forall i, i < List.length (Args.directories
                                     (Args.mkOptions true false true false false ["d"])) ->
                  Tally.succeeded
                    (Cli.run (ExecutorSpec.plain_environment "y")
                       (Args.mkOptions true false true false false ["d"]) 15
                       (Cli.process_targets (ExecutorSpec.plain_environment "y")
                          (Args.mkOptions true false true false false ["d"])
                          [("d", Inspector.Dir (Some [("f", Inspector.File 1)]))])) i)
    /\ c <= 1.
Proof.
  apply (targets_run_exits (ExecutorSpec.plain_environment "y")
           (Args.mkOptions true false true false false ["d"])
           [("d", Inspector.Dir (Some [("f", Inspector.File 1)]))] 15).
  simpl. lia.
Defined.



(** Property X20.  One target that fails [checkDirectory] (a path that does
    not exist, is not a directory or cannot be accessed) makes the whole run
    exit with status 1, whatever the other targets, the flags and the
    answers. *)
Theorem failed_check_fails_run (env : Cli.environment) (o : Args.options)
    (d : string) (files : Inspector.filesystem) (fuel : nat) :
  In d (Args.directories o) ->
  fst (Inspector.checkDirectory d files) = false ->
  13 * List.length (Args.directories o) + 2 <= fuel ->
  Cli.exited (Cli.run env o fuel (Cli.process_targets env o files)) = Some 1.
Proof.
  intros I C F. apply (OutcomeFacts.refused_run_fails env o d files fuel I); [ | exact F].
  left. exact C.
Qed.

Lemma failed_check_fails_run_witness :
  Cli.exited
    (Cli.run (ExecutorSpec.plain_environment "y")
       (Args.mkOptions true true false false false ["d"; "missing"]) 28
       (Cli.process_targets (ExecutorSpec.plain_environment "y")
          (Args.mkOptions true true false false false ["d"; "missing"])
          [("d", Inspector.Dir (Some []))]))
  = Some 1.
Proof.
  apply (failed_check_fails_run (ExecutorSpec.plain_environment "y")
           (Args.mkOptions true true false false false ["d"; "missing"])
           "missing" [("d", Inspector.Dir (Some []))] 28).
  - right. left. reflexivity.
  - reflexivity.
  - simpl. lia.
Defined.



(** Property X22.  A target that is an existing empty directory is removed,
    whatever the flags, the other targets and the answers, when [rmdir] does
    not fail on it: once the synchronous part of the script is over, and for
    the rest of the run, the file system has nothing at that path. *)
Theorem empty_target_is_removed (env : Cli.environment) (o : Args.options)
    (d : string) (files : Inspector.filesystem) (fuel : nat) :
  In d (Args.directories o) ->
  Inspector.stat d files = Inspector.Dir (Some []) ->
  Cli.rmdir_error env d = None ->
  Inspector.lookup d (Cli.fs (Cli.run env o fuel (Cli.process_targets env o files)))
  = None.
Proof. exact (SuccessFacts.removed_in_run env o d files fuel). Qed.

Lemma empty_target_is_removed_witness :
  Inspector.lookup "e"
    (Cli.fs
       (Cli.run (ExecutorSpec.plain_environment "n")
          (Args.mkOptions false false false false false ["missing"; "e"]) 0
          (Cli.process_targets (ExecutorSpec.plain_environment "n")
             (Args.mkOptions false false false false false ["missing"; "e"])
             [("e", Inspector.Dir (Some []))])))
  = None.
Proof.
  apply (empty_target_is_removed (ExecutorSpec.plain_environment "n")
           (Args.mkOptions false false false false false ["missing"; "e"]) "e"
           [("e", Inspector.Dir (Some []))] 0).
  - right. left. reflexivity.
  - reflexivity.
  - reflexivity.
Defined.





(** Property X25.  The one-directory script looks at its first argument
    only: what follows it changes nothing, so a flag after the directory is
    ignored; [rmdir] is called at most once, on the first argument, and
    exactly when that argument is neither empty nor one of the four flag
    spellings; the script never exits with a status other than 0. *)
Theorem simple_main_first_argument (version a : string) (rest : list string) :
  Simple.main version (a :: rest) = Simple.main version [a]
  /\ (In (Promise.Rmdir a) (Simple.main version (a :: rest))
      <-> Simple.is_flag a = false /\ a <> ""%string)
  /\ (forall e, In e (Simple.main version (a :: rest)) ->
        match e with
        | Promise.Rmdir d => d = a
        | Promise.Exit c => c = 0
        | Promise.Stdout _ => True
        | _ => False
        end).
Proof.
  unfold Simple.main, Simple.is_flag.
  destruct (a =? "--help")%string, (a =? "-h")%string, (a =? "--version")%string,
    (a =? "-v")%string; cbn [orb];
    try (split; [reflexivity | split;
         [split; [intros [H | [H | [H | []]]]; discriminate H
                 | intros [H _]; discriminate H]
         | intros e [<- | [<- | [<- | []]]]; auto]]);
    try (split; [reflexivity | split;
         [split; [intros [H | [H | []]]; discriminate H
                 | intros [H _]; discriminate H]
         | intros e [<- | [<- | []]]; auto]]).
  destruct (String.eqb_spec a "") as [-> | N].
  - split; [reflexivity | split; [split; [intros [] | intros [_ H]; now destruct H] | intros e []]].
  - split; [reflexivity | split; [split; [auto | intros _; now left] | ]].
    intros e [<- | []]. reflexivity.
Qed.


